(** * B438-Checkers: the rules engines and their properties

    Two rule engines live in the repository:

    - [GameLogic]: [piece.py], [board.py] and [game_logic.py] (class [Game]),
      driven by [tkinter_ui.py] (module [UI] below);
    - [Engine]: [src/checkersEngine.py] (enum pieces, list-of-squares moves,
      [legal_moves], [apply_move], [winner], the notation helpers).

    Python integers are unbounded, so they are [Z].  A board is the list of
    rows the code builds, read with stdpp's list lookup and written with its
    insert.  A Python [dict] is an association list in insertion order.
    Code that can raise returns a [result]. *)

From Stdlib Require Import ZArith Bool Lia String Ascii DecimalString.
From stdpp Require Import base tactics option list.

Local Open Scope Z_scope.

(** ** Outcomes of Python calls *)

(** The Python exceptions the modelled code can raise, and two outcomes
    that mark the edge of the model: [NonLatin1] for a character that a
    [string] cannot hold, [Dangling] for an address with no object. *)
Inductive exn : Type :=
| ValueError (msg : string)
| IndexError
| AttributeError
| NonLatin1
| Dangling.

(** A call returns a value, raises, or (for the two recursive searches,
    which take a recursion budget) runs out of budget. *)
Inductive result (A : Type) : Type :=
| Return (a : A)
| Raise (e : exn)
| OutOfFuel.

Arguments Return {A} a.
Arguments Raise {A} e.
Arguments OutOfFuel {A}.

Definition rbind {A B} (m : result A) (k : A -> result B) : result B :=
  match m with
  | Return a => k a
  | Raise e => Raise e
  | OutOfFuel => OutOfFuel
  end.

Declare Scope result_scope.
Delimit Scope result_scope with result.
Notation "'do' x <- m ; k" := (rbind m (fun x => k))
  (at level 10, x pattern, m at level 100, k at level 200) : result_scope.
Local Open Scope result_scope.

(** A [for] loop whose body can raise: the accumulator is threaded through
    the iterations and the first failure ends the loop. *)
Fixpoint foldM {A B} (f : A -> B -> result A) (l : list B) (a : A) : result A :=
  match l with
  | [] => Return a
  | x :: l' => do a' <- f a x; foldM f l' a'
  end.

(** ** Squares, [range(8)] and dictionaries *)

Definition pos : Type := Z * Z.

Definition pos_eqb (a b : pos) : bool := (a.1 =? b.1) && (a.2 =? b.2).

Definition range8 : list Z := [0; 1; 2; 3; 4; 5; 6; 7].

(** [for r in range(8): for c in range(8)], row-major. *)
Definition squares : list pos :=
  flat_map (fun r => map (fun c => (r, c)) range8) range8.

Section Dict.
Context {V : Type}.

Definition dict : Type := list (pos * V).

Fixpoint dict_get (d : dict) (k : pos) : option V :=
  match d with
  | [] => None
  | (k', v) :: d' => if pos_eqb k' k then Some v else dict_get d' k
  end.

(** [d[k] = v]: overwrite in place, or append a new key. *)
Fixpoint dict_set (d : dict) (k : pos) (v : V) : dict :=
  match d with
  | [] => [(k, v)]
  | (k', v') :: d' =>
      if pos_eqb k' k then (k', v) :: d' else (k', v') :: dict_set d' k v
  end.

Definition dict_values (d : dict) : list V := map snd d.
Definition dict_keys (d : dict) : list pos := map fst d.
End Dict.

Arguments dict V : clear implicits.

(** [d.setdefault(k, []).append(x)] *)
Fixpoint setdefault_append {X} (d : dict (list X)) (k : pos) (x : X) : dict (list X) :=
  match d with
  | [] => [(k, [x])]
  | (k', xs) :: d' =>
      if pos_eqb k' k then (k', xs ++ [x]) :: d'
      else (k', xs) :: setdefault_append d' k x
  end.

(** [max(seqs, key=len)]: the first sequence of greatest length. *)
Fixpoint max_by_len {X} (best : list X) (seqs : list (list X)) : list X :=
  match seqs with
  | [] => best
  | s :: seqs' =>
      if (length best <? length s)%nat then max_by_len s seqs'
      else max_by_len best seqs'
  end.

Definition is_nil {X} (l : list X) : bool :=
  match l with [] => true | _ => false end.

Definition is_none {X} (o : option X) : bool :=
  match o with None => true | Some _ => false end.

(** ** [piece.py], [board.py], [game_logic.py] *)

Module GameLogic.

Inductive Color : Type := RED | BLACK.

Definition color_eqb (a b : Color) : bool :=
  match a, b with
  | RED, RED | BLACK, BLACK => true
  | _, _ => false
  end.

Record Piece : Type := mkPiece { color : Color; king : bool }.

Definition make_king (p : Piece) : Piece :=
  {| color := color p; king := true |}.

(** [Board.board]: eight rows of eight cells, [None] for an empty cell. *)
Abbreviation Board := (list (list (option Piece))).

Definition wf_board (b : Board) : Prop :=
  length b = 8%nat /\ Forall (fun row => length row = 8%nat) b.

Definition in_bounds (r c : Z) : bool :=
  (0 <=? r) && (r <? 8) && (0 <=? c) && (c <? 8).

Definition create_board : Board :=
  map (fun r =>
         map (fun c =>
                if (r <? 3) && ((r + c) mod 2 =? 1) then Some (mkPiece RED false)
                else if (5 <=? r) && ((r + c) mod 2 =? 1) then Some (mkPiece BLACK false)
                else None)
             range8)
      range8.

Definition get (b : Board) (r c : Z) : option Piece :=
  if in_bounds r c then
    match b !! Z.to_nat r with
    | Some row => match row !! Z.to_nat c with Some x => x | None => None end
    | None => None
    end
  else None.

Definition set (b : Board) (r c : Z) (piece : option Piece) : Board :=
  if in_bounds r c then
    alter (fun row => <[Z.to_nat c := piece]> row) (Z.to_nat r) b
  else b.

Definition remove (b : Board) (r c : Z) : Board := set b r c None.

(** [deepcopy] of a value is the value; the object identity that [clone]
    creates is the subject of module [Store]. *)
Definition clone (b : Board) : Board := b.

Record Game : Type := mkGame {
  board : Board;
  turn : Color;
  winner : option Color
}.

Definition new_game : Game :=
  {| board := create_board; turn := RED; winner := None |}.

Definition reset (g : Game) : Game := new_game.

Definition king_dirs : list (Z * Z) := [(-1, -1); (-1, 1); (1, -1); (1, 1)].

Definition dirs_of (p : Piece) : list (Z * Z) :=
  if king p then king_dirs
  else
    let step := match color p with RED => 1 | BLACK => -1 end in
    [(step, -1); (step, 1)].

Definition jumps_t : Type := dict (list (list pos)).

(** One iteration of the [for dr,dc in jdirs] loop of [dfs]; [rec] is the
    recursive call. *)
Definition dfs_step
    (rec : Z -> Z -> Board -> list pos -> jumps_t -> result (bool * jumps_t))
    (piece : Piece) (sr sc : Z) (board_state : Board) (captured : list pos)
    (acc : bool * jumps_t) (d : Z * Z) : result (bool * jumps_t) :=
  let '(found, jumps) := acc in
  let '(dr, dc) := d in
  let mr := sr + dr in let mc := sc + dc in
  let lr := sr + 2 * dr in let lc := sc + 2 * dc in
  if negb (in_bounds mr mc && in_bounds lr lc) then Return (found, jumps)
  else
    let mid := get board_state mr mc in
    let land := get board_state lr lc in
    match mid, land with
    | Some m, None =>
        if negb (color_eqb (color m) (color piece)) then
          let new_board := clone board_state in
          let new_board := set new_board lr lc (get new_board sr sc) in
          let new_board := remove new_board sr sc in
          let new_board := remove new_board mr mc in
          let new_captured := captured ++ [(mr, mc)] in
          do r <- rec lr lc new_board new_captured jumps;
          let '(more, jumps) := r in
          let jumps :=
            if negb more then setdefault_append jumps (lr, lc) new_captured
            else jumps in
          Return (true, jumps)
        else Return (found, jumps)
    | _, _ => Return (found, jumps)
    end.

(** The closure [dfs] of [get_valid_moves]; the dictionary [jumps] it
    appends to is passed in and out. *)
Fixpoint dfs (fuel : nat) (sr sc : Z) (board_state : Board)
    (captured : list pos) (jumps : jumps_t) : result (bool * jumps_t) :=
  match fuel with
  | O => OutOfFuel
  | S fuel' =>
      match get board_state sr sc with
      | None => Raise AttributeError
      | Some piece =>
          foldM (dfs_step (dfs fuel') piece sr sc board_state captured)
                (dirs_of piece) (false, jumps)
      end
  end.

(** A jump removes a piece, so no search is deeper than the number of
    squares. *)
Definition search_fuel : nat := 65.

Definition simple_moves (b : Board) (r c : Z) (p : Piece) : dict (list pos) :=
  fold_left
    (fun simple '(dr, dc) =>
       let nr := r + dr in let nc := c + dc in
       if in_bounds nr nc && is_none (get b nr nc)
       then dict_set simple (nr, nc) []
       else simple)
    (dirs_of p) [].

Definition best_of (seqs : list (list pos)) : list pos :=
  match seqs with
  | [] => []
  | s :: seqs' => max_by_len s seqs'
  end.

Definition get_valid_moves (b : Board) (r c : Z) : result (dict (list pos)) :=
  match get b r c with
  | None => Return []
  | Some p =>
      let simple := simple_moves b r c p in
      do res <- dfs search_fuel r c (clone b) [] [];
      let jumps := res.2 in
      if negb (is_nil jumps) then
        Return (fold_left
                  (fun result '(dest, seqs) => dict_set result dest (best_of seqs))
                  jumps [])
      else Return simple
  end.

Definition get_all_moves (b : Board) (clr : Color)
  : result (dict (dict (list pos))) :=
  foldM
    (fun moves '(r, c) =>
       match get b r c with
       | Some p =>
           if color_eqb (color p) clr then
             do legal <- get_valid_moves b r c;
             if negb (is_nil legal) then Return (dict_set moves (r, c) legal)
             else Return moves
           else Return moves
       | None => Return moves
       end)
    squares [].

(** The second component of [move_piece]'s answer. *)
Inductive move_info : Type :=
| Message (text : string)
| Continue (at_pos : pos)
| NoContinue.

Definition remove_all (b : Board) (captured : list pos) : Board :=
  fold_left (fun b '(cr, cc) => remove b cr cc) captured b.

(** [p.make_king()] changes the object [p]; the only cell that can hold
    [p] is [(er,ec)], unless a [remove] has emptied it since. *)
Definition crown_at (b : Board) (er ec : Z) (p : Piece) : Board :=
  match get b er ec with
  | Some _ => set b er ec (Some p)
  | None => b
  end.

Definition other (c : Color) : Color :=
  match c with RED => BLACK | BLACK => RED end.

Definition move_piece (g : Game) (start end_ : pos)
  : result (bool * move_info) * Game :=
  let '(sr, sc) := start in
  let '(er, ec) := end_ in
  match get (board g) sr sc with
  | None => (Return (false, Message "Invalid piece"), g)
  | Some p =>
      if negb (color_eqb (color p) (turn g))
      then (Return (false, Message "Invalid piece"), g)
      else
        match get_valid_moves (board g) sr sc with
        | Raise e => (Raise e, g)
        | OutOfFuel => (OutOfFuel, g)
        | Return valid =>
            match dict_get valid end_ with
            | None => (Return (false, Message "Invalid move"), g)
            | Some captured =>
                let b := set (board g) er ec (Some p) in
                let b := remove b sr sc in
                let b := remove_all b captured in
                let p' :=
                  if negb (king p) then
                    match color p with
                    | RED => if er =? 7 then make_king p else p
                    | BLACK => if er =? 0 then make_king p else p
                    end
                  else p in
                let b := crown_at b er ec p' in
                let g1 := {| board := b; turn := turn g; winner := winner g |} in
                let flip :=
                  (Return (true, NoContinue),
                   {| board := b; turn := other (turn g); winner := winner g |}) in
                if negb (is_nil captured) then
                  match get_valid_moves b er ec with
                  | Raise e => (Raise e, g1)
                  | OutOfFuel => (OutOfFuel, g1)
                  | Return more =>
                      if existsb (fun v => negb (is_nil v)) (dict_values more)
                      then (Return (true, Continue (er, ec)), g1)
                      else flip
                  end
                else flip
            end
        end
  end.

End GameLogic.

(** ** Text helpers: [str(int)], tuple [repr] *)

Definition str_of_Z (z : Z) : string := NilZero.string_of_int (Z.to_int z).

Definition repr_pos (p : pos) : string :=
  ("(" ++ str_of_Z p.1 ++ ", " ++ str_of_Z p.2 ++ ")")%string.

(** ** [tkinter_ui.py]: the state that [CheckersUI.on_click] reads and writes

    Canvas drawing and message boxes leave no trace in the state and are
    left out; [draw_board] is kept for the one engine call it makes. *)

Module UI.
Import GameLogic.

Definition CELL : Z := 70.

Record CheckersUI : Type := mkUI {
  game : Game;
  selected : option pos;
  must_continue : bool;
  continue_pos : option pos;
  turn_label : string;
  move_listbox : list string;
  status : string
}.

Definition color_name (c : Color) : string :=
  match c with RED => "RED" | BLACK => "BLACK" end.

Definition init : CheckersUI :=
  {| game := new_game; selected := None; must_continue := false;
     continue_pos := None;
     turn_label := ("Turn: " ++ color_name (turn new_game))%string;
     move_listbox := []; status := "" |}.

Definition with_status (ui : CheckersUI) (text : string) : CheckersUI :=
  {| game := game ui; selected := selected ui;
     must_continue := must_continue ui; continue_pos := continue_pos ui;
     turn_label := turn_label ui; move_listbox := move_listbox ui;
     status := text |}.

Definition on_move_attempt (g : Game) (start end_ : pos)
  : result (bool * move_info) * Game :=
  move_piece g start end_.

Definition restart (ui : CheckersUI) : CheckersUI :=
  let g := reset (game ui) in
  {| game := g; selected := None; must_continue := false;
     continue_pos := None;
     turn_label := ("Turn: " ++ color_name (turn g))%string;
     move_listbox := []; status := "" |}.

(** The line [append_move_history] adds to the list box. *)
Definition history_line (g : Game) (start end_ : pos) (captured : list pos)
  : string :=
  let player := turn g in
  let made_by :=
    match get (board g) end_.1 end_.2 with
    | Some dest_piece => color dest_piece
    | None => player
    end in
  let cap_text :=
    if negb (is_nil captured)
    then (" captures " ++ str_of_Z (Z.of_nat (length captured)))%string
    else ""%string in
  (color_name made_by ++ ": " ++ repr_pos start ++ " -> " ++ repr_pos end_
     ++ cap_text)%string.

(** [draw_board] asks the engine for the moves of the selected square. *)
Definition draw_board (g : Game) (sel : option pos) : result unit :=
  match sel with
  | Some (sr, sc) => do _ <- get_valid_moves (board g) sr sc; Return tt
  | None => Return tt
  end.

Definition same_square (p : pos) (q : option pos) : bool :=
  match q with Some q' => pos_eqb p q' | None => false end.

Definition info_text (i : move_info) : string :=
  match i with
  | Message t => t
  | Continue p => ("{'continue': True, 'pos': " ++ repr_pos p ++ "}")%string
  | NoContinue => "{'continue': False}"
  end.

Definition on_click (ui : CheckersUI) (x y : Z) : result unit * CheckersUI :=
  let col := x / CELL in
  let row := y / CELL in
  if (row <? 0) || (7 <? row) || (col <? 0) || (7 <? col) then (Return tt, ui)
  else if must_continue ui && negb (same_square (row, col) (continue_pos ui))
  then (Return tt,
        with_status ui "You must continue capturing with the same piece.")
  else
    let piece := get (board (game ui)) row col in
    let own :=
      match piece with
      | Some p => color_eqb (color p) (turn (game ui))
      | None => false
      end in
    if own then
      let ui' :=
        {| game := game ui; selected := Some (row, col);
           must_continue := must_continue ui; continue_pos := continue_pos ui;
           turn_label := turn_label ui; move_listbox := move_listbox ui;
           status := "" |} in
      (draw_board (game ui') (selected ui'), ui')
    else
      match selected ui with
      | None => (Return tt, ui)
      | Some start =>
          let end_ := (row, col) in
          match get_valid_moves (board (game ui)) start.1 start.2 with
          | Raise e => (Raise e, ui)
          | OutOfFuel => (OutOfFuel, ui)
          | Return valid =>
              match dict_get valid end_ with
              | None => (Return tt, with_status ui "Invalid move.")
              | Some captured =>
                  let '(res, g') := on_move_attempt (game ui) start end_ in
                  let moved (sel : option pos) (mc : bool) (cp : option pos)
                            (lbl lines st : _) :=
                    {| game := g'; selected := sel; must_continue := mc;
                       continue_pos := cp; turn_label := lbl;
                       move_listbox := lines; status := st |} in
                  match res with
                  | Raise e =>
                      (Raise e, moved (selected ui) (must_continue ui)
                                  (continue_pos ui) (turn_label ui)
                                  (move_listbox ui) (status ui))
                  | OutOfFuel =>
                      (OutOfFuel, moved (selected ui) (must_continue ui)
                                    (continue_pos ui) (turn_label ui)
                                    (move_listbox ui) (status ui))
                  | Return (false, info) =>
                      (Return tt,
                       moved (selected ui) (must_continue ui) (continue_pos ui)
                         (turn_label ui) (move_listbox ui)
                         ("Move rejected: " ++ info_text info)%string)
                  | Return (true, info) =>
                      let lines :=
                        move_listbox ui ++ [history_line g' start end_ captured] in
                      let ui' :=
                        match info with
                        | Continue p =>
                            moved (Some p) true (Some p) (turn_label ui) lines
                              "Continue capturing with same piece."%string
                        | _ =>
                            moved None false None
                              ("Turn: " ++ color_name (turn g'))%string lines
                              ""%string
                        end in
                      match draw_board (game ui') (selected ui') with
                      | Return _ =>
                          match winner g' with
                          | Some w =>
                              (Return tt,
                               {| game := game ui'; selected := selected ui';
                                  must_continue := must_continue ui';
                                  continue_pos := continue_pos ui';
                                  turn_label :=
                                    ("Winner: " ++ color_name w)%string;
                                  move_listbox := move_listbox ui';
                                  status := status ui' |})
                          | None => (Return tt, ui')
                          end
                      | Raise e => (Raise e, ui')
                      | OutOfFuel => (OutOfFuel, ui')
                      end
                  end
              end
          end
      end.

End UI.

(** ** Python sequences: indexing with negative wrap-around *)

Definition py_norm (n : nat) (i : Z) : option nat :=
  let j := if i <? 0 then i + Z.of_nat n else i in
  if (0 <=? j) && (j <? Z.of_nat n) then Some (Z.to_nat j) else None.

(** [l[i]] *)
Definition py_index {X} (l : list X) (i : Z) : result X :=
  match py_norm (length l) i with
  | Some j => match l !! j with Some x => Return x | None => Raise IndexError end
  | None => Raise IndexError
  end.

(** [l[i] = x] *)
Definition py_setitem {X} (l : list X) (i : Z) (x : X) : result (list X) :=
  match py_norm (length l) i with
  | Some j => Return (<[j := x]> l)
  | None => Raise IndexError
  end.

(** [any(f(x) for x in l)]: stops at the first true value. *)
Fixpoint anyM {B} (f : B -> result bool) (l : list B) : result bool :=
  match l with
  | [] => Return false
  | x :: l' => do b <- f x; if b then Return true else anyM f l'
  end.

(** ** [src/checkersEngine.py]

    [class Board] ends with [render].  [legal_moves], [apply_move],
    [is_game_over], [winner] and the two [_find_] helpers are written
    at module level, after the class: they are plain functions whose
    first parameter is named [self], and a [Board] has no attribute of
    those names. *)

Module Engine.

Definition BOARD_SIZE : Z := 8.

Module Player.
Inductive t : Type := RED | BLACK.
Definition eqb (a b : t) : bool :=
  match a, b with
  | RED, RED | BLACK, BLACK => true
  | _, _ => false
  end.
End Player.

Module Piece.
Inductive t : Type := EMPTY | RED | RED_KING | BLACK | BLACK_KING.
Definition eqb (a b : t) : bool :=
  match a, b with
  | EMPTY, EMPTY | RED, RED | RED_KING, RED_KING
  | BLACK, BLACK | BLACK_KING, BLACK_KING => true
  | _, _ => false
  end.
End Piece.

Definition is_dark_square (r c : Z) : bool := (r + c) mod 2 =? 1.

Definition piece_owner (piece : Piece.t) : option Player.t :=
  match piece with
  | Piece.RED | Piece.RED_KING => Some Player.RED
  | Piece.BLACK | Piece.BLACK_KING => Some Player.BLACK
  | Piece.EMPTY => None
  end.

Definition owner_eqb (a b : option Player.t) : bool :=
  match a, b with
  | Some x, Some y => Player.eqb x y
  | None, None => true
  | _, _ => false
  end.

Definition is_king (piece : Piece.t) : bool :=
  match piece with
  | Piece.RED_KING | Piece.BLACK_KING => true
  | _ => false
  end.

Definition promote (piece : Piece.t) (row : Z) : Piece.t :=
  if Piece.eqb piece Piece.RED && (row =? 0) then Piece.RED_KING
  else if Piece.eqb piece Piece.BLACK && (row =? BOARD_SIZE - 1)
       then Piece.BLACK_KING
  else piece.

Definition move : Type := list pos.

(** [Board.grid] *)
Abbreviation Board := (list (list Piece.t)).

Definition wf_board (b : Board) : Prop :=
  length b = 8%nat /\ Forall (fun row => length row = 8%nat) b.

Definition setup_initial : Board :=
  map (fun r =>
         map (fun c =>
                if negb (is_dark_square r c) then Piece.EMPTY
                else if r <=? 2 then Piece.BLACK
                else if 5 <=? r then Piece.RED
                else Piece.EMPTY)
             range8)
      range8.

Definition clone (b : Board) : Board := b.

Definition in_bounds (r c : Z) : bool :=
  (0 <=? r) && (r <? BOARD_SIZE) && (0 <=? c) && (c <? BOARD_SIZE).

Definition get (b : Board) (r c : Z) : result Piece.t :=
  do row <- py_index b r; py_index row c.

Definition set (b : Board) (r c : Z) (val : Piece.t) : result Board :=
  do row <- py_index b r;
  do row' <- py_setitem row c val;
  py_setitem b r row'.

Definition directions : list (Z * Z) := [(-1, -1); (-1, 1); (1, -1); (1, 1)].

Definition _find_simple_moves_from (self : Board) (r c : Z) : result (list move) :=
  do piece <- get self r c;
  if Piece.eqb piece Piece.EMPTY then Return []
  else
    let owner := piece_owner piece in
    let steps :=
      if is_king piece then [(-1, -1); (-1, 1); (1, -1); (1, 1)]
      else if owner_eqb owner (Some Player.RED) then [(-1, -1); (-1, 1)]
      else [(1, -1); (1, 1)] in
    foldM
      (fun moves '(dr, dc) =>
         let nr := r + dr in let nc := c + dc in
         if negb (in_bounds nr nc) then Return moves
         else
           do q <- get self nr nc;
           if Piece.eqb q Piece.EMPTY then Return (moves ++ [[(r, c); (nr, nc)]])
           else Return moves)
      steps [].

(** One iteration of [for dr, dc in directions] in the closure [dfs] of
    [_find_captures_from]; the accumulator is [(moved, results)]. *)
Definition dfs_step
    (rec : Board -> Z -> Z -> list pos -> list move -> result (list move))
    (owner : option Player.t) (p : Piece.t)
    (board_snapshot : Board) (cur_r cur_c : Z) (path : list pos)
    (acc : bool * list move) (d : Z * Z) : result (bool * list move) :=
  let '(moved, results) := acc in
  let '(dr, dc) := d in
  let mid_r := cur_r + dr in
  let mid_c := cur_c + dc in
  let land_r := cur_r + 2 * dr in
  let land_c := cur_c + 2 * dc in
  if negb (in_bounds mid_r mid_c && in_bounds land_r land_c)
  then Return (moved, results)
  else
    do mid_piece <- get board_snapshot mid_r mid_c;
    do land_piece <- get board_snapshot land_r land_c;
    if negb (Piece.eqb land_piece Piece.EMPTY) then Return (moved, results)
    else if is_none (piece_owner mid_piece)
            || owner_eqb (piece_owner mid_piece) owner
    then Return (moved, results)
    else if negb (is_king p)
            && ((owner_eqb owner (Some Player.RED) && (0 <? dr))
                || (owner_eqb owner (Some Player.BLACK) && (dr <? 0)))
    then Return (moved, results)
    else
      let new_snapshot := clone board_snapshot in
      do new_snapshot <- set new_snapshot mid_r mid_c Piece.EMPTY;
      do new_snapshot <- set new_snapshot cur_r cur_c Piece.EMPTY;
      do new_snapshot <- set new_snapshot land_r land_c p;
      do results <- rec new_snapshot land_r land_c
                        (path ++ [(land_r, land_c)]) results;
      Return (true, results).

Fixpoint dfs (fuel : nat) (owner : option Player.t)
    (board_snapshot : Board) (cur_r cur_c : Z) (path : list pos)
    (results : list move) : result (list move) :=
  match fuel with
  | O => OutOfFuel
  | S fuel' =>
      do p <- get board_snapshot cur_r cur_c;
      do acc <- foldM (dfs_step (dfs fuel' owner) owner p
                                board_snapshot cur_r cur_c path)
                      directions (false, results);
      let '(moved, results) := acc in
      if negb moved then
        if (1 <? length path)%nat then Return (results ++ [path])
        else Return results
      else Return results
  end.

Definition search_fuel : nat := 65.

Definition _find_captures_from (self : Board) (r c : Z) : result (list move) :=
  do piece <- get self r c;
  if Piece.eqb piece Piece.EMPTY then Return []
  else
    let owner := piece_owner piece in
    dfs search_fuel owner (clone self) r c [(r, c)] [].

Definition jumps_of (m : move) : Z := Z.of_nat (length m) - 1.

(** [max(len(m)-1 for m in captures)] on a non-empty list. *)
Definition max_jumps (captures : list move) : Z :=
  match captures with
  | [] => 0
  | m :: ms => fold_left (fun best m' => Z.max best (jumps_of m')) ms (jumps_of m)
  end.

(** [self.<name>] for a name that [class Board] does not define: the
    attribute lookup raises before the call is made. *)
Definition no_attribute {A : Type} : result A := Raise AttributeError.

(** [self._find_captures_from] and [self._find_simple_moves_from] are
    looked up on the [Board]; neither is an attribute of it. *)
Definition legal_moves (self : Board) (player : Player.t) (max_capture : bool)
  : result (list move) :=
  do acc <-
    foldM
      (fun '(captures, quiets) '(r, c) =>
         do p <- get self r c;
         if negb (owner_eqb (piece_owner p) (Some player))
         then Return (captures, quiets)
         else
           do caps <- (no_attribute : result (list move));
           let captures := captures ++ caps in
           if is_nil caps then
             do steps <- (no_attribute : result (list move));
             Return (captures, quiets ++ steps)
           else Return (captures, quiets))
      squares ([], []);
  let '(captures, quiets) := acc in
  if negb (is_nil captures) then
    if max_capture then
      let maxlen := max_jumps captures in
      Return (List.filter (fun m => jumps_of m =? maxlen) captures)
    else Return captures
  else Return quiets.

(** The [for idx in range(1, len(move))] loop of [apply_move]; the board
    keeps every write made before a failing one. *)
Fixpoint apply_hops (b : Board) (src : pos) (hops : list pos)
  : result pos * Board :=
  match hops with
  | [] => (Return src, b)
  | dst :: hops' =>
      if (Z.abs (dst.1 - src.1) =? 2) && (Z.abs (dst.2 - src.2) =? 2) then
        let mid_r := (dst.1 + src.1) / 2 in
        let mid_c := (dst.2 + src.2) / 2 in
        match set b mid_r mid_c Piece.EMPTY with
        | Return b' => apply_hops b' dst hops'
        | Raise e => (Raise e, b)
        | OutOfFuel => (OutOfFuel, b)
        end
      else apply_hops b dst hops'
  end.

Definition apply_move (self : Board) (move : move) : result unit * Board :=
  match move with
  | [] | [_] =>
      (Raise (ValueError "Move must contain at least a source and destination"),
       self)
  | (src_r, src_c) :: hops =>
      match get self src_r src_c with
      | Raise e => (Raise e, self)
      | OutOfFuel => (OutOfFuel, self)
      | Return piece =>
          if Piece.eqb piece Piece.EMPTY
          then (Raise (ValueError "No piece at source"), self)
          else
            match set self src_r src_c Piece.EMPTY with
            | Raise e => (Raise e, self)
            | OutOfFuel => (OutOfFuel, self)
            | Return b1 =>
                match apply_hops b1 (src_r, src_c) hops with
                | (Return (fr, fc), b2) =>
                    let piece := promote piece fr in
                    match set b2 fr fc piece with
                    | Return b3 => (Return tt, b3)
                    | Raise e => (Raise e, b2)
                    | OutOfFuel => (OutOfFuel, b2)
                    end
                | (Raise e, b2) => (Raise e, b2)
                | (OutOfFuel, b2) => (OutOfFuel, b2)
                end
            end
      end
  end.

Definition exists_piece (self : Board) (pl : Player.t) : result bool :=
  anyM (fun '(r, c) =>
          do p <- get self r c;
          Return (owner_eqb (piece_owner p) (Some pl)))
       squares.

(** [self.legal_moves] is looked up on the [Board], which has no such
    attribute. *)
Definition is_game_over (self : Board) : result bool :=
  do red_exists <- exists_piece self Player.RED;
  do black_exists <- exists_piece self Player.BLACK;
  if negb red_exists || negb black_exists then Return true
  else
    do red <- (no_attribute : result (list move));
    if is_nil red then Return true
    else
      do black <- (no_attribute : result (list move));
      if is_nil black then Return true else Return false.

Definition winner (self : Board) : result (option Player.t) :=
  do red_exists <- exists_piece self Player.RED;
  do black_exists <- exists_piece self Player.BLACK;
  if negb red_exists && black_exists then Return (Some Player.BLACK)
  else if negb black_exists && red_exists then Return (Some Player.RED)
  else
    do red <- (no_attribute : result (list move));
    let red_moves := negb (is_nil red) in
    do black <- (no_attribute : result (list move));
    let black_moves := negb (is_nil black) in
    if red_moves && negb black_moves then Return (Some Player.RED)
    else if black_moves && negb red_moves then Return (Some Player.BLACK)
    else Return None.

(** *** Notation helpers.  A Python [str] is a [string] read as Latin-1. *)

Definition ord (a : ascii) : Z := Z.of_N (N_of_ascii a).

(** [chr(n)]; code points past Latin-1 have no [ascii] and are reported
    as [NonLatin1]. *)
Definition chr (n : Z) : result ascii :=
  if (n <? 0) || (1114112 <=? n)
  then Raise (ValueError "chr() arg not in range(0x110000)")
  else if n <? 256 then Return (ascii_of_N (Z.to_N n))
  else Raise NonLatin1.

(** [str.lower] on one Latin-1 character. *)
Definition lower (a : ascii) : ascii :=
  let n := ord a in
  if ((65 <=? n) && (n <=? 90))
     || ((192 <=? n) && (n <=? 222) && negb (n =? 215))
  then ascii_of_N (Z.to_N (n + 32))
  else a.

(** Two lowercase hexadecimal digits, as in the [\xNN] escapes of
    [repr]. *)
Definition hex_digit (n : Z) : ascii :=
  if n <? 10 then ascii_of_N (Z.to_N (48 + n))
  else ascii_of_N (Z.to_N (87 + n)).

Definition quote : ascii := ascii_of_N 39.
Definition dquote : ascii := ascii_of_N 34.
Definition backslash : ascii := ascii_of_N 92.

(** [repr(ch)] for a one-character Latin-1 string: the quote character
    is shown between double quotes; backslash, tab, newline and
    carriage return by their escapes; the other characters that are not
    printable by [\xNN]; every other character as itself. *)
Definition repr_char (a : ascii) : string :=
  let n := ord a in
  if n =? 39 then String dquote (String a (String dquote EmptyString))
  else
    let body :=
      if n =? 92 then String backslash (String backslash EmptyString)
      else if n =? 9 then String backslash "t"
      else if n =? 10 then String backslash "n"
      else if n =? 13 then String backslash "r"
      else if (n <? 32) || (n =? 127)
              || ((128 <=? n) && (n <=? 160)) || (n =? 173)
      then String backslash
             (String "x" (String (hex_digit (n / 16))
                            (String (hex_digit (n mod 16)) EmptyString)))
      else String a EmptyString in
    String quote (String.append body (String quote EmptyString)).

(** [int(ch)] for a one-character string; the message of the
    [ValueError] ends with the [repr] of the string. *)
Definition int_of_char (a : ascii) : result Z :=
  let n := ord a in
  if (48 <=? n) && (n <=? 57) then Return (n - 48)
  else Raise (ValueError (String.append
                            "invalid literal for int() with base 10: "
                            (repr_char a))).

Definition coord_to_pos (s : string) : result pos :=
  match s with
  | EmptyString => Raise IndexError
  | String s0 rest =>
      let col := ord (lower s0) - ord "a" in
      match rest with
      | EmptyString => Raise IndexError
      | String s1 _ =>
          do v <- int_of_char s1;
          let row := v - 1 in
          let r := BOARD_SIZE - 1 - row in
          let c := col in
          Return (r, c)
      end
  end.

Definition pos_to_coord (p : pos) : result string :=
  let '(r, c) := p in
  let row1 := BOARD_SIZE - r in
  do col <- chr (ord "a" + c);
  Return (String col (str_of_Z row1)).

End Engine.

(** ** Board objects in a store

    [Board.clone] makes a new object and [Board.set] writes into the object
    it is called on.  Here a board variable holds an address into a store of
    grids, so that a write through one variable is seen through every alias.
    The two capture searches are written again over the store, statement by
    statement. *)

Module Store.

Definition ref : Type := nat.

Abbreviation heap G := (list G).

Section Objects.
Context {G : Type}.

(** State and failure: the store survives a raised exception. *)
Definition M (A : Type) : Type := heap G -> result A * heap G.

Definition ret {A} (a : A) : M A := fun h => (Return a, h).

Definition fail {A} (e : exn) : M A := fun h => (Raise e, h).

Definition out_of_fuel {A} : M A := fun h => (OutOfFuel, h).

Definition bind {A B} (m : M A) (k : A -> M B) : M B :=
  fun h =>
    match m h with
    | (Return a, h') => k a h'
    | (Raise e, h') => (Raise e, h')
    | (OutOfFuel, h') => (OutOfFuel, h')
    end.

Definition lift {A} (r : result A) : M A := fun h => (r, h).

Definition read (b : ref) : M G :=
  fun h => match h !! b with
           | Some g => (Return g, h)
           | None => (Raise Dangling, h)
           end.

Definition write (b : ref) (g : G) : M unit :=
  fun h => (Return tt, <[b := g]> h).

Definition alloc (g : G) : M ref :=
  fun h => (Return (length h), h ++ [g]).

Fixpoint foldST {A B} (f : A -> B -> M A) (l : list B) (a : A) : M A :=
  match l with
  | [] => ret a
  | x :: l' => bind (f a x) (fun a' => foldST f l' a')
  end.
End Objects.

Arguments M G A : clear implicits.

Declare Scope store_scope.
Delimit Scope store_scope with store.
Notation "'run' x <- m ; k" := (bind m (fun x => k))
  (at level 10, x pattern, m at level 100, k at level 200) : store_scope.
Local Open Scope store_scope.

(** *** [game_logic.py] over the store *)
Module GL.
Import GameLogic.

Definition get (b : ref) (r c : Z) : M Board (option Piece) :=
  run g <- read b; ret (GameLogic.get g r c).

Definition set (b : ref) (r c : Z) (piece : option Piece) : M Board unit :=
  run g <- read b; write b (GameLogic.set g r c piece).

Definition remove (b : ref) (r c : Z) : M Board unit := set b r c None.

Definition clone (b : ref) : M Board ref :=
  run g <- read b; alloc g.

Definition dfs_step
    (rec : Z -> Z -> ref -> list pos -> jumps_t -> M Board (bool * jumps_t))
    (piece : Piece) (sr sc : Z) (board_state : ref) (captured : list pos)
    (acc : bool * jumps_t) (d : Z * Z) : M Board (bool * jumps_t) :=
  let '(found, jumps) := acc in
  let '(dr, dc) := d in
  let mr := sr + dr in let mc := sc + dc in
  let lr := sr + 2 * dr in let lc := sc + 2 * dc in
  if negb (in_bounds mr mc && in_bounds lr lc) then ret (found, jumps)
  else
    run mid <- get board_state mr mc;
    run land <- get board_state lr lc;
    match mid, land with
    | Some m, None =>
        if negb (color_eqb (color m) (color piece)) then
          run new_board <- clone board_state;
          run moving <- get new_board sr sc;
          run _ <- set new_board lr lc moving;
          run _ <- remove new_board sr sc;
          run _ <- remove new_board mr mc;
          let new_captured := captured ++ [(mr, mc)] in
          run r <- rec lr lc new_board new_captured jumps;
          let '(more, jumps) := r in
          let jumps :=
            if negb more then setdefault_append jumps (lr, lc) new_captured
            else jumps in
          ret (true, jumps)
        else ret (found, jumps)
    | _, _ => ret (found, jumps)
    end.

Fixpoint dfs (fuel : nat) (sr sc : Z) (board_state : ref)
    (captured : list pos) (jumps : jumps_t) : M Board (bool * jumps_t) :=
  match fuel with
  | O => out_of_fuel
  | S fuel' =>
      run cell <- get board_state sr sc;
      match cell with
      | None => fail AttributeError
      | Some piece =>
          foldST (dfs_step (dfs fuel') piece sr sc board_state captured)
                 (dirs_of piece) (false, jumps)
      end
  end.

(** The [# Simple moves] loop of [get_valid_moves]. *)
Definition simple_moves (self_board : ref) (r c : Z) (p : Piece)
  : M Board (dict (list pos)) :=
  foldST
    (fun simple '(dr, dc) =>
       let nr := r + dr in let nc := c + dc in
       if in_bounds nr nc then
         run q <- get self_board nr nc;
         if is_none q then ret (dict_set simple (nr, nc) [])
         else ret simple
       else ret simple)
    (dirs_of p) [].

(** [Game.get_valid_moves], with [self.board] at address [self_board]. *)
Definition get_valid_moves (self_board : ref) (r c : Z)
  : M Board (dict (list pos)) :=
  run cell <- get self_board r c;
  match cell with
  | None => ret []
  | Some p =>
      run simple <- simple_moves self_board r c p;
      run snapshot <- clone self_board;
      run res <- dfs search_fuel r c snapshot [] [];
      let jumps := res.2 in
      if negb (is_nil jumps) then
        ret (fold_left
               (fun result '(dest, seqs) => dict_set result dest (best_of seqs))
               jumps [])
      else ret simple
  end.
End GL.

(** *** [checkersEngine.py] over the store *)
Module EN.
Import Engine.

Definition get (b : ref) (r c : Z) : M Board Piece.t :=
  run g <- read b; lift (Engine.get g r c).

Definition set (b : ref) (r c : Z) (val : Piece.t) : M Board unit :=
  run g <- read b;
  run g' <- lift (Engine.set g r c val);
  write b g'.

Definition clone (b : ref) : M Board ref :=
  run g <- read b; alloc g.

Definition dfs_step
    (rec : ref -> Z -> Z -> list pos -> list move -> M Board (list move))
    (owner : option Player.t) (p : Piece.t)
    (board_snapshot : ref) (cur_r cur_c : Z) (path : list pos)
    (acc : bool * list move) (d : Z * Z) : M Board (bool * list move) :=
  let '(moved, results) := acc in
  let '(dr, dc) := d in
  let mid_r := cur_r + dr in
  let mid_c := cur_c + dc in
  let land_r := cur_r + 2 * dr in
  let land_c := cur_c + 2 * dc in
  if negb (in_bounds mid_r mid_c && in_bounds land_r land_c)
  then ret (moved, results)
  else
    run mid_piece <- get board_snapshot mid_r mid_c;
    run land_piece <- get board_snapshot land_r land_c;
    if negb (Piece.eqb land_piece Piece.EMPTY) then ret (moved, results)
    else if is_none (piece_owner mid_piece)
            || owner_eqb (piece_owner mid_piece) owner
    then ret (moved, results)
    else if negb (is_king p)
            && ((owner_eqb owner (Some Player.RED) && (0 <? dr))
                || (owner_eqb owner (Some Player.BLACK) && (dr <? 0)))
    then ret (moved, results)
    else
      run new_snapshot <- clone board_snapshot;
      run _ <- set new_snapshot mid_r mid_c Piece.EMPTY;
      run _ <- set new_snapshot cur_r cur_c Piece.EMPTY;
      run _ <- set new_snapshot land_r land_c p;
      run results <- rec new_snapshot land_r land_c
                         (path ++ [(land_r, land_c)]) results;
      ret (true, results).

Fixpoint dfs (fuel : nat) (owner : option Player.t)
    (board_snapshot : ref) (cur_r cur_c : Z) (path : list pos)
    (results : list move) : M Board (list move) :=
  match fuel with
  | O => out_of_fuel
  | S fuel' =>
      run p <- get board_snapshot cur_r cur_c;
      run acc <- foldST (dfs_step (dfs fuel' owner) owner p
                                  board_snapshot cur_r cur_c path)
                        directions (false, results);
      let '(moved, results) := acc in
      if negb moved then
        if (1 <? length path)%nat then ret (results ++ [path])
        else ret results
      else ret results
  end.

Definition _find_captures_from (self : ref) (r c : Z) : M Board (list move) :=
  run piece <- get self r c;
  if Piece.eqb piece Piece.EMPTY then ret []
  else
    let owner := piece_owner piece in
    run snapshot <- clone self;
    dfs search_fuel owner snapshot r c [(r, c)] [].
End EN.

End Store.

(** ** Python [str] methods used by the network code *)

Module Text.

Definition newline : ascii := "010"%char.

Definition is_newline (a : ascii) : bool := Ascii.eqb a newline.

Definition is_empty (s : string) : bool :=
  match s with EmptyString => true | String _ _ => false end.

(** ['\n' in s] and [s.split('\n', 1)]: the text before the first newline
    and the text after it, if there is a newline. *)
Fixpoint split_once (s : string) : option (string * string) :=
  match s with
  | EmptyString => None
  | String a s' =>
      if is_newline a then Some (EmptyString, s')
      else match split_once s' with
           | Some (line, rest) => Some (String a line, rest)
           | None => None
           end
  end.

(** [s.endswith('\n')] *)
Fixpoint endswith_newline (s : string) : bool :=
  match s with
  | EmptyString => false
  | String a EmptyString => is_newline a
  | String _ s' => endswith_newline s'
  end.

Fixpoint all_chars (f : ascii -> bool) (s : string) : bool :=
  match s with
  | EmptyString => true
  | String a s' => f a && all_chars f s'
  end.


(** [str.isspace] on one Latin-1 character. *)
Definition is_space (a : ascii) : bool :=
  let n := Engine.ord a in
  ((9 <=? n) && (n <=? 13)) || ((28 <=? n) && (n <=? 32))
  || (n =? 133) || (n =? 160).





(** [sep.join(l)] *)
Fixpoint join (sep : string) (l : list string) : string :=
  match l with
  | [] => EmptyString
  | [s] => s
  | s :: l' => (s ++ sep ++ join sep l')%string
  end.



End Text.

(** A list comprehension whose element expression can raise. *)
Fixpoint mapM {A B} (f : A -> result B) (l : list A) : result (list B) :=
  match l with
  | [] => Return []
  | x :: l' => do y <- f x; do ys <- mapM f l'; Return (y :: ys)
  end.

(** A comprehension with a condition that can raise. *)
Fixpoint filterM {A} (f : A -> result bool) (l : list A) : result (list A) :=
  match l with
  | [] => Return []
  | x :: l' =>
      do keep <- f x; do rest <- filterM f l';
      Return (if keep then x :: rest else rest)
  end.

(** [Board.render] of [checkersEngine.py]. *)
Definition render (self : Engine.Board) : result string :=
  do lines <-
    foldM
      (fun (lines : list string) r =>
         do row <-
           foldM
             (fun (row : list string) c =>
                do p <- Engine.get self r c;
                let char :=
                  match p with
                  | Engine.Piece.EMPTY =>
                      if Engine.is_dark_square r c then "." else " "
                  | Engine.Piece.RED => "r"
                  | Engine.Piece.RED_KING => "R"
                  | Engine.Piece.BLACK => "b"
                  | Engine.Piece.BLACK_KING => "B"
                  end%string in
                Return (row ++ [char]))
             range8 [];
         Return (lines ++ [Text.join " " row]))
      range8 [];
  Return ".join(lines)"%string.

(** ** [src/networkTCP.py]: lines over a byte stream

    The sockets and threads are left out; what is kept is what
    [TCPConnection] does with the bytes: [send] ends a message with a
    newline, [_recv_loop] cuts the bytes it receives into lines. *)

Module Net.
Import Text.

Definition BUFFER_SIZE : Z := 4096.

(** A byte below 128 is one character in UTF-8 and the same character
    after decoding. *)
Definition is_ascii (s : string) : bool := all_chars (fun a => Engine.ord a <? 128) s.

(** [data.decode('utf-8', errors='replace')].  A byte from 128 on belongs
    to a sequence of several bytes, or is replaced by U+FFFD; the model
    does not follow either and reports [NonLatin1]. *)
Definition decode (data : string) : result string :=
  if is_ascii data then Return data else Raise NonLatin1.

(** [msg.encode('utf-8')], with the same limit. *)
Definition encode (msg : string) : result string :=
  if is_ascii msg then Return msg else Raise NonLatin1.

(** [while '\n' in buffer: line, buffer = buffer.split('\n', 1); if line:
    self.on_message(line)].  Each turn of the loop shortens the buffer, so
    a budget above its length is never used up.  The callback puts the
    line in a queue; an exception it raises is swallowed. *)
Fixpoint drain (fuel : nat) (buffer : string) (delivered : list string)
  : result (list string * string) :=
  match fuel with
  | O => OutOfFuel
  | S fuel' =>
      match split_once buffer with
      | None => Return (delivered, buffer)
      | Some (line, buffer') =>
          drain fuel' buffer'
                (if is_empty line then delivered else delivered ++ [line])
      end
  end.

(** [TCPConnection._recv_loop], given what the successive [recv] calls
    return; an empty result of [recv] ends the loop.  The result is the
    lines handed to [on_message] and the buffer left. *)
Fixpoint _recv_loop (chunks : list string) (buffer : string) (delivered : list string)
  : result (list string * string) :=
  match chunks with
  | [] => Return (delivered, buffer)
  | data :: chunks' =>
      if is_empty data then Return (delivered, buffer)
      else
        do text <- decode data;
        let buffer := (buffer ++ text)%string in
        do r <- drain (S (String.length buffer)) buffer delivered;
        _recv_loop chunks' r.2 r.1
  end.

(** [TCPConnection.send]: the bytes given to [sendall]. *)
Definition send (msg : string) : result string :=
  let msg := if negb (endswith_newline msg) then (msg ++ String newline "")%string
             else msg in
  encode msg.

(** Successive [send] calls on one connection: the bytes given to
    [sendall], in order. *)
Definition send_all (msgs : list string) : result string :=
  foldM (fun wire msg => do bytes <- send msg; Return (wire ++ bytes)%string)
        msgs EmptyString.

End Net.

(** ** [src/checkersGUINetworked.py]: the state of [NetworkedCheckersApp]

    Drawing and printing leave no trace in the state and are left out, as
    are [host] and [connect], which open the sockets.  [self.board] is
    a [Board]; the module imports [Board], [Player], [pos_to_coord] and
    [coord_to_pos] from the engine and none of its module functions. *)

Module NetGUI.
Import Engine Text.

Definition CELL : Z := 70.

(** The object behind [tcp_conn_interface], a [TCPServer] or a
    [TCPClient]: whether its [_connection] is set, and the byte strings
    given to [sendall] so far. *)
Record Link : Type := mkLink { up : bool; wire : list string }.

Record App : Type := mkApp {
  board : Board;
  current_player : Player.t;
  local_side : option Player.t;
  tcp_conn_interface : option Link;
  selected : option pos;
  valid_moves_cache : list move;
  turn_label : string
}.

Definition pos_to_alg (p : pos) : result string := pos_to_coord p.


Definition player_name (p : Player.t) : string :=
  match p with Player.RED => "RED" | Player.BLACK => "BLACK" end.

(** [Player.RED if self.current_player == Player.BLACK else Player.BLACK] *)
Definition next_player (p : Player.t) : Player.t :=
  if Player.eqb p Player.BLACK then Player.RED else Player.BLACK.

Definition reset_board (app : App) : App :=
  {| board := setup_initial; current_player := Player.RED;
     local_side := local_side app; tcp_conn_interface := tcp_conn_interface app;
     selected := None; valid_moves_cache := []; turn_label := "Turn: RED" |}.

(** [TCPServer.send] and [TCPClient.send]: without a connection the
    message is dropped. *)
Definition link_send (l : Link) (msg : string) : result Link :=
  if up l then
    do bytes <- Net.send msg;
    Return {| up := up l; wire := wire l ++ [bytes] |}
  else Return l.

Definition send_move_over_network (link : option Link) (move_positions : move)
  : result (option Link) :=
  match link with
  | None => Return None
  | Some l =>
      do names <- mapM pos_to_alg move_positions;
      let seq := join "-" names in
      do l' <- link_send l ("MOVE " ++ seq)%string;
      Return (Some l')
  end.

(** The state after a move has been applied: turn flipped, label updated,
    selection and cache cleared. *)
Definition after_move (app : App) (b : Board) (link : option Link) : App :=
  let player := next_player (current_player app) in
  {| board := b; current_player := player;
     local_side := local_side app; tcp_conn_interface := link;
     selected := None; valid_moves_cache := [];
     turn_label := ("Turn: " ++ player_name player)%string |}.

Definition with_board (app : App) (b : Board) : App :=
  {| board := b; current_player := current_player app;
     local_side := local_side app; tcp_conn_interface := tcp_conn_interface app;
     selected := selected app; valid_moves_cache := valid_moves_cache app;
     turn_label := turn_label app |}.

Definition with_selection (app : App) (sel : option pos) (cache : list move) : App :=
  {| board := board app; current_player := current_player app;
     local_side := local_side app; tcp_conn_interface := tcp_conn_interface app;
     selected := sel; valid_moves_cache := cache;
     turn_label := turn_label app |}.

(** [self.board.apply_move(m)] and [self.board.legal_moves(p)]: the
    attribute is looked up on the [Board], which defines neither, so the
    lookup raises and the board is left as it was. *)
Definition board_apply_move (b : Board) (m : move) : result unit * Board :=
  (no_attribute, b).

Definition board_legal_moves (b : Board) (player : Player.t)
  : result (list move) :=
  no_attribute.



Definition select_square (app : App) (p : pos) : result unit * App :=
  let app1 := with_selection app (Some p) (valid_moves_cache app) in
  match board_legal_moves (board app) (current_player app) with
  | Return all_moves =>
      match filterM (fun m : move => do m0 <- py_index m 0; Return (pos_eqb m0 p))
                    all_moves with
      | Return cache =>
          if is_nil cache then (Return tt, with_selection app None cache)
          else (Return tt, with_selection app (Some p) cache)
      | Raise e => (Raise e, app1)
      | OutOfFuel => (OutOfFuel, app1)
      end
  | Raise e => (Raise e, app1)
  | OutOfFuel => (OutOfFuel, app1)
  end.

(** [for m in self.valid_moves_cache: if m[0] == self.selected and
    m[-1] == pos]: the first move that matches. *)
Fixpoint find_move (cache : list move) (sel p : pos) : result (option move) :=
  match cache with
  | [] => Return None
  | m :: cache' =>
      do m0 <- py_index m 0;
      if pos_eqb m0 sel then
        do ml <- py_index m (-1);
        if pos_eqb ml p then Return (Some m) else find_move cache' sel p
      else find_move cache' sel p
  end.

Definition on_click (app : App) (x y : Z) : result unit * App :=
  let col := x / CELL in
  let row := y / CELL in
  if negb ((0 <=? row) && (row <? BOARD_SIZE) && (0 <=? col) && (col <? BOARD_SIZE))
  then (Return tt, app)
  else
    let p := (row, col) in
    if match local_side app with
       | Some side => negb (Player.eqb side (current_player app))
       | None => false
       end
    then (Return tt, app)
    else
      match get (board app) row col with
      | Raise e => (Raise e, app)
      | OutOfFuel => (OutOfFuel, app)
      | Return piece =>
          let owner := piece_owner piece in
          match selected app with
          | Some sel =>
              match find_move (valid_moves_cache app) sel p with
              | Raise e => (Raise e, app)
              | OutOfFuel => (OutOfFuel, app)
              | Return (Some m) =>
                  match board_apply_move (board app) m with
                  | (Return _, b) =>
                      match send_move_over_network (tcp_conn_interface app) m with
                      | Return link => (Return tt, after_move app b link)
                      | Raise e => (Raise e, with_board app b)
                      | OutOfFuel => (OutOfFuel, with_board app b)
                      end
                  | (Raise e, b) => (Raise e, with_board app b)
                  | (OutOfFuel, b) => (OutOfFuel, with_board app b)
                  end
              | Return None =>
                  if owner_eqb owner (Some (current_player app))
                  then select_square app p
                  else (Return tt, with_selection app None [])
              end
          | None =>
              if owner_eqb owner (Some (current_player app))
              then select_square app p
              else (Return tt, app)
          end
      end.

End NetGUI.

(** ** Boards for examples *)

Module Boards.

Definition gl_empty : GameLogic.Board := repeat (repeat None 8) 8.

(** An otherwise empty [game_logic] board with the listed pieces. *)
Definition gl_board (l : list (pos * GameLogic.Piece)) : GameLogic.Board :=
  fold_left (fun b '((r, c), p) => GameLogic.set b r c (Some p)) l gl_empty.

Definition en_empty : Engine.Board := repeat (repeat Engine.Piece.EMPTY 8) 8.

(** An otherwise empty engine board with the listed pieces. *)
Definition en_board (l : list (pos * Engine.Piece.t)) : Engine.Board :=
  fold_left
    (fun b '((r, c), p) =>
       match Engine.set b r c p with Return b' => b' | _ => b end)
    l en_empty.

Definition red_man := GameLogic.mkPiece GameLogic.RED false.
Definition red_king := GameLogic.mkPiece GameLogic.RED true.
Definition black_man := GameLogic.mkPiece GameLogic.BLACK false.

Definition red_to_move (b : GameLogic.Board) : GameLogic.Game :=
  {| GameLogic.board := b; GameLogic.turn := GameLogic.RED;
     GameLogic.winner := None |}.

(** A Red man on (2,3) that can capture (3,4), and a Red man on (0,1) that
    can only step. *)
Definition capture_and_step : GameLogic.Board :=
  gl_board [((2, 3), red_man); ((3, 4), black_man); ((0, 1), red_man)].

(** A Red man on (5,2) that captures (6,3), lands on (7,4), is crowned and
    can then capture (6,5); a second Red man waits on (0,1). *)
Definition crowning_capture : GameLogic.Game :=
  red_to_move
    (gl_board [((5, 2), red_man); ((6, 3), black_man);
               ((6, 5), black_man); ((0, 1), red_man)]).

(** A Red man on (2,3) with one capture to the left, ending on (4,1), and
    two in a row to the right, ending on (6,7). *)
Definition short_and_long : GameLogic.Board :=
  gl_board [((2, 3), red_man); ((3, 2), black_man);
            ((3, 4), black_man); ((5, 6), black_man)].

(** A Red king on (1,2) inside a diamond of four Black men: four captures
    bring it back to (1,2). *)
Definition round_trip : GameLogic.Board :=
  gl_board [((1, 2), red_king); ((2, 1), black_man); ((2, 3), black_man);
            ((4, 1), black_man); ((4, 3), black_man)].



(** Engine board: a Red man on (5,2) with one capture to the left and two
    in a row to the right. *)
Definition en_short_and_long : Engine.Board :=
  en_board
    [((5, 2), Engine.Piece.RED); ((4, 1), Engine.Piece.BLACK);
     ((4, 3), Engine.Piece.BLACK); ((2, 5), Engine.Piece.BLACK)].


End Boards.

(** ** Vocabulary of the properties *)

Definition gl_has_color (clr : GameLogic.Color) (o : option GameLogic.Piece) : bool :=
  match o with
  | Some p => GameLogic.color_eqb (GameLogic.color p) clr
  | None => false
  end.

(** Number of pieces of one colour on a [game_logic] board. *)
Definition gl_count (clr : GameLogic.Color) (b : GameLogic.Board) : nat :=
  length (List.filter (fun q : pos => gl_has_color clr (GameLogic.get b q.1 q.2)) squares).

Definition en_has_owner (pl : Engine.Player.t) (r : result Engine.Piece.t) : bool :=
  match r with
  | Return p => Engine.owner_eqb (Engine.piece_owner p) (Some pl)
  | _ => false
  end.

(** Number of pieces of one player on an engine board. *)
Definition en_count (pl : Engine.Player.t) (b : Engine.Board) : nat :=
  length (List.filter (fun q : pos => en_has_owner pl (Engine.get b q.1 q.2)) squares).

(** One if the cell holds a piece of the colour, zero otherwise. *)
Definition gl_ind (clr : GameLogic.Color) (o : option GameLogic.Piece) : nat :=
  if gl_has_color clr o then 1%nat else 0%nat.

(** One if the piece belongs to the player, zero otherwise. *)
Definition en_ind (pl : Engine.Player.t) (p : Engine.Piece.t) : nat :=
  if Engine.owner_eqb (Engine.piece_owner p) (Some pl) then 1%nat else 0%nat.

Definition en_other (pl : Engine.Player.t) : Engine.Player.t :=
  match pl with
  | Engine.Player.RED => Engine.Player.BLACK
  | Engine.Player.BLACK => Engine.Player.RED
  end.

(** The three reasons for which [move_piece] refuses a move. *)
Inductive rejected (g : GameLogic.Game) (start end_ : pos) : Prop :=
| empty_origin :
    GameLogic.get (GameLogic.board g) start.1 start.2 = None ->
    rejected g start end_
| wrong_side p :
    GameLogic.get (GameLogic.board g) start.1 start.2 = Some p ->
    GameLogic.color p <> GameLogic.turn g ->
    rejected g start end_
| bad_destination valid :
    GameLogic.get_valid_moves (GameLogic.board g) start.1 start.2 = Return valid ->
    dict_get valid end_ = None ->
    rejected g start end_.

(** The dictionary [jumps] of [dfs]: keys are distinct and no key has an
    empty list of sequences. *)
Definition jumps_ok {X} (d : dict (list X)) : Prop :=
  List.NoDup (dict_keys d) /\ forall k xs, In (k, xs) d -> xs <> [].

(** A piece has no identity but its square: the piece standing on [q] after
    a move from [start] to [end_] stood on [start] if [q] is [end_], and on
    [q] otherwise. *)
Definition came_from (start end_ q : pos) : pos :=
  if pos_eqb q end_ then start else q.

(** A sequence of [move_piece] calls, each from a start to an end square. *)
Fixpoint gl_play (g : GameLogic.Game) (calls : list (pos * pos)) : GameLogic.Game :=
  match calls with
  | [] => g
  | (s, e) :: calls' => gl_play (GameLogic.move_piece g s e).2 calls'
  end.

Definition gl_applied (r : result (bool * GameLogic.move_info)) : bool :=
  match r with Return (true, _) => true | _ => false end.

(** The square on which the piece found on [q] after the calls stood before
    them; a refused call moves nothing. *)
Fixpoint gl_origin (g : GameLogic.Game) (calls : list (pos * pos)) (q : pos) : pos :=
  match calls with
  | [] => q
  | (s, e) :: calls' =>
      let '(res, g') := GameLogic.move_piece g s e in
      let q' := gl_origin g' calls' q in
      if gl_applied res then came_from s e q' else q'
  end.

(** What [Engine.get] and [Engine.set] come to on a board of eight rows of
    eight: an index from -8 to 7 is accepted, and names the cell
    [en_cell] reads and [en_upd] writes. *)
Definition valid8 (i : Z) : bool := (-8 <=? i) && (i <? 8).

Definition en_cell (b : Engine.Board) (r c : nat) : Engine.Piece.t :=
  match b !! r with
  | Some row => match row !! c with Some x => x | None => Engine.Piece.EMPTY end
  | None => Engine.Piece.EMPTY
  end.

Definition en_upd (b : Engine.Board) (r c : nat) (v : Engine.Piece.t) : Engine.Board :=
  alter (fun row => <[c := v]> row) r b.

(** A board obtained by emptying squares: each cell is as before or empty. *)
Definition only_emptied (b b' : Engine.Board) : Prop :=
  forall i j,
    en_cell b' i j = en_cell b i j \/ en_cell b' i j = Engine.Piece.EMPTY.

(** The snapshot [dfs] builds for a jump from [(cur_r, cur_c)] in direction
    [(dr, dc)]: the captured square and the current square emptied, the
    piece [p] on the landing square. *)
Definition jump_board (b : Engine.Board) (cur_r cur_c dr dc : Z)
    (p : Engine.Piece.t) : Engine.Board :=
  en_upd
    (en_upd
       (en_upd b (Z.to_nat (cur_r + dr)) (Z.to_nat (cur_c + dc)) Engine.Piece.EMPTY)
       (Z.to_nat cur_r) (Z.to_nat cur_c) Engine.Piece.EMPTY)
    (Z.to_nat (cur_r + 2 * dr)) (Z.to_nat (cur_c + 2 * dc)) p.

(** [apply_move] holds the moving piece in hand while it replays the hops.
    The hops [suffix] found by the search from snapshot [b] at [cur] replay
    on any board [B] that is [b] with the square [cur] emptied: they end on
    an empty square, keep the mover's count and take one opposing piece per
    hop. *)
Definition replays (b : Engine.Board) (cur : pos) (pl : Engine.Player.t)
    (suffix : list pos) : Prop :=
  forall B : Engine.Board,
    Engine.wf_board B ->
    (forall i j,
        en_cell B i j
        = en_cell (en_upd b (Z.to_nat cur.1) (Z.to_nat cur.2) Engine.Piece.EMPTY) i j) ->
    exists fin (B' : Engine.Board),
      Engine.apply_hops B cur suffix = (Return fin, B') /\
      Engine.wf_board B' /\
      (0 <= fin.1 < 8 /\ 0 <= fin.2 < 8) /\
      en_cell B' (Z.to_nat fin.1) (Z.to_nat fin.2) = Engine.Piece.EMPTY /\
      en_count pl B' = en_count pl B /\
      (en_count (en_other pl) B' + length suffix
       = en_count (en_other pl) B)%nat.

(** An index of a board of eight rows or columns, as Python reads it. *)
Definition norm8 (i : Z) : Z := if i <? 0 then i + 8 else i.

Definition norm_pos (p : pos) : pos := (norm8 p.1, norm8 p.2).

Definition en_is_man (p : Engine.Piece.t) : bool :=
  match p with Engine.Piece.RED | Engine.Piece.BLACK => true | _ => false end.

(** A sequence of [apply_move] calls; the board keeps what a failing call
    wrote before it failed. *)
Fixpoint en_play (b : Engine.Board) (calls : list Engine.move) : Engine.Board :=
  match calls with
  | [] => b
  | m :: calls' => en_play (Engine.apply_move b m).2 calls'
  end.

Definition en_came_from (m : Engine.move) (q : pos) : pos :=
  match m with
  | [] => q
  | src :: hops => came_from (norm_pos src) (norm_pos (List.last hops src)) q
  end.

Fixpoint en_origin (b : Engine.Board) (calls : list Engine.move) (q : pos) : pos :=
  match calls with
  | [] => q
  | m :: calls' =>
      let '(res, b') := Engine.apply_move b m in
      let q' := en_origin b' calls' q in
      match res with Return _ => en_came_from m q' | _ => q' end
  end.

(** A sequence of squares is a capture when its first hop spans two rows
    and two columns, the test [apply_move] makes. *)
Definition is_capture (m : Engine.move) : bool :=
  match m with
  | a :: b :: _ => (Z.abs (b.1 - a.1) =? 2) && (Z.abs (b.2 - a.2) =? 2)
  | _ => false
  end.

(** A quiet move is a start square and one landing square beside it. *)
Definition is_step (m : Engine.move) : Prop :=
  exists r c dr dc,
    m = [(r, c); (r + dr, c + dc)] /\ (dr = 1 \/ dr = -1) /\ (dc = 1 \/ dc = -1).

(** A capture sequence extends the path the search was entered with by a
    landing square two rows and two columns from the current square. *)
Definition extends_by_jump (path : list pos) (cur_r cur_c : Z) (m : Engine.move) : Prop :=
  exists dr dc rest,
    (dr = 1 \/ dr = -1) /\ (dc = 1 \/ dc = -1) /\
    m = path ++ (cur_r + 2 * dr, cur_c + 2 * dc) :: rest.

(** A man moves toward the far row, Red to smaller rows and Black to larger
    ones; a king moves either way.  [d] is the change of row. *)
Definition en_forward (p : Engine.Piece.t) (d : Z) : bool :=
  match p with
  | Engine.Piece.RED => d <? 0
  | Engine.Piece.BLACK => 0 <? d
  | _ => true
  end.

(** The squares [rest] visited from [cur]: each one on the board, [step]
    rows and [step] columns from the one before, in a direction open to the
    piece [p]. *)
Fixpoint hops_ok (step : Z) (p : Engine.Piece.t) (cur : pos) (rest : list pos) : bool :=
  match rest with
  | [] => true
  | q :: rest' =>
      Engine.in_bounds q.1 q.2
      && (Z.abs (q.1 - cur.1) =? step) && (Z.abs (q.2 - cur.2) =? step)
      && en_forward p (q.1 - cur.1)
      && hops_ok step p q rest'
  end.

(** What a search has added to the dictionary [jumps]: every sequence of
    [jumps'] was in [jumps] under the same key, or satisfies [Q]. *)
Definition jumps_added {X} (jumps jumps' : dict (list X)) (Q : pos -> X -> Prop) : Prop :=
  forall dest seqs' seq,
    In (dest, seqs') jumps' -> In seq seqs' ->
    (exists seqs, In (dest, seqs) jumps /\ In seq seqs) \/ Q dest seq.

(** A capture offered for the piece on [cur]: the list [caps] of captured
    squares is not empty and has no square twice, each of its squares is on
    the board, an odd number of rows from [cur], and holds a piece of the
    other colour; the destination is on the board, an even number of rows
    from [cur], and empty unless it is [cur] itself. *)
Definition gl_captures_ok (b : GameLogic.Board) (cur : pos) (piece : GameLogic.Piece)
    (dest : pos) (caps : list pos) : Prop :=
  caps <> [] /\
  GameLogic.in_bounds dest.1 dest.2 = true /\
  (dest.1 - cur.1) mod 2 = 0 /\
  (GameLogic.get b dest.1 dest.2 = None \/ dest = cur) /\
  List.NoDup caps /\
  Forall (fun q : pos =>
            GameLogic.in_bounds q.1 q.2 = true /\
            (q.1 - cur.1) mod 2 = 1 /\
            exists m, GameLogic.get b q.1 q.2 = Some m /\
                      GameLogic.color m <> GameLogic.color piece) caps.

(** A simple move offered for the piece on [cur]: an empty square of the
    board, one step away in a direction of the piece. *)
Definition gl_simple_target (b : GameLogic.Board) (cur : pos) (piece : GameLogic.Piece)
    (dest : pos) : Prop :=
  GameLogic.in_bounds dest.1 dest.2 = true /\
  GameLogic.get b dest.1 dest.2 = None /\
  exists dr dc, In (dr, dc) (GameLogic.dirs_of piece) /\
                dest = (cur.1 + dr, cur.2 + dc).

(** The piece [move_piece] leaves on the end square: [p] after the
    [# Kinging] block, for an end square on row [er]. *)
Definition gl_crowned (p : GameLogic.Piece) (er : Z) : GameLogic.Piece :=
  if negb (GameLogic.king p) then
    match GameLogic.color p with
    | GameLogic.RED => if er =? 7 then GameLogic.make_king p else p
    | GameLogic.BLACK => if er =? 0 then GameLogic.make_king p else p
    end
  else p.

(** The body of the loop of [get_all_moves]. *)
Definition gl_all_moves_step (b : GameLogic.Board) (clr : GameLogic.Color)
    (moves : dict (dict (list pos))) (q : pos) : result (dict (dict (list pos))) :=
  let '(r, c) := q in
  match GameLogic.get b r c with
  | Some p =>
      if GameLogic.color_eqb (GameLogic.color p) clr then
        do legal <- GameLogic.get_valid_moves b r c;
        if negb (is_nil legal) then Return (dict_set moves (r, c) legal)
        else Return moves
      else Return moves
  | None => Return moves
  end.

(** A sequence of clicks on the canvas, each at pixel [(x, y)].  Tk reports
    an exception raised by a callback and goes on with the state the
    callback left. *)
Fixpoint ui_clicks (ui : UI.CheckersUI) (clicks : list (Z * Z)) : UI.CheckersUI :=
  match clicks with
  | [] => ui
  | (x, y) :: rest => ui_clicks (UI.on_click ui x y).2 rest
  end.

(** The window with the game [Boards.crowning_capture] and the Red man on
    (5,2) selected. *)
Definition ui_ready_to_capture : UI.CheckersUI :=
  {| UI.game := Boards.crowning_capture; UI.selected := Some (5, 2);
     UI.must_continue := false; UI.continue_pos := None;
     UI.turn_label := "Turn: RED"; UI.move_listbox := []; UI.status := "" |}.

(** A character of a square's name: not the separator of the wire format,
    not white space, not a newline, and one byte in UTF-8. *)
Definition name_char (a : ascii) : bool :=
  negb (Ascii.eqb a "-") && negb (Text.is_space a)
  && (Engine.ord a <? 128) && negb (Text.is_newline a).

Definition no_newline (s : string) : bool :=
  Text.all_chars (fun a => negb (Text.is_newline a)) s.

(** The inner loop of [_recv_loop] with a budget that is enough. *)
Definition drain_all (s : string) (delivered : list string)
  : result (list string * string) :=
  Net.drain (S (String.length s)) s delivered.

(** The bytes of a list of chunks, in order. *)
Fixpoint concat_all (l : list string) : string :=
  match l with
  | [] => EmptyString
  | s :: l' => (s ++ concat_all l')%string
  end.

(** Messages on the wire, each ended by a newline. *)
Definition framed (msgs : list string) : string :=
  concat_all (map (fun m => (m ++ String Text.newline EmptyString)%string) msgs).

(** The host's window at the start of a game, connected, and the guest's
    window. *)
Definition net_host_ready : NetGUI.App :=
  {| NetGUI.board := Engine.setup_initial;
     NetGUI.current_player := Engine.Player.RED;
     NetGUI.local_side := Some Engine.Player.RED;
     NetGUI.tcp_conn_interface := Some (NetGUI.mkLink true []);
     NetGUI.selected := None;
     NetGUI.valid_moves_cache := [];
     NetGUI.turn_label := "Turn: RED" |}.





(** * Properties *)

(** ** Generic facts: results, loops, dictionaries *)

Lemma rbind_Return {A B} (m : result A) (k : A -> result B) (b : B) :
  rbind m k = Return b -> exists a, m = Return a /\ k a = Return b.
Proof. destruct m; simpl; intros H; try discriminate. eauto. Qed.

Lemma pos_eqb_eq (a b : pos) : pos_eqb a b = true <-> a = b.
Proof.
  destruct a as [a1 a2], b as [b1 b2]. unfold pos_eqb. simpl.
  rewrite andb_true_iff, !Z.eqb_eq. split.
  - intros [-> ->]. reflexivity.
  - intros H. inversion H. auto.
Qed.

Lemma pos_eqb_refl (a : pos) : pos_eqb a a = true.
Proof. apply pos_eqb_eq. reflexivity. Qed.

Lemma pos_eqb_neq (a b : pos) : pos_eqb a b = false <-> a <> b.
Proof.
  rewrite <- pos_eqb_eq. destruct (pos_eqb a b); split; congruence.
Qed.

(** An invariant kept by every iteration holds after the loop. *)
Lemma foldM_inv_In {A B} (P : A -> Prop) (f : A -> B -> result A) l :
  (forall a x a', In x l -> P a -> f a x = Return a' -> P a') ->
  forall a a', P a -> foldM f l a = Return a' -> P a'.
Proof.
  induction l as [|x l IH]; simpl; intros Hstep a a' Ha H.
  - inversion H. subst. exact Ha.
  - apply rbind_Return in H as (a1 & H1 & H2).
    apply (IH (fun a0 y a0' Hy => Hstep a0 y a0' (or_intror Hy)) a1 a'); eauto.
Qed.

Lemma foldM_inv {A B} (P : A -> Prop) (f : A -> B -> result A) l :
  (forall a x a', P a -> f a x = Return a' -> P a') ->
  forall a a', P a -> foldM f l a = Return a' -> P a'.
Proof. intros Hstep. apply foldM_inv_In. eauto. Qed.

Lemma dict_get_existsb {V} (d : dict V) (f : V -> bool) k v :
  dict_get d k = Some v -> f v = true -> existsb f (dict_values d) = true.
Proof.
  induction d as [|[k' v'] d IH]; simpl; intros Hg Hf; [discriminate|].
  destruct (pos_eqb k' k).
  - inversion Hg. subst. rewrite Hf. reflexivity.
  - rewrite (IH Hg Hf). apply orb_true_r.
Qed.

Lemma dict_get_set_same {V} (d : dict V) k v :
  dict_get (dict_set d k v) k = Some v.
Proof.
  induction d as [|[k' v'] d IH]; simpl.
  - rewrite pos_eqb_refl. reflexivity.
  - destruct (pos_eqb k' k) eqn:E; simpl; rewrite E; auto.
Qed.

Lemma dict_get_set_other {V} (d : dict V) k k' v :
  k <> k' -> dict_get (dict_set d k v) k' = dict_get d k'.
Proof.
  intros Hne. induction d as [|[k0 v0] d IH]; simpl.
  - apply pos_eqb_neq in Hne. rewrite Hne. reflexivity.
  - destruct (pos_eqb k0 k) eqn:E; simpl.
    + apply pos_eqb_eq in E. subst k0.
      apply pos_eqb_neq in Hne. rewrite Hne. reflexivity.
    + rewrite IH. reflexivity.
Qed.

Lemma max_by_len_spec {X} (seqs : list (list X)) (best : list X) :
  let m := max_by_len best seqs in
  In m (best :: seqs) /\ forall s, In s (best :: seqs) -> (length s <= length m)%nat.
Proof.
  revert best. induction seqs as [|s seqs IH]; intros best; simpl.
  - split; [auto|]. intros s [<-|[]]. lia.
  - destruct (Nat.ltb_spec (length best) (length s)) as [Hlt|Hge].
    + destruct (IH s) as [Hin Hmax]. simpl in Hin, Hmax. split.
      * destruct Hin as [Hin|Hin]; auto.
      * intros s' [<-|[<-|Hs']].
        -- specialize (Hmax s (or_introl eq_refl)). lia.
        -- apply Hmax. auto.
        -- apply Hmax. auto.
    + destruct (IH best) as [Hin Hmax]. simpl in Hin, Hmax. split.
      * destruct Hin as [Hin|Hin]; auto.
      * intros s' [<-|[<-|Hs']].
        -- apply Hmax. auto.
        -- specialize (Hmax best (or_introl eq_refl)). lia.
        -- apply Hmax. auto.
Qed.

(** ** The [game_logic] board *)


(** ** The [game_logic] board *)

Section GameLogicFacts.
Import GameLogic.

Lemma gl_in_bounds_spec r c :
  in_bounds r c = true <-> 0 <= r < 8 /\ 0 <= c < 8.
Proof. unfold in_bounds. rewrite !andb_true_iff. lia. Qed.

Lemma gl_get_out r c (b : Board) : in_bounds r c = false -> get b r c = None.
Proof. unfold get. intros ->. reflexivity. Qed.

Lemma gl_get_in_bounds (b : Board) r c p :
  get b r c = Some p -> in_bounds r c = true.
Proof. unfold get. destruct (in_bounds r c); [reflexivity|discriminate]. Qed.

Lemma gl_wf_set (b : Board) r c v : wf_board b -> wf_board (set b r c v).
Proof.
  intros [Hlen Hrows]. unfold set. destruct (in_bounds r c); [|split; auto].
  split.
  - rewrite length_alter. exact Hlen.
  - rewrite Forall_lookup in Hrows. apply Forall_lookup. intros i row Hi.
    destruct (decide (i = Z.to_nat r)) as [->|Hne].
    + rewrite list_lookup_alter_eq in Hi.
      destruct (b !! Z.to_nat r) as [row0|] eqn:E; simpl in Hi; [|discriminate].
      inversion Hi. subst row. rewrite length_insert. eauto.
    + rewrite list_lookup_alter_ne in Hi by auto. eauto.
Qed.

Lemma gl_get_set_same (b : Board) r c v :
  wf_board b -> in_bounds r c = true -> get (set b r c v) r c = v.
Proof.
  intros [Hlen Hrows] Hin. unfold get, set. rewrite Hin.
  apply gl_in_bounds_spec in Hin.
  rewrite list_lookup_alter_eq.
  destruct (lookup_lt_is_Some_2 b (Z.to_nat r)) as [row Hrow]; [lia|].
  rewrite Hrow. simpl.
  rewrite Forall_lookup in Hrows. specialize (Hrows _ _ Hrow).
  rewrite list_lookup_insert_eq by lia. reflexivity.
Qed.

Lemma gl_get_set_other (b : Board) r c v r' c' :
  (r, c) <> (r', c') -> get (set b r c v) r' c' = get b r' c'.
Proof.
  intros Hne. unfold get, set.
  destruct (in_bounds r' c') eqn:Hin'; [|reflexivity].
  destruct (in_bounds r c) eqn:Hin; [|reflexivity].
  apply gl_in_bounds_spec in Hin, Hin'.
  destruct (decide (Z.to_nat r = Z.to_nat r')) as [Heq|Hr].
  - assert (r = r') by lia. subst r'.
    rewrite list_lookup_alter_eq.
    destruct (b !! Z.to_nat r) as [row|]; simpl; [|reflexivity].
    rewrite list_lookup_insert_ne; [reflexivity|].
    intros Hc. apply Hne. f_equal. lia.
  - rewrite list_lookup_alter_ne by auto. reflexivity.
Qed.

(** Reading a written board: the value written, or what was there. *)
Lemma gl_get_set (b : Board) r c v r' c' :
  get (set b r c v) r' c' = get b r' c' \/
  ((r', c') = (r, c) /\ get (set b r c v) r' c' = v /\ in_bounds r c = true).
Proof.
  destruct (decide ((r, c) = (r', c'))) as [Heq|Hne].
  - inversion Heq. subst r' c'.
    destruct (in_bounds r c) eqn:Hin.
    + unfold get, set. rewrite Hin.
      rewrite list_lookup_alter_eq.
      destruct (b !! Z.to_nat r) as [row|] eqn:Hrow; simpl; [|left; reflexivity].
      destruct (decide (Z.to_nat c < length row)%nat) as [Hlt|Hge].
      * right. rewrite list_lookup_insert_eq by exact Hlt. auto.
      * left. rewrite list_insert_ge by lia. reflexivity.
    + left. unfold set. rewrite Hin. reflexivity.
  - left. apply gl_get_set_other. exact Hne.
Qed.

Lemma gl_wf_remove_all (b : Board) captured :
  wf_board b -> wf_board (remove_all b captured).
Proof.
  unfold remove_all. revert b.
  induction captured as [|[cr cc] l IH]; simpl; intros b Hb; [exact Hb|].
  apply IH. apply gl_wf_set. exact Hb.
Qed.

Lemma gl_wf_crown_at (b : Board) er ec p :
  wf_board b -> wf_board (crown_at b er ec p).
Proof.
  intros Hb. unfold crown_at. destruct (get b er ec); [apply gl_wf_set|]; exact Hb.
Qed.

Lemma gl_wf_empty : wf_board Boards.gl_empty.
Proof. split; [reflexivity|]. repeat constructor. Qed.

Lemma gl_wf_board_of l : wf_board (Boards.gl_board l).
Proof.
  unfold Boards.gl_board. generalize gl_wf_empty. generalize Boards.gl_empty.
  induction l as [|[[r c] p] l IH]; simpl; intros b Hb; [exact Hb|].
  apply IH. apply gl_wf_set. exact Hb.
Qed.

End GameLogicFacts.

(** ** [move_piece]: refusals, continuation *)

Section MovePiece.
Import GameLogic.

(** C10. When [move_piece] refuses a move (no piece on the origin, a piece
    of the side that is not to move, or a destination that is not among
    [get_valid_moves] of the origin) it returns a failure, and the game it
    leaves (board, turn and winner) is the game it was given. *)
Theorem move_piece_refusal_is_atomic g start end_ :
  rejected g start end_ ->
  exists text, move_piece g start end_ = (Return (false, Message text), g).
Proof.
  destruct start as [sr sc], end_ as [er ec]. intros H. unfold move_piece.
  destruct H as [Hnone | p Hp Hcol | valid Hvalid Hdest]; simpl in *.
  - rewrite Hnone. eauto.
  - rewrite Hp.
    assert (color_eqb (color p) (turn g) = false) as ->.
    { destruct (color p), (turn g); simpl; congruence. }
    simpl. eauto.
  - destruct (get (board g) sr sc) as [p|]; [|eauto].
    destruct (color_eqb (color p) (turn g)); simpl; [|eauto].
    rewrite Hvalid, Hdest. eauto.
Qed.

Lemma move_piece_refusal_is_atomic_witness :
  exists text,
    move_piece new_game (2, 1) (4, 1) = (Return (false, Message text), new_game).
Proof.
  apply (move_piece_refusal_is_atomic new_game (2, 1) (4, 1)).
  apply (bad_destination new_game (2, 1) (4, 1) [((3, 0), []); ((3, 2), [])]).
  - vm_compute. reflexivity.
  - vm_compute. reflexivity.
Defined.


End MovePiece.

Section Continuation.
Import GameLogic UI.

(** C2, as the claim states it, fails: after [move_piece] has reported a
    continuation on (7,4), [move_piece] from the other Red square (0,1) is
    accepted and the turn passes to Black. *)
Lemma pending_continuation_not_enforced_by_move_piece :
  let g1 := (move_piece Boards.crowning_capture (5, 2) (7, 4)).2 in
  let second := move_piece g1 (0, 1) (1, 2) in
  move_piece Boards.crowning_capture (5, 2) (7, 4)
    = (Return (true, Continue (7, 4)), g1) /\
  turn g1 = RED /\
  get (board g1) 0 1 = Some Boards.red_man /\
  second.1 = Return (true, NoContinue) /\
  turn second.2 = BLACK /\
  get (board second.2) 0 1 = None /\
  get (board second.2) 1 2 = Some Boards.red_man.
Proof. vm_compute. repeat split; reflexivity. Qed.

(** C2, amended.  When a capture applied by [move_piece] lands on a square
    from which [get_valid_moves] finds a further capture, [move_piece]
    answers with a continuation on that square and leaves the turn as it
    was.  [move_piece] keeps no trace of the pending continuation; it is
    [on_click] that holds it ([must_continue], [continue_pos]) and refuses a
    click on any other square of the side to move, changing nothing but the
    status line. *)
Theorem continuation_reported_then_ui_refuses_other_squares
    g start end_ valid captured info g' more dest caps ui x y piece :
  get_valid_moves (board g) start.1 start.2 = Return valid ->
  dict_get valid end_ = Some captured ->
  captured <> [] ->
  move_piece g start end_ = (Return (true, info), g') ->
  get_valid_moves (board g') end_.1 end_.2 = Return more ->
  dict_get more dest = Some caps ->
  caps <> [] ->
  game ui = g' ->
  must_continue ui = true ->
  continue_pos ui = Some end_ ->
  0 <= y / CELL <= 7 ->
  0 <= x / CELL <= 7 ->
  (y / CELL, x / CELL) <> end_ ->
  get (board g') (y / CELL) (x / CELL) = Some piece ->
  color piece = turn g' ->
  info = Continue end_ /\
  turn g' = turn g /\
  on_click ui x y =
    (Return tt,
     with_status ui "You must continue capturing with the same piece.").
Proof.
  intros Hvalid Hdest Hcap Hmove Hmore Hcaps Hne Hgame Hmust Hpos Hy Hx Hsq
         Hpiece Hcolor.
  assert (Hex : existsb (fun v : list pos => negb (is_nil v)) (dict_values more)
                = true).
  { apply (dict_get_existsb more _ dest caps Hcaps).
    destruct caps; [congruence|reflexivity]. }
  destruct start as [sr sc], end_ as [er ec]. simpl in *.
  assert (Hpart1 : info = Continue (er, ec) /\ turn g' = turn g).
  { unfold move_piece in Hmove.
    destruct (get (board g) sr sc) as [p|]; [|inversion Hmove].
    destruct (negb (color_eqb (color p) (turn g))); [inversion Hmove|].
    rewrite Hvalid, Hdest in Hmove.
    destruct captured as [|c0 captured]; [congruence|]. simpl is_nil in Hmove.
    cbv beta iota zeta in Hmove. simpl negb in Hmove.
    match type of Hmove with
    | context [get_valid_moves ?b er ec] =>
        assert (Hb : board g' = b);
        [ destruct (get_valid_moves b er ec) as [m| |];
          [ destruct (existsb _ (dict_values m)) | | ];
          inversion Hmove; reflexivity
        | rewrite <- Hb, Hmore, Hex in Hmove ]
    end.
    inversion Hmove. subst. auto. }
  destruct Hpart1 as [Hinfo Hturn]. repeat split; auto.
  unfold on_click.
  assert (((y / CELL <? 0) || (7 <? y / CELL) || (x / CELL <? 0)
           || (7 <? x / CELL)) = false) as ->.
  { rewrite !orb_false_iff. repeat split; lia. }
  rewrite Hmust, Hpos. simpl.
  apply pos_eqb_neq in Hsq. rewrite Hsq. reflexivity.
Qed.

Lemma continuation_reported_then_ui_refuses_other_squares_witness :
  let g' := (move_piece Boards.crowning_capture (5, 2) (7, 4)).2 in
  let ui := {| game := g'; selected := Some (7, 4); must_continue := true;
               continue_pos := Some (7, 4); turn_label := "Turn: RED";
               move_listbox := ["RED: (5, 2) -> (7, 4) captures 1"%string];
               status := "Continue capturing with same piece." |} in
  Continue (7, 4) = Continue (7, 4) /\
  turn g' = turn Boards.crowning_capture /\
  on_click ui 75 5 =
    (Return tt,
     with_status ui "You must continue capturing with the same piece.").
Proof.
  intros g' ui.
  apply (continuation_reported_then_ui_refuses_other_squares
           Boards.crowning_capture (5, 2) (7, 4) [((7, 4), [(6, 3)])] [(6, 3)]
           (Continue (7, 4)) g' [((5, 6), [(6, 5)])] (5, 6) [(6, 5)]
           ui 75 5 Boards.red_man);
    try (vm_compute; reflexivity); try discriminate.
  - vm_compute. split; discriminate.
  - vm_compute. split; discriminate.
Defined.

End Continuation.

(** ** The dictionary of jumps built by [dfs] *)

Lemma dict_get_None_keys {V} (d : dict V) k :
  dict_get d k = None <-> ~ In k (dict_keys d).
Proof.
  induction d as [|[k' v] d IH]; simpl.
  - tauto.
  - destruct (pos_eqb k' k) eqn:E.
    + apply pos_eqb_eq in E. split; [discriminate|]. intros H. exfalso. auto.
    + apply pos_eqb_neq in E. rewrite IH. tauto.
Qed.

Lemma dict_get_In {V} (d : dict V) k v :
  dict_get d k = Some v -> In (k, v) d.
Proof.
  induction d as [|[k' v'] d IH]; simpl; [discriminate|].
  destruct (pos_eqb k' k) eqn:E.
  - apply pos_eqb_eq in E. intros H. inversion H. subst. auto.
  - auto.
Qed.

Lemma setdefault_append_keys {X} (d : dict (list X)) k x k' :
  In k' (dict_keys (setdefault_append d k x)) <-> k' = k \/ In k' (dict_keys d).
Proof.
  induction d as [|[k0 xs] d IH]; simpl.
  - intuition.
  - destruct (pos_eqb k0 k) eqn:E; simpl.
    + apply pos_eqb_eq in E. subst. intuition.
    + rewrite IH. intuition.
Qed.

Lemma setdefault_append_In {X} (d : dict (list X)) k x k' xs :
  In (k', xs) (setdefault_append d k x) -> In (k', xs) d \/ xs <> [].
Proof.
  induction d as [|[k0 xs0] d IH]; simpl.
  - intros [H|[]]. inversion H. right. discriminate.
  - destruct (pos_eqb k0 k); simpl.
    + intros [H|H]; [|auto]. inversion H. right. destruct xs0; discriminate.
    + intros [H|H]; [auto|]. destruct (IH H); auto.
Qed.

Lemma jumps_ok_nil {X} : jumps_ok (@nil (pos * list X)).
Proof. split; [constructor|]. intros k xs []. Qed.

Lemma setdefault_append_ok {X} (d : dict (list X)) k x :
  jumps_ok d -> jumps_ok (setdefault_append d k x).
Proof.
  intros [Hnd Hne]. split.
  - clear Hne. induction d as [|[k0 xs] d IH]; simpl.
    + constructor; [simpl; tauto|constructor].
    + inversion Hnd as [|? ? Hnotin Hnd']. subst.
      destruct (pos_eqb k0 k) eqn:E; simpl.
      * constructor; assumption.
      * constructor; [|apply IH; assumption].
        rewrite setdefault_append_keys. intros [->|Hin]; [|auto].
        rewrite pos_eqb_refl in E. discriminate.
  - intros k' xs Hin. destruct (setdefault_append_In _ _ _ _ _ Hin); eauto.
Qed.

Lemma fold_dict_set_get {V W} (f : V -> W) (d : dict V) (acc : dict W) k :
  List.NoDup (dict_keys d) ->
  dict_get
    (fold_left (fun result '(dest, seqs) => dict_set result dest (f seqs)) d acc) k
  = match dict_get d k with
    | Some seqs => Some (f seqs)
    | None => dict_get acc k
    end.
Proof.
  revert acc. induction d as [|[k0 s0] d IH]; simpl; intros acc Hnd.
  - reflexivity.
  - inversion Hnd as [|? ? Hnotin Hnd']. subst.
    rewrite IH by assumption.
    destruct (pos_eqb k0 k) eqn:E.
    + apply pos_eqb_eq in E. subst k0.
      apply dict_get_None_keys in Hnotin. rewrite Hnotin.
      apply dict_get_set_same.
    + apply pos_eqb_neq in E.
      destruct (dict_get d k); [reflexivity|].
      apply dict_get_set_other. exact E.
Qed.

Section JumpsInvariant.
Import GameLogic.

Lemma gl_dfs_jumps_ok fuel :
  forall sr sc (b : Board) captured jumps found jumps',
    dfs fuel sr sc b captured jumps = Return (found, jumps') ->
    jumps_ok jumps -> jumps_ok jumps'.
Proof.
  induction fuel as [|fuel IH]; simpl; intros sr sc b captured jumps found jumps' H Hok.
  - discriminate.
  - destruct (get b sr sc) as [piece|]; [|discriminate].
    apply (foldM_inv (fun acc => jumps_ok acc.2)) with (a := (false, jumps)) in H;
      [exact H| |exact Hok].
    clear H. intros [fnd j] [dr dc] [fnd' j'] Hj Hstep. simpl in *.
    unfold dfs_step in Hstep.
    destruct (negb _); [inversion Hstep; subst; exact Hj|].
    destruct (get b (sr + dr) (sc + dc)) as [m|];
      [|inversion Hstep; subst; exact Hj].
    destruct (get b (sr + 2 * dr) (sc + 2 * dc));
      [inversion Hstep; subst; exact Hj|].
    destruct (negb (color_eqb _ _)); [|inversion Hstep; subst; exact Hj].
    apply rbind_Return in Hstep as ([more j1] & Hrec & Hret).
    apply IH in Hrec; [|exact Hj].
    inversion Hret. subst. destruct more; simpl; [exact Hrec|].
    apply setdefault_append_ok. exact Hrec.
Qed.

End JumpsInvariant.

(** ** [get_all_moves], [get_valid_moves] and [move_piece] on three boards *)

Section GameLogicExamples.
Import GameLogic.

(** C1 fails on [get_all_moves].  On [capture_and_step] the Red man on
    (2,3) has a capture (over (3,4) to (4,5)), yet the aggregate for Red
    still lists the two simple destinations (1,0) and (1,2) of the man on
    (0,1): [get_valid_moves] drops simple moves only for the piece that can
    capture.  [move_piece] then accepts the simple move. *)
Theorem get_all_moves_keeps_simple_moves_beside_a_capture :
  get_all_moves Boards.capture_and_step RED
    = Return [((0, 1), [((1, 0), []); ((1, 2), [])]);
              ((2, 3), [((4, 5), [(3, 4)])])] /\
  (move_piece (Boards.red_to_move Boards.capture_and_step) (0, 1) (1, 2)).1
    = Return (true, NoContinue).
Proof. vm_compute. split; reflexivity. Qed.

(** C3 fails on [get_valid_moves].  On [short_and_long] the man on (2,3)
    can capture two pieces, ending on (6,7); the result also offers (4,1),
    reached by a single capture. *)
Lemma get_valid_moves_returns_a_shorter_capture :
  get_valid_moves Boards.short_and_long 2 3
    = Return [((4, 1), [(3, 2)]); ((6, 7), [(3, 4); (5, 6)])].
Proof. vm_compute. reflexivity. Qed.

(** C4 fails on [move_piece].  On [round_trip] the king's four captures end
    on its own square (1,2); [move_piece] writes the piece on the end square
    and then empties the start square, the same square, so Red goes from
    one piece to none.  Black loses its four men as it should. *)
Theorem move_piece_round_trip_loses_the_mover :
  let g := Boards.red_to_move Boards.round_trip in
  let after := move_piece g (1, 2) (1, 2) in
  get_valid_moves (board g) 1 2
    = Return [((1, 2), [(2, 1); (4, 1); (4, 3); (2, 3)])] /\
  after.1 = Return (true, NoContinue) /\
  gl_count RED (board g) = 1%nat /\
  gl_count RED (board after.2) = 0%nat /\
  gl_count BLACK (board g) = 4%nat /\
  gl_count BLACK (board after.2) = 0%nat.
Proof. vm_compute. repeat split; reflexivity. Qed.

(** When the search finds captures, the sequence [get_valid_moves] keeps
    for a destination is one of the sequences that end there, and none of
    those is longer. *)
Lemma get_valid_moves_keeps_longest_per_destination
    (b : Board) r c p found jumps :
  get b r c = Some p ->
  dfs search_fuel r c (clone b) [] [] = Return (found, jumps) ->
  jumps <> [] ->
  exists moves,
    get_valid_moves b r c = Return moves /\
    forall dest caps,
      dict_get moves dest = Some caps ->
      exists seqs,
        dict_get jumps dest = Some seqs /\
        In caps seqs /\
        forall s, In s seqs -> (length s <= length caps)%nat.
Proof.
  intros Hp Hdfs Hne. unfold get_valid_moves. rewrite Hp, Hdfs. simpl.
  destruct jumps as [|j0 jumps']; [congruence|]. simpl is_nil. simpl negb.
  cbv iota. eexists. split; [reflexivity|].
  intros dest caps Hget.
  pose proof (gl_dfs_jumps_ok _ _ _ _ _ _ _ _ Hdfs jumps_ok_nil) as [Hnd Hnonempty].
  rewrite (fold_dict_set_get best_of (j0 :: jumps') [] dest Hnd) in Hget.
  destruct (dict_get (j0 :: jumps') dest) as [seqs|] eqn:Hseqs; [|discriminate].
  inversion Hget. subst caps. exists seqs. split; [reflexivity|].
  apply dict_get_In in Hseqs. specialize (Hnonempty _ _ Hseqs).
  destruct seqs as [|s0 seqs]; [congruence|]. simpl best_of.
  apply (max_by_len_spec seqs s0).
Qed.

End GameLogicExamples.

(** ** The engine board *)

Section EngineBoard.
Import Engine.

Lemma en_in_bounds_spec r c :
  in_bounds r c = true <-> 0 <= r < 8 /\ 0 <= c < 8.
Proof. unfold in_bounds, BOARD_SIZE. rewrite !andb_true_iff. lia. Qed.

Lemma py_norm_8 i :
  py_norm 8 i = if valid8 i then Some (Z.to_nat (norm8 i)) else None.
Proof.
  unfold py_norm, valid8, norm8.
  destruct (Z.ltb_spec i 0), (Z.leb_spec (-8) i), (Z.ltb_spec i 8); simpl;
    repeat match goal with
           | |- context [Z.leb ?a ?b] => destruct (Z.leb_spec a b)
           | |- context [Z.ltb ?a ?b] => destruct (Z.ltb_spec a b)
           end; simpl; try reflexivity; lia.
Qed.

Lemma norm8_in i : 0 <= i < 8 -> norm8 i = i.
Proof. unfold norm8. intros H. destruct (Z.ltb_spec i 0); lia. Qed.

Lemma norm8_range i : valid8 i = true -> 0 <= norm8 i < 8.
Proof.
  unfold valid8, norm8. rewrite andb_true_iff. intros [H1 H2].
  destruct (Z.ltb_spec i 0); lia.
Qed.

Lemma valid8_in i : 0 <= i < 8 -> valid8 i = true.
Proof. unfold valid8. intros H. apply andb_true_iff. lia. Qed.

Lemma en_wf_row (b : Board) r :
  wf_board b -> (r < 8)%nat -> exists row, b !! r = Some row /\ length row = 8%nat.
Proof.
  intros [Hlen Hrows] Hr.
  destruct (lookup_lt_is_Some_2 b r) as [row Hrow]; [lia|].
  exists row. split; [exact Hrow|].
  rewrite Forall_lookup in Hrows. eauto.
Qed.

Lemma en_get_wf (b : Board) r c :
  wf_board b ->
  get b r c =
    if valid8 r && valid8 c
    then Return (en_cell b (Z.to_nat (norm8 r)) (Z.to_nat (norm8 c)))
    else Raise IndexError.
Proof.
  intros Hwf. unfold get, py_index. destruct Hwf as [Hlen Hrows].
  rewrite Hlen, py_norm_8.
  destruct (valid8 r) eqn:Hr; simpl; [|reflexivity].
  pose proof (norm8_range _ Hr) as Hnr.
  destruct (en_wf_row b (Z.to_nat (norm8 r)) (conj Hlen Hrows)) as (row & Hrow & Hrl);
    [lia|].
  rewrite Hrow. simpl. rewrite Hrl, py_norm_8.
  destruct (valid8 c) eqn:Hc; simpl; [|reflexivity].
  pose proof (norm8_range _ Hc) as Hnc.
  unfold en_cell. rewrite Hrow.
  destruct (lookup_lt_is_Some_2 row (Z.to_nat (norm8 c))) as [x Hx]; [lia|].
  rewrite Hx. reflexivity.
Qed.

Lemma en_set_wf (b : Board) r c v :
  wf_board b ->
  set b r c v =
    if valid8 r && valid8 c
    then Return (en_upd b (Z.to_nat (norm8 r)) (Z.to_nat (norm8 c)) v)
    else Raise IndexError.
Proof.
  intros Hwf. unfold set, py_index, py_setitem. destruct Hwf as [Hlen Hrows].
  rewrite Hlen, py_norm_8.
  destruct (valid8 r) eqn:Hr; simpl; [|reflexivity].
  pose proof (norm8_range _ Hr) as Hnr.
  destruct (en_wf_row b (Z.to_nat (norm8 r)) (conj Hlen Hrows)) as (row & Hrow & Hrl);
    [lia|].
  rewrite Hrow. simpl. rewrite Hrl, py_norm_8.
  destruct (valid8 c) eqn:Hc; simpl; [|reflexivity].
  unfold en_upd. f_equal.
  apply list_eq. intros i.
  destruct (decide (i = Z.to_nat (norm8 r))) as [->|Hne].
  - rewrite list_lookup_insert_eq by lia.
    rewrite list_lookup_alter_eq, Hrow. reflexivity.
  - rewrite list_lookup_insert_ne by auto.
    rewrite list_lookup_alter_ne by auto. reflexivity.
Qed.

Lemma en_upd_wf (b : Board) r c v : wf_board b -> wf_board (en_upd b r c v).
Proof.
  intros [Hlen Hrows]. unfold en_upd. split.
  - rewrite length_alter. exact Hlen.
  - rewrite Forall_lookup in Hrows. apply Forall_lookup. intros i row Hi.
    destruct (decide (i = r)) as [->|Hne].
    + rewrite list_lookup_alter_eq in Hi.
      destruct (b !! r) as [row0|] eqn:E; simpl in Hi; [|discriminate].
      inversion Hi. subst row. rewrite length_insert. eauto.
    + rewrite list_lookup_alter_ne in Hi by auto. eauto.
Qed.

Lemma en_cell_upd_same (b : Board) r c v :
  wf_board b -> (r < 8)%nat -> (c < 8)%nat -> en_cell (en_upd b r c v) r c = v.
Proof.
  intros Hwf Hr Hc. destruct (en_wf_row b r Hwf Hr) as (row & Hrow & Hrl).
  unfold en_cell, en_upd. rewrite list_lookup_alter_eq, Hrow. simpl.
  rewrite list_lookup_insert_eq by lia. reflexivity.
Qed.

Lemma en_cell_upd_other (b : Board) r c v r' c' :
  (r, c) <> (r', c') -> en_cell (en_upd b r c v) r' c' = en_cell b r' c'.
Proof.
  intros Hne. unfold en_cell, en_upd.
  destruct (decide (r = r')) as [->|Hr].
  - rewrite list_lookup_alter_eq.
    destruct (b !! r') as [row|]; simpl; [|reflexivity].
    rewrite list_lookup_insert_ne; [reflexivity|]. congruence.
  - rewrite list_lookup_alter_ne by auto. reflexivity.
Qed.

Lemma en_set_Return_wf (b b' : Board) r c v :
  wf_board b -> set b r c v = Return b' -> wf_board b'.
Proof.
  intros Hwf. rewrite en_set_wf by exact Hwf.
  destruct (valid8 r && valid8 c); [|discriminate].
  intros H. inversion H. apply en_upd_wf. exact Hwf.
Qed.

Lemma en_wf_empty : wf_board Boards.en_empty.
Proof. split; [reflexivity|]. repeat constructor. Qed.

Lemma en_wf_board_of l : wf_board (Boards.en_board l).
Proof.
  unfold Boards.en_board. generalize en_wf_empty. generalize Boards.en_empty.
  induction l as [|[[r c] p] l IH]; simpl; intros b Hb; [exact Hb|].
  apply IH. destruct (set b r c p) eqn:E; try exact Hb.
  eapply en_set_Return_wf; eauto.
Qed.

Lemma en_wf_initial : wf_board setup_initial.
Proof. split; [reflexivity|]. repeat constructor. Qed.

End EngineBoard.

(** ** What the two searches of the engine return *)

Section EngineMoves.
Import Engine.

Lemma max_jumps_upper captures m :
  In m captures -> jumps_of m <= max_jumps captures.
Proof.
  destruct captures as [|m0 ms]; [intros []|]. simpl.
  assert (Hgen : forall l acc,
             acc <= fold_left (fun best m' => Z.max best (jumps_of m')) l acc /\
             forall x, In x l ->
               jumps_of x <= fold_left (fun best m' => Z.max best (jumps_of m')) l acc).
  { induction l as [|y l IH]; simpl; intros acc.
    - split; [lia|]. intros x [].
    - destruct (IH (Z.max acc (jumps_of y))) as [H1 H2]. split; [lia|].
      intros x [<-|Hx]; [lia|]. apply H2. exact Hx. }
  intros [<-|Hin].
  - apply (proj1 (Hgen ms _)).
  - apply (proj2 (Hgen ms _)). exact Hin.
Qed.

Lemma find_simple_moves_are_steps (b : Board) r c moves :
  _find_simple_moves_from b r c = Return moves -> Forall is_step moves.
Proof.
  unfold _find_simple_moves_from. intros H.
  apply rbind_Return in H as (piece & _ & H).
  destruct (Piece.eqb piece Piece.EMPTY); [inversion H; constructor|].
  revert H. apply foldM_inv_In with (P := Forall is_step); [|constructor].
  intros acc [dr dc] acc' Hd Hacc Hstep.
  assert (Hdir : (dr = 1 \/ dr = -1) /\ (dc = 1 \/ dc = -1)).
  { destruct (is_king piece); [|destruct (owner_eqb _ _)]; simpl in Hd;
      repeat destruct Hd as [Hd|Hd]; inversion Hd; auto. }
  destruct (negb (in_bounds (r + dr) (c + dc))); [inversion Hstep; subst; auto|].
  apply rbind_Return in Hstep as (q & _ & Hstep).
  destruct (Piece.eqb q Piece.EMPTY); inversion Hstep; subst; auto.
  apply Forall_app. split; [exact Hacc|]. constructor; [|constructor].
  exists r, c, dr, dc. tauto.
Qed.

Lemma en_dfs_results fuel owner :
  forall (b : Board) cur_r cur_c path results results',
    dfs fuel owner b cur_r cur_c path results = Return results' ->
    exists new,
      results' = results ++ new /\
      Forall (fun m => (m = path /\ (1 < length path)%nat)
                       \/ extends_by_jump path cur_r cur_c m) new.
Proof.
  induction fuel as [|fuel IH]; intros b cur_r cur_c path results results' H;
    cbn [dfs] in H.
  - discriminate.
  - apply rbind_Return in H as (p & _ & H).
    apply rbind_Return in H as ([moved res1] & Hfold & H).
    assert (Hinv : exists new,
               res1 = results ++ new /\
               Forall (extends_by_jump path cur_r cur_c) new /\
               (moved = false -> new = [])).
    { revert Hfold.
      apply foldM_inv_In with
        (P := fun acc : bool * list move =>
                exists new, acc.2 = results ++ new /\
                            Forall (extends_by_jump path cur_r cur_c) new /\
                            (acc.1 = false -> new = []));
        [|exists []; rewrite app_nil_r; auto].
      intros [mv rs] [dr dc] [mv' rs'] Hd (new & Hrs & Hall & Hmv) Hstep.
      simpl in Hrs, Hmv. subst rs.
      assert (Hdir : (dr = 1 \/ dr = -1) /\ (dc = 1 \/ dc = -1)).
      { simpl in Hd. repeat destruct Hd as [Hd|Hd]; inversion Hd; auto. }
      unfold dfs_step in Hstep.
      destruct (negb (in_bounds _ _ && in_bounds _ _));
        [inversion Hstep; subst; simpl; eauto|].
      apply rbind_Return in Hstep as (mid & _ & Hstep).
      apply rbind_Return in Hstep as (land & _ & Hstep).
      destruct (negb (Piece.eqb land Piece.EMPTY));
        [inversion Hstep; subst; simpl; eauto|].
      destruct (is_none (piece_owner mid) || owner_eqb (piece_owner mid) owner);
        [inversion Hstep; subst; simpl; eauto|].
      match type of Hstep with
      | (if ?cnd then _ else _) = _ =>
          destruct cnd; [inversion Hstep; subst; simpl; eauto|]
      end.
      apply rbind_Return in Hstep as (b1 & _ & Hstep).
      apply rbind_Return in Hstep as (b2 & _ & Hstep).
      apply rbind_Return in Hstep as (b3 & _ & Hstep).
      apply rbind_Return in Hstep as (rs2 & Hrec & Hstep).
      inversion Hstep. subst mv' rs'. clear Hstep.
      apply IH in Hrec as (new2 & -> & Hall2).
      exists (new ++ new2). simpl. split; [rewrite app_assoc; reflexivity|].
      split; [|discriminate].
      apply Forall_app. split; [exact Hall|].
      eapply Forall_impl; [exact Hall2|]. simpl.
      intros m [[-> _]|(dr2 & dc2 & rest & _ & _ & ->)].
      - exists dr, dc, []. tauto.
      - exists dr, dc, ((cur_r + 2 * dr + 2 * dr2, cur_c + 2 * dc + 2 * dc2) :: rest).
        rewrite <- app_assoc. simpl. tauto. }
    destruct Hinv as (new & -> & Hall & Hmv).
    destruct moved; simpl in H.
    + inversion H. subst. exists new. split; [reflexivity|].
      eapply Forall_impl; [exact Hall|]. simpl. auto.
    + rewrite (Hmv eq_refl) in *. rewrite app_nil_r in *.
      destruct (Nat.ltb_spec 1 (length path)); inversion H; subst.
      * exists [path]. split; [reflexivity|]. constructor; [|constructor]. auto.
      * exists []. rewrite app_nil_r. split; [reflexivity|constructor].
Qed.

Lemma find_captures_are_jumps (b : Board) r c caps :
  _find_captures_from b r c = Return caps ->
  Forall (extends_by_jump [(r, c)] r c) caps.
Proof.
  unfold _find_captures_from. intros H.
  apply rbind_Return in H as (piece & _ & H).
  destruct (Piece.eqb piece Piece.EMPTY); [inversion H; constructor|].
  apply en_dfs_results in H as (new & -> & Hall). simpl.
  eapply Forall_impl; [exact Hall|]. simpl.
  intros m [[_ Hlen]|Hext]; [simpl in Hlen; lia|exact Hext].
Qed.

Lemma jump_is_capture r c m :
  extends_by_jump [(r, c)] r c m -> is_capture m = true /\ (2 <= length m)%nat.
Proof.
  intros (dr & dc & rest & Hdr & Hdc & ->). simpl. split; [|lia].
  apply andb_true_iff. split; apply Z.eqb_eq; lia.
Qed.

Lemma step_is_not_capture m :
  is_step m -> is_capture m = false /\ length m = 2%nat.
Proof.
  intros (r & c & dr & dc & -> & Hdr & Hdc). simpl. split; [|reflexivity].
  apply andb_false_iff. left. apply Z.eqb_neq. lia.
Qed.

End EngineMoves.

(** ** Which capture sequences are offered *)

(** C3, amended.  When the search of [get_valid_moves] finds captures,
    the result has an entry for a destination exactly when a capture
    sequence ends on it: every destination reached has its entry, and
    there is no other.  The entry is one of the sequences that end
    there, and none of those is longer.  Sequences kept for different
    destinations may differ in length. *)
Theorem longest_capture_per_destination
    (b : GameLogic.Board) r c p found jumps :
  GameLogic.get b r c = Some p ->
  GameLogic.dfs GameLogic.search_fuel r c (GameLogic.clone b) [] []
    = Return (found, jumps) ->
  jumps <> [] ->
  exists moves,
    GameLogic.get_valid_moves b r c = Return moves /\
    (forall dest, dict_get moves dest = None <-> dict_get jumps dest = None) /\
    (forall dest seqs,
        dict_get jumps dest = Some seqs ->
        exists caps,
          dict_get moves dest = Some caps /\
          In caps seqs /\
          forall s, In s seqs -> (length s <= length caps)%nat).
Proof.
  intros Hp Hdfs Hne.
  pose proof (gl_dfs_jumps_ok _ _ _ _ _ _ _ _ Hdfs jumps_ok_nil) as [Hnd Hnonempty].
  unfold GameLogic.get_valid_moves. rewrite Hp, Hdfs. simpl.
  destruct jumps as [|j0 jumps']; [congruence|]. simpl is_nil. simpl negb.
  cbv iota. eexists. split; [reflexivity|]. split.
  - intros dest.
    rewrite (fold_dict_set_get GameLogic.best_of (j0 :: jumps') [] dest Hnd).
    destruct (dict_get (j0 :: jumps') dest); split; intros H;
      first [discriminate | reflexivity].
  - intros dest seqs Hseqs.
    rewrite (fold_dict_set_get GameLogic.best_of (j0 :: jumps') [] dest Hnd).
    rewrite Hseqs. eexists. split; [reflexivity|].
    apply dict_get_In in Hseqs. specialize (Hnonempty _ _ Hseqs).
    destruct seqs as [|s0 seqs]; [congruence|]. simpl GameLogic.best_of.
    apply (max_by_len_spec seqs s0).
Qed.

Lemma longest_capture_per_destination_witness :
  exists moves,
    GameLogic.get_valid_moves Boards.short_and_long 2 3 = Return moves /\
    (forall dest,
        dict_get moves dest = None <->
        dict_get [((4, 1), [[(3, 2)]]); ((6, 7), [[(3, 4); (5, 6)]])] dest = None) /\
    (forall dest seqs,
        dict_get [((4, 1), [[(3, 2)]]); ((6, 7), [[(3, 4); (5, 6)]])] dest
          = Some seqs ->
        exists caps,
          dict_get moves dest = Some caps /\
          In caps seqs /\
          forall s, In s seqs -> (length s <= length caps)%nat).
Proof.
  apply (longest_capture_per_destination
           Boards.short_and_long 2 3 Boards.red_man true
           [((4, 1), [[(3, 2)]]); ((6, 7), [[(3, 4); (5, 6)]])]).
  - vm_compute. reflexivity.
  - vm_compute. reflexivity.
  - discriminate.
Defined.

(** ** Notation helpers and malformed input *)

Section Notation.
Import Engine.
Local Open Scope string_scope.

(** C7. For every square of the board, [pos_to_coord] returns a name and
    [coord_to_pos] reads that name back as the same square. *)
Theorem notation_round_trip r c :
  0 <= r < 8 -> 0 <= c < 8 ->
  exists s, pos_to_coord (r, c) = Return s /\ coord_to_pos s = Return (r, c).
Proof.
  intros Hr Hc.
  assert (Hr' : r = 0 \/ r = 1 \/ r = 2 \/ r = 3 \/ r = 4 \/ r = 5 \/ r = 6 \/ r = 7)
    by lia.
  assert (Hc' : c = 0 \/ c = 1 \/ c = 2 \/ c = 3 \/ c = 4 \/ c = 5 \/ c = 6 \/ c = 7)
    by lia.
  clear Hr Hc.
  repeat destruct Hr' as [->|Hr']; try subst r;
    repeat destruct Hc' as [->|Hc']; try subst c;
    (eexists; split; [vm_compute; reflexivity|vm_compute; reflexivity]).
Qed.

Lemma notation_round_trip_witness :
  exists s, pos_to_coord (5, 2) = Return s /\ coord_to_pos s = Return (5, 2).
Proof. apply (notation_round_trip 5 2); lia. Defined.

(** C8, as the claim states it, fails.  A column letter past h and a row
    digit outside 1..8 are converted without complaint; a short name and a
    non-digit row are faults raised by the indexing and by [int]; a path of
    one square makes [apply_move] raise [ValueError]. *)
Lemma malformed_input_is_not_a_returned_failure :
  coord_to_pos "i9" = Return (-1, 8) /\
  coord_to_pos "z0" = Return (8, 25) /\
  coord_to_pos "a" = Raise IndexError /\
  coord_to_pos "ax"
    = Raise (ValueError "invalid literal for int() with base 10: 'x'") /\
  (apply_move setup_initial [(5, 0)]).1
    = Raise (ValueError "Move must contain at least a source and destination").
Proof. vm_compute. repeat split; reflexivity. Qed.

(** C8, amended.  A path of fewer than two squares makes [apply_move] raise
    [ValueError] before it reads or writes the board.  On a name made of
    Latin-1 characters [coord_to_pos] checks no range: when the second
    character is a digit it returns a square computed from the first two
    characters, whatever they are; it raises [IndexError] on a name of
    fewer than two characters and, on a second character that is not a
    digit, the [ValueError] of [int], whose message ends with the [repr]
    of that character. *)
Theorem short_path_raises_and_conversion_checks_no_range
    (b : Board) (m : move) (a d : ascii) (rest : string) :
  (length m < 2)%nat ->
  48 <= ord d <= 57 ->
  apply_move b m
    = (Raise (ValueError "Move must contain at least a source and destination"), b) /\
  coord_to_pos (String a (String d rest))
    = Return (8 - (ord d - 48), ord (lower a) - ord "a") /\
  (forall a' d' rest',
      ~ 48 <= ord d' <= 57 ->
      coord_to_pos (String a' (String d' rest'))
      = Raise (ValueError ("invalid literal for int() with base 10: "
                           ++ repr_char d'))) /\
  (forall a', coord_to_pos (String a' "") = Raise IndexError) /\
  coord_to_pos "" = Raise IndexError.
Proof.
  intros Hlen Hd. repeat split.
  - destruct m as [|[xr xc] [|y m]]; simpl in Hlen; try lia; reflexivity.
  - unfold coord_to_pos, int_of_char.
    assert (((48 <=? ord d)%Z && (ord d <=? 57)%Z) = true) as ->.
    { apply andb_true_iff. lia. }
    simpl. unfold BOARD_SIZE. f_equal. f_equal. lia.
  - intros a' d' rest' Hnd. unfold coord_to_pos, int_of_char.
    assert (((48 <=? ord d')%Z && (ord d' <=? 57)%Z) = false) as ->.
    { apply andb_false_iff. lia. }
    reflexivity.
Qed.

Lemma short_path_raises_and_conversion_checks_no_range_witness :
  apply_move setup_initial [(5, 0)]
    = (Raise (ValueError "Move must contain at least a source and destination"),
       setup_initial) /\
  coord_to_pos "i9" = Return (8 - (ord "9" - 48), ord (lower "i") - ord "a") /\
  (forall a' d' rest',
      ~ 48 <= ord d' <= 57 ->
      coord_to_pos (String a' (String d' rest'))
      = Raise (ValueError ("invalid literal for int() with base 10: "
                           ++ repr_char d'))) /\
  (forall a', coord_to_pos (String a' "") = Raise IndexError) /\
  coord_to_pos "" = Raise IndexError.
Proof.
  apply (short_path_raises_and_conversion_checks_no_range
           setup_initial [(5, 0)] "i"%char "9"%char "").
  - simpl. lia.
  - vm_compute. split; discriminate.
Defined.

End Notation.

(** ** Counting pieces *)

Lemma filter_length_change (f g : pos -> bool) (x : pos) (l : list pos) :
  (forall y, In y l -> y <> x -> g y = f y) ->
  (length (List.filter g l)
   + (if f x then length (List.filter (pos_eqb x) l) else 0)
   = length (List.filter f l)
     + (if g x then length (List.filter (pos_eqb x) l) else 0))%nat.
Proof.
  induction l as [|y l IH]; intros Hfg; simpl.
  - destruct (f x), (g x); reflexivity.
  - assert (IH' := IH (fun z Hz => Hfg z (or_intror Hz))).
    destruct (pos_eqb x y) eqn:E.
    + apply pos_eqb_eq in E. subst y.
      destruct (f x), (g x); simpl in *; lia.
    + apply pos_eqb_neq in E.
      rewrite (Hfg y (or_introl eq_refl)) by congruence.
      destruct (f y); simpl; destruct (f x), (g x); simpl in *; lia.
Qed.

Lemma squares_in_bounds r c : In (r, c) squares -> 0 <= r < 8 /\ 0 <= c < 8.
Proof.
  unfold squares. rewrite in_flat_map. intros (r0 & Hr0 & Hin).
  apply in_map_iff in Hin as (c0 & Heq & Hc0). inversion Heq. subst r0 c0.
  unfold range8 in *. simpl in Hr0, Hc0. lia.
Qed.

Lemma square_occurs_once r c :
  0 <= r < 8 -> 0 <= c < 8 ->
  length (List.filter (pos_eqb (r, c)) squares) = 1%nat.
Proof.
  intros Hr Hc.
  assert (Hr' : r = 0 \/ r = 1 \/ r = 2 \/ r = 3 \/ r = 4 \/ r = 5 \/ r = 6 \/ r = 7)
    by lia.
  assert (Hc' : c = 0 \/ c = 1 \/ c = 2 \/ c = 3 \/ c = 4 \/ c = 5 \/ c = 6 \/ c = 7)
    by lia.
  clear Hr Hc.
  repeat destruct Hr' as [->|Hr']; try subst r;
    repeat destruct Hc' as [->|Hc']; try subst c; vm_compute; reflexivity.
Qed.

Lemma squares_length : length squares = 64%nat.
Proof. reflexivity. Qed.

Section GameLogicCount.
Import GameLogic.

Lemma gl_count_set (b : Board) r c v clr :
  wf_board b -> in_bounds r c = true ->
  (gl_count clr (set b r c v) + gl_ind clr (get b r c)
   = gl_count clr b + gl_ind clr v)%nat.
Proof.
  intros Hwf Hin. unfold gl_count, gl_ind.
  pose proof (filter_length_change
                (fun q : pos => gl_has_color clr (get b q.1 q.2))
                (fun q : pos => gl_has_color clr (get (set b r c v) q.1 q.2))
                (r, c) squares) as H.
  cbn beta in H. cbn [fst snd] in H.
  rewrite gl_get_set_same in H by assumption.
  apply gl_in_bounds_spec in Hin. destruct Hin as [Hr Hc].
  rewrite (square_occurs_once r c Hr Hc) in H.
  apply H. intros [r' c'] _ Hne. cbn [fst snd].
  rewrite gl_get_set_other; [reflexivity|congruence].
Qed.

Lemma gl_count_le clr (b : Board) : (gl_count clr b <= 64)%nat.
Proof.
  unfold gl_count. rewrite <- squares_length. apply List.filter_length_le.
Qed.

Lemma gl_dirs_unit p dr dc :
  In (dr, dc) (dirs_of p) -> (dr = 1 \/ dr = -1) /\ (dc = 1 \/ dc = -1).
Proof.
  unfold dirs_of, king_dirs. destruct (king p); [|destruct (color p)]; simpl;
    intros H; repeat destruct H as [H|H]; inversion H; auto.
Qed.

Lemma gl_color_differs (m p : Piece) :
  negb (color_eqb (color m) (color p)) = true ->
  gl_has_color (other (color p)) (Some m) = true /\
  gl_has_color (other (color p)) (Some p) = false.
Proof. simpl. destruct (color m), (color p); simpl; intros H; auto; discriminate. Qed.

(** The board after a jump: well formed, the jumping piece on the landing
    square, one opposing piece fewer. *)
Lemma gl_jump_board (b : Board) sr sc dr dc piece m :
  wf_board b ->
  (dr = 1 \/ dr = -1) -> (dc = 1 \/ dc = -1) ->
  in_bounds (sr + dr) (sc + dc) = true ->
  in_bounds (sr + 2 * dr) (sc + 2 * dc) = true ->
  get b sr sc = Some piece ->
  get b (sr + dr) (sc + dc) = Some m ->
  get b (sr + 2 * dr) (sc + 2 * dc) = None ->
  negb (color_eqb (color m) (color piece)) = true ->
  let new_board :=
    remove (remove (set (clone b) (sr + 2 * dr) (sc + 2 * dc)
                        (get (clone b) sr sc)) sr sc)
           (sr + dr) (sc + dc) in
  wf_board new_board /\
  get new_board (sr + 2 * dr) (sc + 2 * dc) = Some piece /\
  (gl_count (other (color piece)) new_board + 1
   = gl_count (other (color piece)) b)%nat.
Proof.
  intros Hwf Hdr Hdc Hmid Hland Hp Hm Hl Hcol. unfold clone, remove.
  pose proof (gl_get_in_bounds _ _ _ _ Hp) as Hsrc.
  destruct (gl_color_differs _ _ Hcol) as [Hcm Hcp].
  set (b1 := set b (sr + 2 * dr) (sc + 2 * dc) (get b sr sc)).
  set (b2 := set b1 sr sc None).
  assert (Hwf1 : wf_board b1) by (apply gl_wf_set; exact Hwf).
  assert (Hwf2 : wf_board b2) by (apply gl_wf_set; exact Hwf1).
  simpl. split; [apply gl_wf_set; exact Hwf2|]. split.
  - rewrite gl_get_set_other by (intros E; inversion E; lia).
    unfold b2. rewrite gl_get_set_other by (intros E; inversion E; lia).
    unfold b1. rewrite gl_get_set_same by assumption. exact Hp.
  - pose proof (gl_count_set b (sr + 2 * dr) (sc + 2 * dc) (get b sr sc)
                  (other (color piece)) Hwf Hland) as C1.
    pose proof (gl_count_set b1 sr sc None (other (color piece)) Hwf1 Hsrc) as C2.
    pose proof (gl_count_set b2 (sr + dr) (sc + dc) None (other (color piece))
                  Hwf2 Hmid) as C3.
    fold b1 in C1. fold b2 in C2.
    assert (E1 : get b1 sr sc = Some piece).
    { unfold b1. rewrite gl_get_set_other by (intros E; inversion E; lia). exact Hp. }
    assert (E2 : get b2 (sr + dr) (sc + dc) = Some m).
    { unfold b2. rewrite gl_get_set_other by (intros E; inversion E; lia).
      unfold b1. rewrite gl_get_set_other by (intros E; inversion E; lia). exact Hm. }
    rewrite Hl, Hp in C1. rewrite E1 in C2. rewrite E2 in C3.
    unfold gl_ind in C1, C2, C3. rewrite ?Hcm, ?Hcp in *. simpl in *. lia.
Qed.

End GameLogicCount.

(** ** The search of [get_valid_moves] returns *)

Lemma foldM_total_In {A B} (f : A -> B -> result A) l :
  (forall a x, In x l -> exists a', f a x = Return a') ->
  forall a, exists a', foldM f l a = Return a'.
Proof.
  induction l as [|x l IH]; simpl; intros Hstep a.
  - eauto.
  - destruct (Hstep a x (or_introl eq_refl)) as [a1 H1]. rewrite H1. simpl.
    apply IH. intros a0 y Hy. apply Hstep. auto.
Qed.

Section GameLogicTotal.
Import GameLogic.

Lemma gl_dfs_total fuel :
  forall (b : Board) sr sc captured jumps piece,
    wf_board b ->
    get b sr sc = Some piece ->
    (gl_count (other (color piece)) b < fuel)%nat ->
    exists r, dfs fuel sr sc b captured jumps = Return r.
Proof.
  induction fuel as [|fuel IH]; intros b sr sc captured jumps piece Hwf Hp Hlt;
    [lia|].
  cbn [dfs]. rewrite Hp. apply foldM_total_In.
  intros [found j] [dr dc] Hd.
  apply gl_dirs_unit in Hd as [Hdr Hdc].
  unfold dfs_step.
  destruct (in_bounds (sr + dr) (sc + dc)) eqn:Hmid; simpl; [|eauto].
  destruct (in_bounds (sr + 2 * dr) (sc + 2 * dc)) eqn:Hland; simpl; [|eauto].
  destruct (get b (sr + dr) (sc + dc)) as [m|] eqn:Hm; [|eauto].
  destruct (get b (sr + 2 * dr) (sc + 2 * dc)) eqn:Hl; [eauto|].
  destruct (negb (color_eqb (color m) (color piece))) eqn:Hcol; [|eauto].
  destruct (gl_jump_board b sr sc dr dc piece m Hwf Hdr Hdc Hmid Hland Hp Hm Hl Hcol)
    as (Hwf' & Hp' & Hcount).
  match goal with
  | |- context [dfs fuel ?lr ?lc ?nb ?cap j] =>
      destruct (IH nb lr lc cap j piece Hwf' Hp') as [[more j'] Hrec]; [lia|];
      rewrite Hrec
  end.
  simpl. eauto.
Qed.

Theorem gl_get_valid_moves_total (b : Board) r c :
  wf_board b -> exists moves, get_valid_moves b r c = Return moves.
Proof.
  intros Hwf. unfold get_valid_moves.
  destruct (get b r c) as [p|] eqn:Hp; [|eauto].
  destruct (gl_dfs_total search_fuel (clone b) r c [] [] p Hwf Hp) as [res Hres].
  { pose proof (gl_count_le (other (color p)) b). unfold search_fuel, clone. lia. }
  rewrite Hres. simpl. destruct (negb (is_nil res.2)); eauto.
Qed.

(** On a well-formed board [move_piece] answers, and leaves a well-formed
    board. *)
Lemma gl_move_piece_total (g : Game) start end_ :
  wf_board (board g) ->
  exists ok info g',
    move_piece g start end_ = (Return (ok, info), g') /\ wf_board (board g').
Proof.
  intros Hwf. destruct start as [sr sc], end_ as [er ec]. unfold move_piece.
  destruct (get (board g) sr sc) as [p|]; [|eauto 6].
  destruct (negb (color_eqb (color p) (turn g))); [eauto 6|].
  destruct (gl_get_valid_moves_total (board g) sr sc Hwf) as [valid ->].
  destruct (dict_get valid (er, ec)) as [captured|]; [|eauto 6].
  match goal with
  | |- context [crown_at ?b0 er ec ?p'] =>
      assert (Hwf' : wf_board (crown_at b0 er ec p'))
  end.
  { apply gl_wf_crown_at, gl_wf_remove_all, gl_wf_set, gl_wf_set. exact Hwf. }
  cbv zeta.
  destruct (negb (is_nil captured)).
  - match goal with
    | |- context [get_valid_moves ?b0 er ec] =>
        destruct (gl_get_valid_moves_total b0 er ec Hwf') as [more ->]
    end.
    destruct (existsb _ _); eauto 6.
  - eauto 6.
Qed.

End GameLogicTotal.

(** ** Rank never goes from King to Man *)

Section GameLogicRank.
Import GameLogic.

Lemma gl_get_remove (b : Board) r c r' c' x :
  get (remove b r c) r' c' = Some x -> get b r' c' = Some x.
Proof.
  unfold remove. intros H.
  destruct (gl_get_set b r c None r' c') as [E|(_ & E & _)]; congruence.
Qed.

Lemma gl_get_remove_all (b : Board) captured r' c' x :
  get (remove_all b captured) r' c' = Some x -> get b r' c' = Some x.
Proof.
  unfold remove_all. revert b.
  induction captured as [|[cr cc] l IH]; simpl; intros b H; [exact H|].
  apply IH in H. eapply gl_get_remove. exact H.
Qed.

Lemma gl_get_crown_at (b : Board) er ec p r' c' x :
  wf_board b ->
  get (crown_at b er ec p) r' c' = Some x ->
  ((r', c') = (er, ec) /\ x = p) \/ ((r', c') <> (er, ec) /\ get b r' c' = Some x).
Proof.
  unfold crown_at. intros Hwf H.
  destruct (decide ((r', c') = (er, ec))) as [Heq|Hne].
  - inversion Heq. subst r' c'. left. split; [reflexivity|].
    destruct (get b er ec) eqn:E; [|congruence].
    rewrite gl_get_set_same in H; [congruence|exact Hwf|].
    eapply gl_get_in_bounds. exact E.
  - right. split; [exact Hne|].
    destruct (get b er ec); [|exact H].
    rewrite gl_get_set_other in H by congruence. exact H.
Qed.

(** One call: a Man on [q] afterwards was that Man on its origin before. *)
Lemma gl_man_origin_step (g : Game) s e q x :
  wf_board (board g) ->
  get (board (move_piece g s e).2) q.1 q.2 = Some x ->
  king x = false ->
  let o := if gl_applied (move_piece g s e).1 then came_from s e q else q in
  get (board g) o.1 o.2 = Some x.
Proof.
  intros Hwf. destruct s as [sr sc], e as [er ec], q as [qr qc].
  unfold move_piece. simpl fst. simpl snd.
  destruct (get (board g) sr sc) as [p|] eqn:Hp; [|simpl; auto].
  destruct (negb (color_eqb (color p) (turn g))); [simpl; auto|].
  destruct (gl_get_valid_moves_total (board g) sr sc Hwf) as [valid ->].
  destruct (dict_get valid (er, ec)) as [captured|]; [|simpl; auto].
  cbv zeta.
  match goal with
  | |- context [crown_at ?b0 er ec ?p'] =>
      set (p1 := p'); set (b3 := b0);
      assert (Hwf' : wf_board (crown_at b3 er ec p1))
        by (apply gl_wf_crown_at, gl_wf_remove_all, gl_wf_set, gl_wf_set; exact Hwf)
  end.
  assert (Hmain :
            get (crown_at b3 er ec p1) qr qc = Some x -> king x = false ->
            get (board g) (came_from (sr, sc) (er, ec) (qr, qc)).1
                          (came_from (sr, sc) (er, ec) (qr, qc)).2 = Some x).
  { intros Hx Hman. unfold came_from.
    apply gl_get_crown_at in Hx as [[Heq ->]|[Hne Hx]];
      [| |unfold b3; apply gl_wf_remove_all, gl_wf_set, gl_wf_set; exact Hwf].
    - rewrite Heq, pos_eqb_refl. simpl.
      assert (p1 = p) as ->; [|exact Hp].
      unfold p1 in *. destruct (negb (king p)); [|reflexivity].
      destruct (color p); [destruct (er =? 7)|destruct (er =? 0)];
        try reflexivity; simpl in Hman; discriminate.
    - assert (pos_eqb (qr, qc) (er, ec) = false) as -> by (apply pos_eqb_neq; exact Hne).
      simpl. unfold b3 in Hx.
      apply gl_get_remove_all, gl_get_remove in Hx.
      rewrite gl_get_set_other in Hx by congruence. exact Hx. }
  destruct (negb (is_nil captured)).
  - destruct (gl_get_valid_moves_total _ er ec Hwf') as [more ->].
    destruct (existsb _ _); simpl; exact Hmain.
  - simpl. exact Hmain.
Qed.

Lemma gl_men_were_men (calls : list (pos * pos)) :
  forall (g : Game) q x,
    wf_board (board g) ->
    get (board (gl_play g calls)) q.1 q.2 = Some x ->
    king x = false ->
    get (board g) (gl_origin g calls q).1 (gl_origin g calls q).2 = Some x.
Proof.
  induction calls as [|[s e] calls IH]; intros g q x Hwf Hx Hman; [exact Hx|].
  simpl in Hx. cbn [gl_origin].
  destruct (gl_move_piece_total g s e Hwf) as (ok & info & g' & Hmove & Hwf').
  pose proof (IH (move_piece g s e).2 q x) as Hrest.
  rewrite Hmove in Hrest. simpl in Hrest. rewrite Hmove in Hx. simpl in Hx.
  specialize (Hrest Hwf' Hx Hman).
  pose proof (gl_man_origin_step g s e (gl_origin g' calls q) x Hwf) as Hstep.
  rewrite Hmove in Hstep. simpl in Hstep.
  rewrite Hmove. apply Hstep; assumption.
Qed.

End GameLogicRank.

Section EngineRank.
Import Engine.

Lemma promote_keeps_kings p row : is_king p = true -> promote p row = p.
Proof. destruct p; simpl; try discriminate; reflexivity. Qed.

Lemma promote_man p row : en_is_man (promote p row) = true -> promote p row = p.
Proof.
  unfold promote, BOARD_SIZE.
  destruct p; simpl; try reflexivity;
    destruct (row =? 0); destruct (row =? 8 - 1); simpl; try reflexivity;
    discriminate.
Qed.

Lemma en_get_in (b : Board) r c :
  wf_board b -> 0 <= r < 8 -> 0 <= c < 8 ->
  get b r c = Return (en_cell b (Z.to_nat r) (Z.to_nat c)).
Proof.
  intros Hwf Hr Hc. rewrite (en_get_wf b r c Hwf).
  rewrite !valid8_in, !norm8_in by assumption. reflexivity.
Qed.

Lemma only_emptied_refl b : only_emptied b b.
Proof. intros i j. auto. Qed.

Lemma only_emptied_trans b1 b2 b3 :
  only_emptied b1 b2 -> only_emptied b2 b3 -> only_emptied b1 b3.
Proof.
  intros H12 H23 i j. destruct (H23 i j) as [E|E]; [|auto].
  rewrite E. apply H12.
Qed.

Lemma en_set_empty (b b' : Board) r c :
  wf_board b -> set b r c Piece.EMPTY = Return b' ->
  wf_board b' /\ only_emptied b b'.
Proof.
  intros Hwf H. split; [eapply en_set_Return_wf; eauto|].
  rewrite en_set_wf in H by exact Hwf.
  destruct (valid8 r && valid8 c) eqn:Hv; [|discriminate].
  inversion H. subst b'. clear H.
  apply andb_true_iff in Hv as [Hr Hc].
  apply norm8_range in Hr, Hc.
  intros i j.
  destruct (decide ((Z.to_nat (norm8 r), Z.to_nat (norm8 c)) = (i, j))) as [E|E].
  - inversion E. right. apply en_cell_upd_same; [exact Hwf|lia|lia].
  - left. apply en_cell_upd_other. exact E.
Qed.

Lemma last_cons_shift {X} (l : list X) (x d : X) :
  List.last (x :: l) d = List.last l x.
Proof.
  revert x d. induction l as [|y l IH]; intros x d; [reflexivity|].
  change (List.last (x :: y :: l) d) with (List.last (y :: l) d).
  rewrite (IH y d), (IH y x). reflexivity.
Qed.

Lemma apply_hops_only_empties hops :
  forall (b : Board) src res b',
    wf_board b ->
    apply_hops b src hops = (res, b') ->
    wf_board b' /\ only_emptied b b' /\
    forall fin, res = Return fin -> fin = List.last hops src.
Proof.
  induction hops as [|dst hops IH]; intros b src res b' Hwf H.
  - simpl in H. inversion H. subst. split; [exact Hwf|].
    split; [apply only_emptied_refl|]. intros fin E. inversion E. reflexivity.
  - cbn [apply_hops] in H.
    rewrite (last_cons_shift hops dst src).
    destruct ((Z.abs (dst.1 - src.1) =? 2) && (Z.abs (dst.2 - src.2) =? 2)).
    + destruct (set b _ _ Piece.EMPTY) as [b1| |] eqn:Hset.
      * destruct (en_set_empty _ _ _ _ Hwf Hset) as [Hwf1 He1].
        destruct (IH _ _ _ _ Hwf1 H) as (Hwf' & He & Hfin).
        split; [exact Hwf'|]. split; [|exact Hfin].
        eapply only_emptied_trans; eauto.
      * inversion H. subst. split; [exact Hwf|].
        split; [apply only_emptied_refl|]. discriminate.
      * inversion H. subst. split; [exact Hwf|].
        split; [apply only_emptied_refl|]. discriminate.
    + apply (IH _ _ _ _ Hwf H).
Qed.

Lemma only_emptied_man (b b' : Board) q x :
  wf_board b -> wf_board b' -> only_emptied b b' ->
  0 <= q.1 < 8 -> 0 <= q.2 < 8 ->
  get b' q.1 q.2 = Return x -> en_is_man x = true ->
  get b q.1 q.2 = Return x.
Proof.
  intros Hwf Hwf' He Hr Hc Hx Hman.
  rewrite en_get_in in Hx by assumption. rewrite en_get_in by assumption.
  inversion Hx as [E]. destruct (He (Z.to_nat q.1) (Z.to_nat q.2)) as [E'|E'].
  - rewrite E'. reflexivity.
  - rewrite E' in E. subst x. discriminate.
Qed.

(** One call of [apply_move]: the board stays well formed, and a Man on [q]
    afterwards was that Man on its origin before. *)
Lemma en_man_origin_step (b : Board) (m : move) res (b' : Board) q x :
  wf_board b ->
  0 <= q.1 < 8 -> 0 <= q.2 < 8 ->
  apply_move b m = (res, b') ->
  let o := match res with
           | Return _ => en_came_from m q
           | _ => q
           end in
  wf_board b' /\
  (0 <= o.1 < 8 /\ 0 <= o.2 < 8) /\
  (get b' q.1 q.2 = Return x -> en_is_man x = true ->
   get b o.1 o.2 = Return x).
Proof.
  intros Hwf Hr Hc Hmove. unfold apply_move in Hmove.
  assert (Hsame : forall e : exn,
             wf_board b /\ (0 <= q.1 < 8 /\ 0 <= q.2 < 8) /\
             (get b q.1 q.2 = Return x -> en_is_man x = true ->
              get b q.1 q.2 = Return x)) by auto.
  destruct m as [|[src_r src_c] hops].
  { inversion Hmove. subst. apply (Hsame IndexError). }
  destruct hops as [|h hops].
  { inversion Hmove. subst. apply (Hsame IndexError). }
  remember (h :: hops) as hs eqn:Hhs.
  destruct (get b src_r src_c) as [piece| |] eqn:Hpiece;
    [|inversion Hmove; subst; apply (Hsame IndexError)
     |inversion Hmove; subst; apply (Hsame IndexError)].
  destruct (Piece.eqb piece Piece.EMPTY);
    [inversion Hmove; subst; apply (Hsame IndexError)|].
  destruct (set b src_r src_c Piece.EMPTY) as [b1| |] eqn:Hset1;
    [|inversion Hmove; subst; apply (Hsame IndexError)
     |inversion Hmove; subst; apply (Hsame IndexError)].
  destruct (en_set_empty _ _ _ _ Hwf Hset1) as [Hwf1 He1].
  destruct (apply_hops b1 (src_r, src_c) hs) as [res2 b2] eqn:Hhops.
  destruct (apply_hops_only_empties hs _ _ _ _ Hwf1 Hhops) as (Hwf2 & He2 & Hfin).
  pose proof (only_emptied_trans _ _ _ He1 He2) as He12.
  assert (Hfail : wf_board b2 /\ (0 <= q.1 < 8 /\ 0 <= q.2 < 8) /\
                   (get b2 q.1 q.2 = Return x -> en_is_man x = true ->
                    get b q.1 q.2 = Return x)).
  { split; [exact Hwf2|]. split; [auto|]. intros Hx Hman.
    eapply only_emptied_man with (b' := b2); eauto. }
  destruct res2 as [[fr fc]| |];
    [|inversion Hmove; subst; exact Hfail|inversion Hmove; subst; exact Hfail].
  specialize (Hfin _ eq_refl).
  destruct (set b2 fr fc (promote piece fr)) as [b3| |] eqn:Hset3;
    [|inversion Hmove; subst; exact Hfail|inversion Hmove; subst; exact Hfail].
  inversion Hmove. subst res b'. clear Hmove. cbv zeta.
  split; [eapply en_set_Return_wf; eauto|].
  rewrite en_set_wf in Hset3 by exact Hwf2.
  destruct (valid8 fr && valid8 fc) eqn:Hv; [|discriminate].
  inversion Hset3. subst b3. clear Hset3.
  apply andb_true_iff in Hv as [Hvr Hvc].
  pose proof (norm8_range _ Hvr) as Hnr. pose proof (norm8_range _ Hvc) as Hnc.
  rewrite en_get_wf in Hpiece by exact Hwf.
  destruct (valid8 src_r && valid8 src_c) eqn:Hvs; [|discriminate].
  apply andb_true_iff in Hvs as [Hvsr Hvsc].
  pose proof (norm8_range _ Hvsr) as Hnsr. pose proof (norm8_range _ Hvsc) as Hnsc.
  unfold en_came_from, came_from, norm_pos. rewrite <- Hfin. cbn [fst snd].
  destruct (pos_eqb q (norm8 fr, norm8 fc)) eqn:Hq.
  - apply pos_eqb_eq in Hq. subst q. cbn [fst snd] in *. split; [auto|].
    intros Hx Hman.
    rewrite en_get_in in Hx by (try apply en_upd_wf; assumption).
    rewrite en_cell_upd_same in Hx by (try assumption; lia).
    injection Hx as E. subst x. apply promote_man in Hman. rewrite Hman.
    rewrite en_get_in by assumption. exact Hpiece.
  - apply pos_eqb_neq in Hq. split; [auto|]. intros Hx Hman.
    rewrite en_get_in in Hx by (try apply en_upd_wf; assumption).
    rewrite en_cell_upd_other in Hx.
    + eapply only_emptied_man with (b' := b2); eauto.
      rewrite en_get_in by assumption. exact Hx.
    + intros E. apply Hq. destruct q as [qr qc]. cbn [fst snd] in *.
      inversion E. f_equal; lia.
Qed.

Lemma en_play_wf (calls : list move) :
  forall b : Board, wf_board b -> wf_board (en_play b calls).
Proof.
  induction calls as [|m calls IH]; intros b Hwf; [exact Hwf|].
  cbn [en_play]. apply IH.
  destruct (apply_move b m) as [res b'] eqn:Hmove.
  apply (en_man_origin_step b m res b' (0, 0) Piece.EMPTY Hwf); simpl; auto; lia.
Qed.

Lemma en_men_were_men (calls : list move) :
  forall (b : Board) q x,
    wf_board b ->
    0 <= q.1 < 8 -> 0 <= q.2 < 8 ->
    get (en_play b calls) q.1 q.2 = Return x ->
    en_is_man x = true ->
    get b (en_origin b calls q).1 (en_origin b calls q).2 = Return x /\
    0 <= (en_origin b calls q).1 < 8 /\ 0 <= (en_origin b calls q).2 < 8.
Proof.
  induction calls as [|m calls IH]; intros b q x Hwf Hr Hc Hx Hman; [simpl; auto|].
  cbn [en_play] in Hx. cbn [en_origin].
  destruct (apply_move b m) as [res b'] eqn:Hmove.
  cbn [snd] in Hx.
  assert (Hwf' : wf_board b').
  { apply (en_man_origin_step b m res b' (0, 0) Piece.EMPTY Hwf); simpl; auto; lia. }
  destruct (IH b' q x Hwf' Hr Hc Hx Hman) as (Hx' & Hr' & Hc').
  destruct (en_man_origin_step b m res b' (en_origin b' calls q) x Hwf Hr' Hc' Hmove)
    as (_ & Hin & Hget).
  split; [apply Hget; assumption|exact Hin].
Qed.

End EngineRank.

(** C6. Whatever calls of [move_piece] are made on a game, and whatever
    calls of [apply_move] on an engine board (failed calls included), a Man
    found on a square afterwards is the Man that stood on the origin of that
    square beforehand: the piece that a King was is never a Man later.
    [make_king] sets the rank to King and [promote] returns a King
    unchanged. *)
Theorem kings_are_never_demoted
    (g : GameLogic.Game) (gcalls : list (pos * pos)) (gq : pos)
    (gx : GameLogic.Piece)
    (b : Engine.Board) (calls : list Engine.move) (q : pos) (x : Engine.Piece.t) :
  GameLogic.wf_board (GameLogic.board g) ->
  GameLogic.get (GameLogic.board (gl_play g gcalls)) gq.1 gq.2 = Some gx ->
  GameLogic.king gx = false ->
  Engine.wf_board b ->
  0 <= q.1 < 8 -> 0 <= q.2 < 8 ->
  Engine.get (en_play b calls) q.1 q.2 = Return x ->
  en_is_man x = true ->
  GameLogic.get (GameLogic.board g)
                (gl_origin g gcalls gq).1 (gl_origin g gcalls gq).2 = Some gx /\
  Engine.get b (en_origin b calls q).1 (en_origin b calls q).2 = Return x /\
  (forall p, GameLogic.king (GameLogic.make_king p) = true) /\
  (forall p row, Engine.is_king p = true -> Engine.promote p row = p).
Proof.
  intros Hgwf Hgx Hgman Hwf Hr Hc Hx Hman. split; [|split; [|split]].
  - apply gl_men_were_men; assumption.
  - apply (en_men_were_men calls b q x); assumption.
  - reflexivity.
  - apply promote_keeps_kings.
Qed.

Lemma kings_are_never_demoted_witness :
  GameLogic.get (GameLogic.board Boards.crowning_capture) 0 1
    = Some Boards.red_man /\
  Engine.get Engine.setup_initial 5 0 = Return Engine.Piece.RED /\
  (forall p, GameLogic.king (GameLogic.make_king p) = true) /\
  (forall p row, Engine.is_king p = true -> Engine.promote p row = p).
Proof.
  apply (kings_are_never_demoted
           Boards.crowning_capture [((5, 2), (7, 4)); ((0, 1), (1, 2))] (1, 2)
           Boards.red_man
           Engine.setup_initial [[(5, 0); (4, 1)]; [(2, 1); (3, 0)]] (4, 1)
           Engine.Piece.RED).
  - apply gl_wf_board_of.
  - vm_compute. reflexivity.
  - reflexivity.
  - apply en_wf_initial.
  - simpl. lia.
  - simpl. lia.
  - vm_compute. reflexivity.
  - reflexivity.
Defined.

(** ** The searches over the store: same answers, nothing overwritten *)

Section StoreFacts.
Import Store.
Context {G : Type}.

Lemma lookup_fresh (h : heap G) (g : G) : (h ++ [g]) !! length h = Some g.
Proof. rewrite lookup_app_r by lia. rewrite Nat.sub_diag. reflexivity. Qed.

Lemma insert_fresh (h : heap G) (g x : G) :
  <[length h := x]> (h ++ [g]) = h ++ [x].
Proof.
  rewrite insert_app_r_alt by lia. rewrite Nat.sub_diag. reflexivity.
Qed.

Lemma lookup_old (h ext : heap G) (b : ref) (g : G) :
  h !! b = Some g -> (h ++ ext) !! b = Some g.
Proof. intros H. apply lookup_app_l_Some. exact H. Qed.

Lemma read_run (h : heap G) b g : h !! b = Some g -> read b h = (Return g, h).
Proof. unfold read. intros ->. reflexivity. Qed.

(** A loop over the store that reads the board at [s] and otherwise only
    adds objects computes what the pure loop computes. *)
Lemma foldST_sim {A B} (fs : A -> B -> M G A) (fp : A -> B -> result A)
      (s : ref) (g : G) (l : list B) :
  (forall a x (h : heap G), In x l -> h !! s = Some g ->
      exists ext, fs a x h = (fp a x, h ++ ext)) ->
  forall a (h : heap G), h !! s = Some g ->
    exists ext, foldST fs l a h = (foldM fp l a, h ++ ext).
Proof.
  induction l as [|x l IH]; intros Hstep a h Hs; simpl.
  - exists []. rewrite app_nil_r. reflexivity.
  - unfold bind. destruct (Hstep a x h (or_introl eq_refl) Hs) as [ext1 ->].
    destruct (fp a x) as [a'| |]; simpl; eauto.
    destruct (IH (fun a0 y h0 Hy => Hstep a0 y h0 (or_intror Hy)) a' (h ++ ext1))
      as [ext2 ->]; [apply lookup_old; exact Hs|].
    exists (ext1 ++ ext2). rewrite app_assoc. reflexivity.
Qed.

End StoreFacts.

Section StoreGameLogic.
Import Store.

Lemma st_gl_get (h : heap GameLogic.Board) b g r c :
  h !! b = Some g -> GL.get b r c h = (Return (GameLogic.get g r c), h).
Proof. intros H. unfold GL.get, bind. rewrite (read_run h b g H). reflexivity. Qed.

Lemma st_gl_set (h : heap GameLogic.Board) b g r c v :
  h !! b = Some g ->
  GL.set b r c v h = (Return tt, <[b := GameLogic.set g r c v]> h).
Proof. intros H. unfold GL.set, bind. rewrite (read_run h b g H). reflexivity. Qed.

Lemma st_gl_clone (h : heap GameLogic.Board) b g :
  h !! b = Some g -> GL.clone b h = (Return (length h), h ++ [g]).
Proof. intros H. unfold GL.clone, bind. rewrite (read_run h b g H). reflexivity. Qed.

Lemma st_gl_dfs fuel :
  forall (h : heap GameLogic.Board) s g sr sc captured jumps,
    h !! s = Some g ->
    exists ext,
      GL.dfs fuel sr sc s captured jumps h
      = (GameLogic.dfs fuel sr sc g captured jumps, h ++ ext).
Proof.
  induction fuel as [|fuel IH]; intros h s g sr sc captured jumps Hs.
  - exists []. rewrite app_nil_r. reflexivity.
  - cbn [GL.dfs GameLogic.dfs]. unfold bind at 1.
    rewrite (st_gl_get h s g sr sc Hs).
    destruct (GameLogic.get g sr sc) as [piece|].
    2:{ exists []. rewrite app_nil_r. reflexivity. }
    apply foldST_sim with (s := s) (g := g); [|exact Hs].
    clear h Hs. intros [found j] [dr dc] h _ Hs.
    unfold GL.dfs_step, GameLogic.dfs_step.
    destruct (negb (GameLogic.in_bounds (sr + dr) (sc + dc)
                    && GameLogic.in_bounds (sr + 2 * dr) (sc + 2 * dc))).
    { exists []. rewrite app_nil_r. reflexivity. }
    unfold bind at 1. rewrite (st_gl_get h s g _ _ Hs).
    unfold bind at 1. rewrite (st_gl_get h s g _ _ Hs).
    destruct (GameLogic.get g (sr + dr) (sc + dc)) as [m|].
    2:{ exists []. rewrite app_nil_r. reflexivity. }
    destruct (GameLogic.get g (sr + 2 * dr) (sc + 2 * dc)).
    { exists []. rewrite app_nil_r. reflexivity. }
    destruct (negb (GameLogic.color_eqb (GameLogic.color m) (GameLogic.color piece))).
    2:{ exists []. rewrite app_nil_r. reflexivity. }
    unfold bind at 1. rewrite (st_gl_clone h s g Hs).
    unfold bind at 1. rewrite (st_gl_get (h ++ [g]) (length h) g _ _ (lookup_fresh h g)).
    unfold bind at 1. unfold GL.remove.
    rewrite (st_gl_set (h ++ [g]) (length h) g _ _ _ (lookup_fresh h g)).
    rewrite insert_fresh.
    unfold bind at 1.
    rewrite (st_gl_set _ (length h) _ sr sc None (lookup_fresh h _)).
    rewrite insert_fresh.
    unfold bind at 1.
    rewrite (st_gl_set _ (length h) _ (sr + dr) (sc + dc) None (lookup_fresh h _)).
    rewrite insert_fresh.
    unfold bind at 1. unfold GameLogic.clone, GameLogic.remove.
    match goal with
    | |- context [GL.dfs fuel ?lr ?lc (length h) ?cap j (h ++ [?nb])] =>
        destruct (IH (h ++ [nb]) (length h) nb lr lc cap j (lookup_fresh h nb))
          as [ext ->]
    end.
    destruct (GameLogic.dfs fuel _ _ _ _ j) as [[more j']| |]; simpl;
      rewrite <- app_assoc; eexists; reflexivity.
Qed.

Lemma st_gl_simple_moves (h : heap GameLogic.Board) s g r c p :
  h !! s = Some g ->
  GL.simple_moves s r c p h = (Return (GameLogic.simple_moves g r c p), h).
Proof.
  intros Hs. unfold GL.simple_moves, GameLogic.simple_moves.
  generalize (@nil (pos * list pos)). generalize (GameLogic.dirs_of p).
  induction l as [|[dr dc] l IH]; intros acc; [reflexivity|].
  cbn [foldST fold_left]. unfold bind at 1. cbv zeta.
  destruct (GameLogic.in_bounds (r + dr) (c + dc)); cbn [andb].
  - unfold bind at 1. rewrite (st_gl_get h s g _ _ Hs).
    destruct (is_none (GameLogic.get g (r + dr) (c + dc))); apply IH.
  - apply IH.
Qed.

(** [get_valid_moves] over the store returns what [get_valid_moves] returns
    on the value of the board, and the store afterwards is the store before
    with new objects behind it. *)
Lemma st_gl_get_valid_moves (h : heap GameLogic.Board) self g r c :
  h !! self = Some g ->
  exists ext,
    GL.get_valid_moves self r c h = (GameLogic.get_valid_moves g r c, h ++ ext).
Proof.
  intros Hs. unfold GL.get_valid_moves, GameLogic.get_valid_moves.
  unfold bind at 1. rewrite (st_gl_get h self g r c Hs).
  destruct (GameLogic.get g r c) as [p|].
  2:{ exists []. rewrite app_nil_r. reflexivity. }
  unfold bind at 1. rewrite (st_gl_simple_moves h self g r c p Hs).
  unfold bind at 1. rewrite (st_gl_clone h self g Hs).
  unfold bind at 1.
  destruct (st_gl_dfs GameLogic.search_fuel (h ++ [g]) (length h) g r c [] []
              (lookup_fresh h g)) as [ext ->].
  unfold GameLogic.clone.
  destruct (GameLogic.dfs GameLogic.search_fuel r c g [] []) as [res| |]; simpl;
    try (exists ([g] ++ ext); rewrite app_assoc; reflexivity).
  destruct (negb (is_nil res.2)); exists ([g] ++ ext); rewrite app_assoc; reflexivity.
Qed.

End StoreGameLogic.

Section StoreEngine.
Import Store.

Lemma st_en_get (h : heap Engine.Board) b g r c :
  h !! b = Some g -> EN.get b r c h = (Engine.get g r c, h).
Proof. intros H. unfold EN.get, bind. rewrite (read_run h b g H). reflexivity. Qed.

Lemma st_en_set (h : heap Engine.Board) b g r c v :
  h !! b = Some g ->
  EN.set b r c v h
  = match Engine.set g r c v with
    | Return g' => (Return tt, <[b := g']> h)
    | Raise e => (Raise e, h)
    | OutOfFuel => (OutOfFuel, h)
    end.
Proof.
  intros H. unfold EN.set, bind. rewrite (read_run h b g H). unfold lift.
  destruct (Engine.set g r c v); reflexivity.
Qed.

Lemma st_en_clone (h : heap Engine.Board) b g :
  h !! b = Some g -> EN.clone b h = (Return (length h), h ++ [g]).
Proof. intros H. unfold EN.clone, bind. rewrite (read_run h b g H). reflexivity. Qed.

Lemma st_en_dfs fuel owner :
  forall (h : heap Engine.Board) s g cur_r cur_c path results,
    h !! s = Some g ->
    exists ext,
      EN.dfs fuel owner s cur_r cur_c path results h
      = (Engine.dfs fuel owner g cur_r cur_c path results, h ++ ext).
Proof.
  induction fuel as [|fuel IH]; intros h s g cur_r cur_c path results Hs.
  - exists []. rewrite app_nil_r. reflexivity.
  - cbn [EN.dfs Engine.dfs]. unfold bind at 1.
    rewrite (st_en_get h s g cur_r cur_c Hs).
    destruct (Engine.get g cur_r cur_c) as [p| |]; cbn [rbind];
      try (exists []; rewrite app_nil_r; reflexivity).
    unfold bind at 1.
    destruct (foldST_sim
                (EN.dfs_step (EN.dfs fuel owner) owner p s cur_r cur_c path)
                (Engine.dfs_step (Engine.dfs fuel owner) owner p g cur_r cur_c path)
                s g Engine.directions) with (a := (false, results)) (h := h)
      as [ext ->]; [|exact Hs|].
    2:{ destruct (foldM _ Engine.directions (false, results)) as [[moved rs]| |];
        cbn [rbind]; [|eexists; reflexivity|eexists; reflexivity].
        destruct (negb moved); [destruct (1 <? length path)%nat|];
          eexists; reflexivity. }
    clear h Hs. intros [moved rs] [dr dc] h _ Hs.
    unfold EN.dfs_step, Engine.dfs_step.
    destruct (negb (Engine.in_bounds (cur_r + dr) (cur_c + dc)
                    && Engine.in_bounds (cur_r + 2 * dr) (cur_c + 2 * dc))).
    { exists []. rewrite app_nil_r. reflexivity. }
    unfold bind at 1. rewrite (st_en_get h s g _ _ Hs).
    destruct (Engine.get g (cur_r + dr) (cur_c + dc)) as [mid| |]; cbn [rbind];
      try (exists []; rewrite app_nil_r; reflexivity).
    unfold bind at 1. rewrite (st_en_get h s g _ _ Hs).
    destruct (Engine.get g (cur_r + 2 * dr) (cur_c + 2 * dc)) as [land| |];
      cbn [rbind]; try (exists []; rewrite app_nil_r; reflexivity).
    destruct (negb (Engine.Piece.eqb land Engine.Piece.EMPTY)).
    { exists []. rewrite app_nil_r. reflexivity. }
    destruct (is_none (Engine.piece_owner mid)
              || Engine.owner_eqb (Engine.piece_owner mid) owner).
    { exists []. rewrite app_nil_r. reflexivity. }
    match goal with
    | |- context [if ?cnd then Store.ret (moved, rs) else _] => destruct cnd
    end.
    { exists []. rewrite app_nil_r. reflexivity. }
    unfold bind at 1. rewrite (st_en_clone h s g Hs). unfold Engine.clone.
    unfold bind at 1. rewrite (st_en_set _ (length h) g _ _ _ (lookup_fresh h g)).
    destruct (Engine.set g (cur_r + dr) (cur_c + dc) Engine.Piece.EMPTY)
      as [g1| |]; cbn [rbind]; try (eexists; reflexivity).
    rewrite insert_fresh.
    unfold bind at 1. rewrite (st_en_set _ (length h) g1 _ _ _ (lookup_fresh h g1)).
    destruct (Engine.set g1 cur_r cur_c Engine.Piece.EMPTY)
      as [g2| |]; cbn [rbind]; try (eexists; reflexivity).
    rewrite insert_fresh.
    unfold bind at 1. rewrite (st_en_set _ (length h) g2 _ _ _ (lookup_fresh h g2)).
    destruct (Engine.set g2 (cur_r + 2 * dr) (cur_c + 2 * dc) p)
      as [g3| |]; cbn [rbind]; try (eexists; reflexivity).
    rewrite insert_fresh.
    unfold bind at 1.
    destruct (IH (h ++ [g3]) (length h) g3 (cur_r + 2 * dr) (cur_c + 2 * dc)
                 (path ++ [(cur_r + 2 * dr, cur_c + 2 * dc)]) rs
                 (lookup_fresh h g3)) as [ext ->].
    destruct (Engine.dfs fuel owner g3 _ _ _ rs) as [rs'| |]; cbn [rbind];
      rewrite <- app_assoc; eexists; reflexivity.
Qed.

(** [_find_captures_from] over the store returns what it returns on the
    value of the board, and only adds objects to the store. *)
Lemma st_en_find_captures_from (h : heap Engine.Board) self g r c :
  h !! self = Some g ->
  exists ext,
    EN._find_captures_from self r c h
    = (Engine._find_captures_from g r c, h ++ ext).
Proof.
  intros Hs. unfold EN._find_captures_from, Engine._find_captures_from.
  unfold bind at 1. rewrite (st_en_get h self g r c Hs).
  destruct (Engine.get g r c) as [piece| |]; cbn [rbind];
    try (exists []; rewrite app_nil_r; reflexivity).
  destruct (Engine.Piece.eqb piece Engine.Piece.EMPTY).
  { exists []. rewrite app_nil_r. reflexivity. }
  unfold bind at 1. rewrite (st_en_clone h self g Hs). unfold Engine.clone.
  destruct (st_en_dfs Engine.search_fuel (Engine.piece_owner piece)
              (h ++ [g]) (length h) g r c [(r, c)] [] (lookup_fresh h g))
    as [ext ->].
  rewrite <- app_assoc. eexists. reflexivity.
Qed.

End StoreEngine.

(** ** The search of [_find_captures_from] returns *)

Section EngineTotal.
Import Engine.

Lemma en_set_in (b : Board) r c v :
  wf_board b -> 0 <= r < 8 -> 0 <= c < 8 ->
  set b r c v = Return (en_upd b (Z.to_nat r) (Z.to_nat c) v).
Proof.
  intros Hwf Hr Hc. rewrite (en_set_wf b r c v Hwf).
  rewrite !valid8_in, !norm8_in by assumption. reflexivity.
Qed.

Lemma en_count_upd (b : Board) r c v pl :
  wf_board b -> 0 <= r < 8 -> 0 <= c < 8 ->
  (en_count pl (en_upd b (Z.to_nat r) (Z.to_nat c) v)
   + en_ind pl (en_cell b (Z.to_nat r) (Z.to_nat c))
   = en_count pl b + en_ind pl v)%nat.
Proof.
  intros Hwf Hr Hc. unfold en_count, en_ind.
  pose proof (en_upd_wf b (Z.to_nat r) (Z.to_nat c) v Hwf) as Hwf'.
  pose proof (filter_length_change
                (fun q : pos => en_has_owner pl (get b q.1 q.2))
                (fun q : pos =>
                   en_has_owner pl
                     (get (en_upd b (Z.to_nat r) (Z.to_nat c) v) q.1 q.2))
                (r, c) squares) as H.
  cbn beta in H. cbn [fst snd] in H.
  rewrite !en_get_in in H by assumption.
  rewrite en_cell_upd_same in H by (try assumption; lia).
  rewrite (square_occurs_once r c Hr Hc) in H.
  cbn [en_has_owner] in H. apply H.
  intros [r' c'] Hin Hne. cbn [fst snd].
  apply squares_in_bounds in Hin as [Hr' Hc'].
  rewrite !en_get_in by assumption.
  rewrite en_cell_upd_other; [reflexivity|].
  intros E. apply Hne. inversion E. f_equal; lia.
Qed.

Lemma en_count_le pl (b : Board) : (en_count pl b <= 64)%nat.
Proof.
  unfold en_count. rewrite <- squares_length. apply List.filter_length_le.
Qed.

Lemma en_directions_unit dr dc :
  In (dr, dc) directions -> (dr = 1 \/ dr = -1) /\ (dc = 1 \/ dc = -1).
Proof.
  unfold directions. simpl. intros H.
  repeat destruct H as [H|H]; inversion H; auto.
Qed.

(** The snapshot after a jump: well formed, the jumping piece on the
    landing square, one opposing piece fewer. *)
Lemma en_jump_board (b : Board) cur_r cur_c dr dc p mid pl :
  wf_board b ->
  (dr = 1 \/ dr = -1) -> (dc = 1 \/ dc = -1) ->
  0 <= cur_r < 8 -> 0 <= cur_c < 8 ->
  in_bounds (cur_r + dr) (cur_c + dc) = true ->
  in_bounds (cur_r + 2 * dr) (cur_c + 2 * dc) = true ->
  get b cur_r cur_c = Return p ->
  piece_owner p = Some pl ->
  get b (cur_r + dr) (cur_c + dc) = Return mid ->
  get b (cur_r + 2 * dr) (cur_c + 2 * dc) = Return Piece.EMPTY ->
  is_none (piece_owner mid) || owner_eqb (piece_owner mid) (Some pl) = false ->
  exists b1 b2 b3,
    set (clone b) (cur_r + dr) (cur_c + dc) Piece.EMPTY = Return b1 /\
    set b1 cur_r cur_c Piece.EMPTY = Return b2 /\
    set b2 (cur_r + 2 * dr) (cur_c + 2 * dc) p = Return b3 /\
    wf_board b3 /\
    get b3 (cur_r + 2 * dr) (cur_c + 2 * dc) = Return p /\
    (en_count (en_other pl) b3 + 1 = en_count (en_other pl) b)%nat.
Proof.
  intros Hwf Hdr Hdc Hr Hc Hmid Hland Hp Hown Hm Hl Hopp. unfold clone.
  apply en_in_bounds_spec in Hmid as [Hmr Hmc].
  apply en_in_bounds_spec in Hland as [Hlr Hlc].
  set (b1 := en_upd b (Z.to_nat (cur_r + dr)) (Z.to_nat (cur_c + dc)) Piece.EMPTY).
  set (b2 := en_upd b1 (Z.to_nat cur_r) (Z.to_nat cur_c) Piece.EMPTY).
  set (b3 := en_upd b2 (Z.to_nat (cur_r + 2 * dr)) (Z.to_nat (cur_c + 2 * dc)) p).
  assert (Hwf1 : wf_board b1) by (apply en_upd_wf; exact Hwf).
  assert (Hwf2 : wf_board b2) by (apply en_upd_wf; exact Hwf1).
  assert (Hwf3 : wf_board b3) by (apply en_upd_wf; exact Hwf2).
  exists b1, b2, b3.
  split; [apply en_set_in; assumption|].
  split; [apply en_set_in; assumption|].
  split; [apply en_set_in; assumption|].
  split; [exact Hwf3|].
  rewrite en_get_in in Hp, Hm, Hl by assumption.
  injection Hp as Hp. injection Hm as Hm. injection Hl as Hl.
  split.
  - rewrite en_get_in by assumption. unfold b3.
    rewrite en_cell_upd_same by (try assumption; lia). reflexivity.
  - pose proof (en_count_upd b (cur_r + dr) (cur_c + dc) Piece.EMPTY (en_other pl)
                  Hwf Hmr Hmc) as C1.
    pose proof (en_count_upd b1 cur_r cur_c Piece.EMPTY (en_other pl)
                  Hwf1 Hr Hc) as C2.
    pose proof (en_count_upd b2 (cur_r + 2 * dr) (cur_c + 2 * dc) p (en_other pl)
                  Hwf2 Hlr Hlc) as C3.
    fold b1 in C1. fold b2 in C2. fold b3 in C3.
    assert (E1 : en_cell b1 (Z.to_nat cur_r) (Z.to_nat cur_c) = p).
    { unfold b1. rewrite en_cell_upd_other; [exact Hp|].
      intros E. inversion E. lia. }
    assert (E2 : en_cell b2 (Z.to_nat (cur_r + 2 * dr)) (Z.to_nat (cur_c + 2 * dc))
                 = Piece.EMPTY).
    { unfold b2. rewrite en_cell_upd_other by (intros E; inversion E; lia).
      unfold b1. rewrite en_cell_upd_other by (intros E; inversion E; lia).
      exact Hl. }
    rewrite Hm in C1. rewrite E1 in C2. rewrite E2 in C3.
    assert (I1 : en_ind (en_other pl) mid = 1%nat).
    { unfold en_ind. destruct mid, pl; simpl in *; try discriminate; reflexivity. }
    assert (I2 : en_ind (en_other pl) p = 0%nat).
    { unfold en_ind. rewrite Hown. destruct pl; reflexivity. }
    assert (I3 : en_ind (en_other pl) Piece.EMPTY = 0%nat) by reflexivity.
    rewrite I1, I3 in C1. rewrite I2, I3 in C2. rewrite I2, I3 in C3. lia.
Qed.

Lemma en_dfs_total fuel :
  forall (b : Board) cur_r cur_c path results p pl,
    wf_board b ->
    0 <= cur_r < 8 -> 0 <= cur_c < 8 ->
    get b cur_r cur_c = Return p ->
    piece_owner p = Some pl ->
    (en_count (en_other pl) b < fuel)%nat ->
    exists rs, dfs fuel (Some pl) b cur_r cur_c path results = Return rs.
Proof.
  induction fuel as [|fuel IH];
    intros b cur_r cur_c path results p pl Hwf Hr Hc Hp Hown Hlt; [lia|].
  cbn [dfs]. rewrite Hp. cbn [rbind].
  destruct (foldM_total_In
              (dfs_step (dfs fuel (Some pl)) (Some pl) p b cur_r cur_c path)
              directions) with (a := (false, results)) as [[moved rs] ->].
  2:{ cbn [rbind]. destruct (negb moved); [destruct (1 <? length path)%nat|]; eauto. }
  intros [mv rs] [dr dc] Hd.
  apply en_directions_unit in Hd as [Hdr Hdc].
  unfold dfs_step.
  destruct (in_bounds (cur_r + dr) (cur_c + dc)) eqn:Hmid; cbn [andb negb]; [|eauto].
  destruct (in_bounds (cur_r + 2 * dr) (cur_c + 2 * dc)) eqn:Hland; cbn [negb];
    [|eauto].
  pose proof Hmid as Hmid'. pose proof Hland as Hland'.
  apply en_in_bounds_spec in Hmid' as [Hmr Hmc].
  apply en_in_bounds_spec in Hland' as [Hlr Hlc].
  rewrite (en_get_in b (cur_r + dr) (cur_c + dc) Hwf Hmr Hmc). cbn [rbind].
  rewrite (en_get_in b (cur_r + 2 * dr) (cur_c + 2 * dc) Hwf Hlr Hlc). cbn [rbind].
  set (mid := en_cell b (Z.to_nat (cur_r + dr)) (Z.to_nat (cur_c + dc))).
  set (land := en_cell b (Z.to_nat (cur_r + 2 * dr)) (Z.to_nat (cur_c + 2 * dc))).
  destruct (Piece.eqb land Piece.EMPTY) eqn:Hl; cbn [negb]; [|eauto].
  destruct (is_none (piece_owner mid) || owner_eqb (piece_owner mid) (Some pl))
    eqn:Hopp; [eauto|].
  match goal with
  | |- context [if ?cnd then Return (mv, rs) else _] => destruct cnd; [eauto|]
  end.
  assert (Hland_empty : land = Piece.EMPTY) by (destruct land; simpl in Hl; congruence).
  destruct (en_jump_board b cur_r cur_c dr dc p mid pl Hwf Hdr Hdc Hr Hc Hmid Hland
              Hp Hown)
    as (b1 & b2 & b3 & -> & H2 & H3 & Hwf3 & Hp3 & Hcount); try assumption.
  { apply en_get_in; assumption. }
  { rewrite en_get_in by assumption. fold land. rewrite Hland_empty. reflexivity. }
  cbn [rbind]. rewrite H2. cbn [rbind]. rewrite H3. cbn [rbind].
  destruct (IH b3 (cur_r + 2 * dr) (cur_c + 2 * dc)
               (path ++ [(cur_r + 2 * dr, cur_c + 2 * dc)]) rs p pl
               Hwf3 Hlr Hlc Hp3 Hown) as [rs' ->]; [lia|].
  cbn [rbind]. eauto.
Qed.

Theorem en_find_captures_from_total (b : Board) r c :
  wf_board b -> 0 <= r < 8 -> 0 <= c < 8 ->
  exists caps, _find_captures_from b r c = Return caps.
Proof.
  intros Hwf Hr Hc. unfold _find_captures_from.
  rewrite (en_get_in b r c Hwf Hr Hc). cbn [rbind].
  remember (en_cell b (Z.to_nat r) (Z.to_nat c)) as piece eqn:Hpiece.
  destruct (Piece.eqb piece Piece.EMPTY) eqn:He; [eauto|].
  destruct (piece_owner piece) as [pl|] eqn:Hown.
  2:{ clear Hpiece. destruct piece; cbn in He, Hown; discriminate. }
  apply (en_dfs_total search_fuel (clone b) r c [(r, c)] [] piece pl); try assumption.
  - rewrite Hpiece. apply en_get_in; assumption.
  - pose proof (en_count_le (en_other pl) b). unfold search_fuel, clone. lia.
Qed.

End EngineTotal.

(** ** The capture search and the caller's board *)

(** C9. Run over a store of board objects, [get_valid_moves] (with its
    recursive [dfs]) and [_find_captures_from] return, return what they
    compute from the value of the board they are called on, and leave every
    board object that existed before the call, the caller's own included,
    holding the grid it held: every write goes to a clone made during the
    search. *)
Theorem capture_search_writes_only_to_its_clones
    (h : Store.heap GameLogic.Board) (self : Store.ref) (g : GameLogic.Board) r c
    (h2 : Store.heap Engine.Board) (self2 : Store.ref) (g2 : Engine.Board) r2 c2 :
  h !! self = Some g ->
  GameLogic.wf_board g ->
  h2 !! self2 = Some g2 ->
  Engine.wf_board g2 ->
  0 <= r2 < 8 -> 0 <= c2 < 8 ->
  (exists moves h',
      Store.GL.get_valid_moves self r c h = (Return moves, h') /\
      GameLogic.get_valid_moves g r c = Return moves /\
      forall b g0, h !! b = Some g0 -> h' !! b = Some g0) /\
  (exists caps h2',
      Store.EN._find_captures_from self2 r2 c2 h2 = (Return caps, h2') /\
      Engine._find_captures_from g2 r2 c2 = Return caps /\
      forall b g0, h2 !! b = Some g0 -> h2' !! b = Some g0).
Proof.
  intros Hs Hwf Hs2 Hwf2 Hr2 Hc2. split.
  - destruct (gl_get_valid_moves_total g r c Hwf) as [moves Hmoves].
    destruct (st_gl_get_valid_moves h self g r c Hs) as [ext Hrun].
    exists moves, (h ++ ext). rewrite Hrun, Hmoves.
    split; [reflexivity|]. split; [reflexivity|].
    intros b g0 Hb. apply lookup_old. exact Hb.
  - destruct (en_find_captures_from_total g2 r2 c2 Hwf2 Hr2 Hc2) as [caps Hcaps].
    destruct (st_en_find_captures_from h2 self2 g2 r2 c2 Hs2) as [ext Hrun].
    exists caps, (h2 ++ ext). rewrite Hrun, Hcaps.
    split; [reflexivity|]. split; [reflexivity|].
    intros b g0 Hb. apply lookup_old. exact Hb.
Qed.

Lemma capture_search_writes_only_to_its_clones_witness :
  (exists moves h',
      Store.GL.get_valid_moves 0%nat 2 3 [Boards.short_and_long]
        = (Return moves, h') /\
      GameLogic.get_valid_moves Boards.short_and_long 2 3 = Return moves /\
      forall b g0, [Boards.short_and_long] !! b = Some g0 -> h' !! b = Some g0) /\
  (exists caps h2',
      Store.EN._find_captures_from 0%nat 5 2 [Boards.en_short_and_long]
        = (Return caps, h2') /\
      Engine._find_captures_from Boards.en_short_and_long 5 2 = Return caps /\
      forall b g0, [Boards.en_short_and_long] !! b = Some g0 -> h2' !! b = Some g0).
Proof.
  apply (capture_search_writes_only_to_its_clones
           [Boards.short_and_long] 0%nat Boards.short_and_long 2 3
           [Boards.en_short_and_long] 0%nat Boards.en_short_and_long 5 2).
  - reflexivity.
  - apply gl_wf_board_of.
  - reflexivity.
  - apply en_wf_board_of.
  - lia.
  - lia.
Defined.

(** ** [apply_move] on a legal move conserves the pieces *)

Section EngineConservation.
Import Engine.

Lemma promote_owner p row : piece_owner (promote p row) = piece_owner p.
Proof.
  unfold promote, BOARD_SIZE.
  destruct p; simpl; try reflexivity;
    destruct (row =? 0); destruct (row =? 8 - 1); reflexivity.
Qed.

Lemma en_ind_owner pl p : piece_owner p = Some pl ->
  en_ind pl p = 1%nat /\ en_ind (en_other pl) p = 0%nat.
Proof. unfold en_ind. intros ->. destruct pl; auto. Qed.

(** What an iteration of the search loop that returns has done. *)
Lemma en_dfs_step_inv
    (rec : Board -> Z -> Z -> list pos -> list move -> result (list move))
    (b : Board) cur_r cur_c path mv rs dr dc mv' rs' p pl :
  wf_board b ->
  0 <= cur_r < 8 -> 0 <= cur_c < 8 ->
  dfs_step rec (Some pl) p b cur_r cur_c path (mv, rs) (dr, dc) = Return (mv', rs') ->
  (mv' = mv /\ rs' = rs) \/
  (in_bounds (cur_r + dr) (cur_c + dc) = true /\
   in_bounds (cur_r + 2 * dr) (cur_c + 2 * dc) = true /\
   en_cell b (Z.to_nat (cur_r + 2 * dr)) (Z.to_nat (cur_c + 2 * dc)) = Piece.EMPTY /\
   en_ind (en_other pl)
          (en_cell b (Z.to_nat (cur_r + dr)) (Z.to_nat (cur_c + dc))) = 1%nat /\
   en_ind pl (en_cell b (Z.to_nat (cur_r + dr)) (Z.to_nat (cur_c + dc))) = 0%nat /\
   mv' = true /\
   rec (jump_board b cur_r cur_c dr dc p) (cur_r + 2 * dr) (cur_c + 2 * dc)
       (path ++ [(cur_r + 2 * dr, cur_c + 2 * dc)]) rs = Return rs').
Proof.
  intros Hwf Hr Hc Hstep. unfold dfs_step in Hstep.
  destruct (in_bounds (cur_r + dr) (cur_c + dc)) eqn:Hmid; cbn [andb negb] in Hstep;
    [|left; inversion Hstep; auto].
  destruct (in_bounds (cur_r + 2 * dr) (cur_c + 2 * dc)) eqn:Hland;
    cbn [negb] in Hstep; [|left; inversion Hstep; auto].
  pose proof Hmid as Hmid'. pose proof Hland as Hland'.
  apply en_in_bounds_spec in Hmid' as [Hmr Hmc].
  apply en_in_bounds_spec in Hland' as [Hlr Hlc].
  rewrite (en_get_in b (cur_r + dr) (cur_c + dc) Hwf Hmr Hmc) in Hstep.
  cbn [rbind] in Hstep.
  rewrite (en_get_in b (cur_r + 2 * dr) (cur_c + 2 * dc) Hwf Hlr Hlc) in Hstep.
  cbn [rbind] in Hstep.
  remember (en_cell b (Z.to_nat (cur_r + dr)) (Z.to_nat (cur_c + dc))) as mid.
  remember (en_cell b (Z.to_nat (cur_r + 2 * dr)) (Z.to_nat (cur_c + 2 * dc))) as land.
  destruct (Piece.eqb land Piece.EMPTY) eqn:Hl; cbn [negb] in Hstep;
    [|left; inversion Hstep; auto].
  destruct (is_none (piece_owner mid) || owner_eqb (piece_owner mid) (Some pl))
    eqn:Hopp; [left; inversion Hstep; auto|].
  match type of Hstep with
  | (if ?cnd then _ else _) = _ => destruct cnd; [left; inversion Hstep; auto|]
  end.
  right. unfold clone in Hstep.
  rewrite (en_set_in b _ _ Piece.EMPTY Hwf Hmr Hmc) in Hstep. cbn [rbind] in Hstep.
  rewrite (en_set_in _ _ _ Piece.EMPTY (en_upd_wf _ _ _ _ Hwf) Hr Hc) in Hstep.
  cbn [rbind] in Hstep.
  rewrite (en_set_in _ _ _ p (en_upd_wf _ _ _ _ (en_upd_wf _ _ _ _ Hwf)) Hlr Hlc)
    in Hstep.
  cbn [rbind] in Hstep. fold (jump_board b cur_r cur_c dr dc p) in Hstep.
  apply rbind_Return in Hstep as (rs2 & Hrec & Hret). inversion Hret. subst.
  repeat split; try reflexivity; try exact Hrec.
  - destruct (en_cell b (Z.to_nat (cur_r + 2 * dr)) (Z.to_nat (cur_c + 2 * dc)));
      cbn in Hl; congruence.
  - unfold en_ind.
    destruct (en_cell b (Z.to_nat (cur_r + dr)) (Z.to_nat (cur_c + dc))), pl;
      cbn in Hopp |- *; congruence.
  - unfold en_ind.
    destruct (en_cell b (Z.to_nat (cur_r + dr)) (Z.to_nat (cur_c + dc))), pl;
      cbn in Hopp |- *; congruence.
Qed.

Lemma jump_board_wf (b : Board) cur_r cur_c dr dc p :
  wf_board b -> wf_board (jump_board b cur_r cur_c dr dc p).
Proof. intros Hwf. unfold jump_board. repeat apply en_upd_wf. exact Hwf. Qed.

Lemma en_cell_upd (b : Board) r c v i j :
  wf_board b -> (r < 8)%nat -> (c < 8)%nat ->
  en_cell (en_upd b r c v) i j
  = if decide ((r, c) = (i, j)) then v else en_cell b i j.
Proof.
  intros Hwf Hr Hc. destruct (decide ((r, c) = (i, j))) as [E|N].
  - inversion E. subst. apply en_cell_upd_same; assumption.
  - apply en_cell_upd_other. exact N.
Qed.

(** The hand board after a jump: the landing square emptied on the new
    snapshot is the captured square emptied on the old hand board. *)
Lemma jump_board_hand (b B : Board) cur_r cur_c dr dc p :
  wf_board b -> wf_board B ->
  (dr = 1 \/ dr = -1) -> (dc = 1 \/ dc = -1) ->
  0 <= cur_r < 8 -> 0 <= cur_c < 8 ->
  0 <= cur_r + dr < 8 -> 0 <= cur_c + dc < 8 ->
  0 <= cur_r + 2 * dr < 8 -> 0 <= cur_c + 2 * dc < 8 ->
  en_cell b (Z.to_nat (cur_r + 2 * dr)) (Z.to_nat (cur_c + 2 * dc)) = Piece.EMPTY ->
  (forall i j,
      en_cell B i j
      = en_cell (en_upd b (Z.to_nat cur_r) (Z.to_nat cur_c) Piece.EMPTY) i j) ->
  forall i j,
    en_cell (en_upd B (Z.to_nat (cur_r + dr)) (Z.to_nat (cur_c + dc)) Piece.EMPTY) i j
    = en_cell (en_upd (jump_board b cur_r cur_c dr dc p)
                      (Z.to_nat (cur_r + 2 * dr)) (Z.to_nat (cur_c + 2 * dc))
                      Piece.EMPTY) i j.
Proof.
  intros Hwf HwfB Hdr Hdc Hr Hc Hmr Hmc Hlr Hlc Hl HB i j.
  pose proof (jump_board_wf b cur_r cur_c dr dc p Hwf) as Hwfj.
  pose proof (en_upd_wf b (Z.to_nat (cur_r + dr)) (Z.to_nat (cur_c + dc))
                Piece.EMPTY Hwf) as Hwf1.
  pose proof (en_upd_wf _ (Z.to_nat cur_r) (Z.to_nat cur_c) Piece.EMPTY Hwf1) as Hwf2.
  rewrite (en_cell_upd B) by (try assumption; lia).
  rewrite (en_cell_upd (jump_board b cur_r cur_c dr dc p)) by (try assumption; lia).
  unfold jump_board.
  rewrite (en_cell_upd _ _ _ p) by (try assumption; lia).
  rewrite (en_cell_upd _ (Z.to_nat cur_r)) by (try assumption; lia).
  rewrite (en_cell_upd b (Z.to_nat (cur_r + dr))) by (try assumption; lia).
  rewrite HB. rewrite (en_cell_upd b (Z.to_nat cur_r)) by (try assumption; lia).
  repeat case_decide; try reflexivity;
    repeat match goal with
           | E : (_, _) = (_, _) |- _ => inversion E; clear E
           end; subst; try lia; try congruence.
Qed.

Lemma replays_nil (b : Board) cur pl :
  wf_board b -> 0 <= cur.1 < 8 -> 0 <= cur.2 < 8 -> replays b cur pl [].
Proof.
  intros Hwf Hr Hc B HwfB HB. exists cur, B. cbn [apply_hops length].
  split; [reflexivity|]. split; [exact HwfB|]. split; [auto|].
  split; [|split; [reflexivity|lia]].
  rewrite HB. apply en_cell_upd_same; try assumption; lia.
Qed.

Lemma replays_jump (b : Board) cur_r cur_c dr dc p pl suffix :
  wf_board b ->
  (dr = 1 \/ dr = -1) -> (dc = 1 \/ dc = -1) ->
  0 <= cur_r < 8 -> 0 <= cur_c < 8 ->
  in_bounds (cur_r + dr) (cur_c + dc) = true ->
  in_bounds (cur_r + 2 * dr) (cur_c + 2 * dc) = true ->
  en_cell b (Z.to_nat (cur_r + 2 * dr)) (Z.to_nat (cur_c + 2 * dc)) = Piece.EMPTY ->
  en_ind (en_other pl)
         (en_cell b (Z.to_nat (cur_r + dr)) (Z.to_nat (cur_c + dc))) = 1%nat ->
  en_ind pl (en_cell b (Z.to_nat (cur_r + dr)) (Z.to_nat (cur_c + dc))) = 0%nat ->
  replays (jump_board b cur_r cur_c dr dc p)
          (cur_r + 2 * dr, cur_c + 2 * dc) pl suffix ->
  replays b (cur_r, cur_c) pl ((cur_r + 2 * dr, cur_c + 2 * dc) :: suffix).
Proof.
  intros Hwf Hdr Hdc Hr Hc Hmid Hland Hl Hopp Hown Hrest B HwfB HB.
  apply en_in_bounds_spec in Hmid as [Hmr Hmc].
  apply en_in_bounds_spec in Hland as [Hlr Hlc].
  cbn [fst snd] in HB.
  cbn [apply_hops fst snd].
  assert (((Z.abs (cur_r + 2 * dr - cur_r) =? 2)
           && (Z.abs (cur_c + 2 * dc - cur_c) =? 2)) = true) as ->.
  { apply andb_true_iff. split; apply Z.eqb_eq; lia. }
  assert ((cur_r + 2 * dr + cur_r) / 2 = cur_r + dr) as ->.
  { replace (cur_r + 2 * dr + cur_r) with ((cur_r + dr) * 2) by lia.
    apply Z.div_mul. lia. }
  assert ((cur_c + 2 * dc + cur_c) / 2 = cur_c + dc) as ->.
  { replace (cur_c + 2 * dc + cur_c) with ((cur_c + dc) * 2) by lia.
    apply Z.div_mul. lia. }
  rewrite (en_set_in B _ _ Piece.EMPTY HwfB Hmr Hmc).
  set (B1 := en_upd B (Z.to_nat (cur_r + dr)) (Z.to_nat (cur_c + dc)) Piece.EMPTY).
  assert (HwfB1 : wf_board B1) by (apply en_upd_wf; exact HwfB).
  destruct (Hrest B1 HwfB1) as (fin & B' & Hrun & HwfB' & Hfin & Hempty & Hcpl & Hcop).
  { cbn [fst snd]. apply jump_board_hand; assumption. }
  exists fin, B'. split; [exact Hrun|]. split; [exact HwfB'|].
  split; [exact Hfin|]. split; [exact Hempty|].
  assert (Hcell : en_cell B (Z.to_nat (cur_r + dr)) (Z.to_nat (cur_c + dc))
                  = en_cell b (Z.to_nat (cur_r + dr)) (Z.to_nat (cur_c + dc))).
  { rewrite HB. apply en_cell_upd_other. intros E. inversion E. lia. }
  pose proof (en_count_upd B (cur_r + dr) (cur_c + dc) Piece.EMPTY pl
                HwfB Hmr Hmc) as C1.
  pose proof (en_count_upd B (cur_r + dr) (cur_c + dc) Piece.EMPTY (en_other pl)
                HwfB Hmr Hmc) as C2.
  fold B1 in C1, C2. rewrite Hcell in C1, C2. rewrite Hown in C1. rewrite Hopp in C2.
  assert (I1 : en_ind pl Piece.EMPTY = 0%nat) by reflexivity.
  assert (I2 : en_ind (en_other pl) Piece.EMPTY = 0%nat) by reflexivity.
  rewrite I1 in C1. rewrite I2 in C2. cbn [length]. split; lia.
Qed.

Lemma en_dfs_replays fuel :
  forall (b : Board) cur_r cur_c path results results' pl,
    wf_board b ->
    0 <= cur_r < 8 -> 0 <= cur_c < 8 ->
    dfs fuel (Some pl) b cur_r cur_c path results = Return results' ->
    exists new,
      results' = results ++ new /\
      Forall (fun m => exists suffix,
                  m = path ++ suffix /\ replays b (cur_r, cur_c) pl suffix) new.
Proof.
  induction fuel as [|fuel IH];
    intros b cur_r cur_c path results results' pl Hwf Hr Hc H; cbn [dfs] in H.
  - discriminate.
  - apply rbind_Return in H as (p0 & _ & H).
    apply rbind_Return in H as ([moved res1] & Hfold & H).
    assert (Hinv : exists new,
               res1 = results ++ new /\
               Forall (fun m => exists suffix,
                           m = path ++ suffix /\
                           replays b (cur_r, cur_c) pl suffix) new /\
               (moved = false -> new = [])).
    { revert Hfold.
      apply foldM_inv_In with
        (P := fun acc : bool * list move =>
                exists new,
                  acc.2 = results ++ new /\
                  Forall (fun m => exists suffix,
                              m = path ++ suffix /\
                              replays b (cur_r, cur_c) pl suffix) new /\
                  (acc.1 = false -> new = []));
        [|exists []; rewrite app_nil_r; auto].
      intros [mv rs] [dr dc] [mv' rs'] Hd (new & Hrs & Hall & Hmv) Hstep.
      cbn [fst snd] in Hrs, Hmv. subst rs.
      apply en_directions_unit in Hd as [Hdr Hdc].
      apply en_dfs_step_inv in Hstep; try assumption.
      destruct Hstep as [[-> ->]|(Hmid & Hland & Hl & Hopp & Hown & -> & Hrec)].
      { exists new. auto. }
      pose proof Hland as Hland'. apply en_in_bounds_spec in Hland' as [Hlr Hlc].
      apply (IH _ _ _ _ _ _ pl (jump_board_wf b cur_r cur_c dr dc p0 Hwf) Hlr Hlc)
        in Hrec as (new2 & -> & Hall2).
      exists (new ++ new2). cbn [fst snd].
      split; [rewrite app_assoc; reflexivity|]. split; [|discriminate].
      apply Forall_app. split; [exact Hall|].
      eapply Forall_impl; [exact Hall2|]. cbv beta.
      intros m (suffix & -> & Hsuffix).
      exists ((cur_r + 2 * dr, cur_c + 2 * dc) :: suffix).
      split; [rewrite <- app_assoc; reflexivity|].
      apply (replays_jump b cur_r cur_c dr dc p0 pl suffix); assumption. }
    destruct Hinv as (new & -> & Hall & Hmv).
    destruct moved; cbn [negb] in H.
    + inversion H. subst. exists new. auto.
    + rewrite (Hmv eq_refl) in *. rewrite app_nil_r in *.
      destruct (1 <? length path)%nat; inversion H; subst.
      * exists [path]. split; [reflexivity|]. constructor; [|constructor].
        exists []. rewrite app_nil_r. split; [reflexivity|].
        apply replays_nil; assumption.
      * exists []. rewrite app_nil_r. split; [reflexivity|constructor].
Qed.

End EngineConservation.

Section EngineConservationFinal.
Import Engine.

(** A simple move leads to a square of the board that is empty. *)
Lemma find_simple_moves_targets (b : Board) r c steps m :
  wf_board b ->
  _find_simple_moves_from b r c = Return steps ->
  In m steps ->
  exists nr nc,
    m = [(r, c); (nr, nc)] /\
    (Z.abs (nr - r) = 1 /\ Z.abs (nc - c) = 1) /\
    (0 <= nr < 8 /\ 0 <= nc < 8) /\
    en_cell b (Z.to_nat nr) (Z.to_nat nc) = Piece.EMPTY.
Proof.
  intros Hwf H Hin. unfold _find_simple_moves_from in H.
  apply rbind_Return in H as (piece & _ & H).
  destruct (Piece.eqb piece Piece.EMPTY); [inversion H; subst; destruct Hin|].
  pose (tgt := fun m : move =>
          exists nr nc,
            m = [(r, c); (nr, nc)] /\
            (Z.abs (nr - r) = 1 /\ Z.abs (nc - c) = 1) /\
            (0 <= nr < 8 /\ 0 <= nc < 8) /\
            en_cell b (Z.to_nat nr) (Z.to_nat nc) = Piece.EMPTY).
  assert (Hall : Forall tgt steps).
  { revert H. apply foldM_inv_In with (P := Forall tgt); [|constructor].
    intros acc [dr dc] acc' Hd Hacc Hstep.
    assert (Hdir : (dr = 1 \/ dr = -1) /\ (dc = 1 \/ dc = -1)).
    { destruct (is_king piece); [|destruct (owner_eqb _ _)]; simpl in Hd;
        repeat destruct Hd as [Hd|Hd]; inversion Hd; auto. }
    destruct (in_bounds (r + dr) (c + dc)) eqn:Hb; cbn [negb] in Hstep;
      [|inversion Hstep; subst; exact Hacc].
    apply en_in_bounds_spec in Hb as [Hnr Hnc].
    rewrite (en_get_in b _ _ Hwf Hnr Hnc) in Hstep. cbn [rbind] in Hstep.
    destruct (Piece.eqb (en_cell b (Z.to_nat (r + dr)) (Z.to_nat (c + dc)))
                        Piece.EMPTY) eqn:He;
      inversion Hstep; subst; [|exact Hacc].
    apply Forall_app. split; [exact Hacc|]. constructor; [|constructor].
    exists (r + dr), (c + dc). split; [reflexivity|]. split; [lia|]. split; [auto|].
    destruct (en_cell b (Z.to_nat (r + dr)) (Z.to_nat (c + dc))); cbn in He;
      congruence. }
  rewrite List.Forall_forall in Hall. apply Hall. exact Hin.
Qed.

(** [apply_move] once the hops have been replayed on the hand board. *)
Lemma apply_move_after_hops (b B' : Board) r c piece pl h hops fin k :
  wf_board b ->
  0 <= r < 8 -> 0 <= c < 8 ->
  get b r c = Return piece ->
  piece_owner piece = Some pl ->
  apply_hops (en_upd b (Z.to_nat r) (Z.to_nat c) Piece.EMPTY) (r, c) (h :: hops)
    = (Return fin, B') ->
  wf_board B' ->
  0 <= fin.1 < 8 -> 0 <= fin.2 < 8 ->
  en_cell B' (Z.to_nat fin.1) (Z.to_nat fin.2) = Piece.EMPTY ->
  en_count pl B' = en_count pl (en_upd b (Z.to_nat r) (Z.to_nat c) Piece.EMPTY) ->
  (en_count (en_other pl) B' + k
   = en_count (en_other pl) (en_upd b (Z.to_nat r) (Z.to_nat c) Piece.EMPTY))%nat ->
  exists b',
    apply_move b ((r, c) :: h :: hops) = (Return tt, b') /\
    en_count pl b' = en_count pl b /\
    (en_count (en_other pl) b' + k = en_count (en_other pl) b)%nat.
Proof.
  intros Hwf Hr Hc Hp Hown Hhops HwfB' Hfr Hfc Hempty Hcpl Hcop.
  unfold apply_move. rewrite Hp.
  assert (Piece.eqb piece Piece.EMPTY = false) as ->.
  { destruct piece; cbn in Hown |- *; congruence. }
  rewrite (en_set_in b r c Piece.EMPTY Hwf Hr Hc). rewrite Hhops.
  destruct fin as [fr fc]. cbn [fst snd] in *.
  rewrite (en_set_in B' fr fc _ HwfB' Hfr Hfc).
  eexists. split; [reflexivity|].
  rewrite en_get_in in Hp by assumption. injection Hp as Hp.
  destruct (en_ind_owner pl piece Hown) as [I1 I2].
  assert (Hown' : piece_owner (promote piece fr) = Some pl)
    by (rewrite promote_owner; exact Hown).
  destruct (en_ind_owner pl _ Hown') as [I3 I4].
  pose proof (en_count_upd b r c Piece.EMPTY pl Hwf Hr Hc) as C1.
  pose proof (en_count_upd b r c Piece.EMPTY (en_other pl) Hwf Hr Hc) as C2.
  pose proof (en_count_upd B' fr fc (promote piece fr) pl HwfB' Hfr Hfc) as C3.
  pose proof (en_count_upd B' fr fc (promote piece fr) (en_other pl) HwfB' Hfr Hfc)
    as C4.
  rewrite Hp in C1, C2. rewrite Hempty in C3, C4.
  rewrite I1 in C1. rewrite I2 in C2. rewrite I3 in C3. rewrite I4 in C4.
  assert (J1 : en_ind pl Piece.EMPTY = 0%nat) by reflexivity.
  assert (J2 : en_ind (en_other pl) Piece.EMPTY = 0%nat) by reflexivity.
  rewrite J1 in C1, C3. rewrite J2 in C2, C4. split; lia.
Qed.

(** X2. Conservation on the engine's own searches.  A sequence returned
    by [_find_captures_from] or by [_find_simple_moves_from] for a piece
    on the board is applied by [apply_move] without fault; the owner of
    the piece keeps its number of pieces, and the other side loses one
    piece per hop of a capture and none on a simple move. *)
Theorem found_moves_conserve_pieces (b : Board) r c piece pl ms m :
  wf_board b ->
  0 <= r < 8 -> 0 <= c < 8 ->
  get b r c = Return piece ->
  piece_owner piece = Some pl ->
  _find_captures_from b r c = Return ms
  \/ _find_simple_moves_from b r c = Return ms ->
  In m ms ->
  exists b',
    apply_move b m = (Return tt, b') /\
    en_count pl b' = en_count pl b /\
    (en_count (en_other pl) b' + (if is_capture m then length m - 1 else 0)
     = en_count (en_other pl) b)%nat.
Proof.
  intros Hwf Hr Hc Hp Hown Hsrc Hm.
  pose proof (en_upd_wf b (Z.to_nat r) (Z.to_nat c) Piece.EMPTY Hwf) as Hwf1.
  destruct Hsrc as [Hcaps|Hsteps].
  - pose proof (find_captures_are_jumps b r c ms Hcaps) as Hjumps.
    rewrite List.Forall_forall in Hjumps. specialize (Hjumps m Hm).
    destruct (jump_is_capture r c m Hjumps) as [Hcap _]. rewrite Hcap.
    unfold _find_captures_from in Hcaps. rewrite Hp in Hcaps. cbn [rbind] in Hcaps.
    assert (Piece.eqb piece Piece.EMPTY = false) as Hne.
    { destruct piece; cbn in Hown |- *; congruence. }
    rewrite Hne, Hown in Hcaps. unfold clone in Hcaps.
    apply en_dfs_replays in Hcaps as (new & Hnew & Hall); try assumption.
    cbn [app] in Hnew. subst new.
    rewrite List.Forall_forall in Hall.
    destruct (Hall m Hm) as (suffix & -> & Hreplay).
    destruct Hjumps as (dr & dc & rest & _ & _ & Heq).
    cbn [app] in Heq. injection Heq as Heq. subst suffix.
    destruct (Hreplay _ Hwf1 (fun i j => eq_refl))
      as (fin & B' & Hrun & HwfB' & [Hfr Hfc] & Hempty & Hcpl & Hcop).
    cbn [fst snd] in Hrun.
    destruct (apply_move_after_hops b B' r c piece pl _ rest fin
                (length ((r + 2 * dr, c + 2 * dc) :: rest))
                Hwf Hr Hc Hp Hown Hrun HwfB' Hfr Hfc Hempty Hcpl Hcop)
      as (b' & Hmove & H1 & H2).
    exists b'. split; [exact Hmove|]. split; [exact H1|].
    rewrite <- H2. rewrite List.length_app. reflexivity.
  - destruct (find_simple_moves_targets b r c ms m Hwf Hsteps Hm)
      as (nr & nc & -> & [Hdr Hdc] & [Hnr Hnc] & Hempty).
    assert (Hcap : is_capture [(r, c); (nr, nc)] = false).
    { cbn. apply andb_false_iff. left. apply Z.eqb_neq. lia. }
    rewrite Hcap.
    assert (Hrun : apply_hops (en_upd b (Z.to_nat r) (Z.to_nat c) Piece.EMPTY)
                              (r, c) [(nr, nc)]
                   = (Return (nr, nc),
                      en_upd b (Z.to_nat r) (Z.to_nat c) Piece.EMPTY)).
    { cbn [apply_hops fst snd].
      assert (((Z.abs (nr - r) =? 2) && (Z.abs (nc - c) =? 2)) = false) as ->.
      { apply andb_false_iff. left. apply Z.eqb_neq. lia. }
      reflexivity. }
    apply (apply_move_after_hops b _ r c piece pl (nr, nc) [] (nr, nc) 0%nat
             Hwf Hr Hc Hp Hown Hrun Hwf1); cbn [fst snd]; try assumption;
      try reflexivity; try lia.
    rewrite en_cell_upd_other; [exact Hempty|].
    intros E. inversion E. lia.
Qed.

End EngineConservationFinal.

(** ** The terminal check *)

Section TerminalCheck.
Import Engine.

(** The [any(...)] of [is_game_over] and [winner] on a board of eight
    rows of eight: whether the player owns a piece. *)
Lemma en_exists_piece_count (b : Board) pl :
  wf_board b -> exists_piece b pl = Return (0 <? en_count pl b)%nat.
Proof.
  intros Hwf. unfold exists_piece, en_count.
  assert (Hgen : forall l, (forall q, In q l -> In q squares) ->
             anyM (fun '(r, c) =>
                     do p <- get b r c;
                     Return (owner_eqb (piece_owner p) (Some pl))) l
             = Return (0 <? length
                         (List.filter
                            (fun q : pos => en_has_owner pl (get b q.1 q.2)) l))%nat).
  { induction l as [|[r c] l IH]; intros Hsub; cbn [anyM List.filter]; [reflexivity|].
    destruct (squares_in_bounds r c (Hsub _ (or_introl eq_refl))) as [Hr Hc].
    cbn [fst snd]. rewrite (en_get_in b r c Hwf Hr Hc). cbn [rbind en_has_owner].
    destruct (owner_eqb _ (Some pl)); [reflexivity|].
    apply IH. intros q Hq. apply Hsub. right. exact Hq. }
  apply Hgen. auto.
Qed.




End TerminalCheck.

(** * Further properties of the code *)

(** ** [legal_moves], [is_game_over] and [winner] on any board *)

Section EngineReturns.
Import Engine.

Lemma en_find_simple_moves_total (b : Board) r c :
  wf_board b -> 0 <= r < 8 -> 0 <= c < 8 ->
  exists steps, _find_simple_moves_from b r c = Return steps.
Proof.
  intros Hwf Hr Hc. unfold _find_simple_moves_from.
  rewrite (en_get_in b r c Hwf Hr Hc). cbn [rbind].
  destruct (Piece.eqb _ Piece.EMPTY); [eauto|].
  apply foldM_total_In. intros moves [dr dc] _.
  destruct (in_bounds (r + dr) (c + dc)) eqn:Hb; cbn [negb]; [|eauto].
  apply en_in_bounds_spec in Hb as [Hnr Hnc].
  rewrite (en_get_in b _ _ Hwf Hnr Hnc). cbn [rbind].
  destruct (Piece.eqb _ Piece.EMPTY); eauto.
Qed.

(** X1. [legal_moves] looks its two searches up on the board, which has
    no attribute of those names: on a board of eight rows of eight it
    raises [AttributeError] at the first square that holds a piece of
    the player, whatever [max_capture] is, and returns the empty list
    when the player owns no piece.  It returns no move at all. *)
Theorem legal_moves_raises_at_the_first_piece (b : Board) pl mc :
  wf_board b ->
  legal_moves b pl mc
  = if (en_count pl b =? 0)%nat then Return [] else Raise AttributeError.
Proof.
  intros Hwf. unfold legal_moves, en_count.
  match goal with
  | |- context [foldM ?f squares ?init] =>
      assert (Hgen : forall l acc, (forall q, In q l -> In q squares) ->
                 foldM f l acc
                 = if (length
                         (List.filter
                            (fun q : pos => en_has_owner pl (get b q.1 q.2)) l)
                       =? 0)%nat
                   then Return acc else Raise AttributeError)
  end.
  { induction l as [|[r c] l IH]; intros [cs qs] Hsub;
      cbn [foldM List.filter]; [reflexivity|].
    destruct (squares_in_bounds r c (Hsub _ (or_introl eq_refl))) as [Hr Hc].
    cbn [fst snd]. rewrite (en_get_in b r c Hwf Hr Hc). cbn [rbind en_has_owner].
    destruct (owner_eqb _ (Some pl)); cbn [negb rbind no_attribute length Nat.eqb];
      [reflexivity|].
    apply IH. intros q Hq. apply Hsub. right. exact Hq. }
  rewrite Hgen by auto.
  destruct (_ =? 0)%nat; reflexivity.
Qed.

Lemma legal_moves_raises_at_the_first_piece_witness :
  legal_moves setup_initial Player.RED true = Raise AttributeError.
Proof.
  apply (legal_moves_raises_at_the_first_piece setup_initial Player.RED true
           en_wf_initial).
Defined.

(** X3. On a board of eight rows of eight the terminal queries are decided
    by ownership alone.  [winner] names the side that owns pieces when
    the other side owns none, and [is_game_over] returns [True] when a
    side owns none; in every other case the lookup of [legal_moves] on
    the board raises [AttributeError]. *)
Theorem terminal_queries_by_ownership (b : Board) :
  wf_board b ->
  let red := en_count Player.RED b in
  let black := en_count Player.BLACK b in
  winner b
  = (if (red =? 0)%nat && (0 <? black)%nat then Return (Some Player.BLACK)
     else if (black =? 0)%nat && (0 <? red)%nat then Return (Some Player.RED)
     else Raise AttributeError) /\
  is_game_over b
  = (if (red =? 0)%nat || (black =? 0)%nat then Return true
     else Raise AttributeError).
Proof.
  intros Hwf red black. unfold winner, is_game_over.
  rewrite (en_exists_piece_count b Player.RED Hwf).
  rewrite (en_exists_piece_count b Player.BLACK Hwf). cbn [rbind].
  fold red black.
  assert (Hneg : forall n, negb (0 <? n)%nat = (n =? 0)%nat)
    by (intros [|n]; reflexivity).
  rewrite !Hneg. split.
  - destruct ((red =? 0)%nat && (0 <? black)%nat); [reflexivity|].
    destruct ((black =? 0)%nat && (0 <? red)%nat); reflexivity.
  - destruct ((red =? 0)%nat || (black =? 0)%nat); reflexivity.
Qed.

Lemma terminal_queries_by_ownership_witness :
  winner setup_initial = Raise AttributeError /\
  is_game_over setup_initial = Raise AttributeError.
Proof.
  apply (terminal_queries_by_ownership setup_initial en_wf_initial).
Defined.

Lemma found_moves_conserve_pieces_witness :
  exists b',
    apply_move Boards.en_short_and_long [(5, 2); (3, 4); (1, 6)] = (Return tt, b') /\
    en_count Player.RED b' = en_count Player.RED Boards.en_short_and_long /\
    Nat.add (en_count (en_other Player.RED) b')
      (if is_capture [(5, 2); (3, 4); (1, 6)]
       then Nat.sub (length [(5, 2); (3, 4); (1, 6)]) 1 else 0%nat)
    = en_count (en_other Player.RED) Boards.en_short_and_long.
Proof.
  apply (found_moves_conserve_pieces
           Boards.en_short_and_long 5 2 Piece.RED Player.RED
           [[(5, 2); (3, 0)]; [(5, 2); (3, 4); (1, 6)]]).
  - apply en_wf_board_of.
  - lia.
  - lia.
  - vm_compute. reflexivity.
  - reflexivity.
  - left. vm_compute. reflexivity.
  - right. left. reflexivity.
Defined.

End EngineReturns.

(** ** The shape of the sequences the two searches return *)

Section EnginePaths.
Import Engine.

(** An iteration for a direction closed to a man changes nothing. *)
Lemma en_dfs_step_backward
    (rec : Board -> Z -> Z -> list pos -> list move -> result (list move))
    owner p (b : Board) cur_r cur_c path mv rs dr dc mv' rs' :
  negb (is_king p)
  && ((owner_eqb owner (Some Player.RED) && (0 <? dr))
      || (owner_eqb owner (Some Player.BLACK) && (dr <? 0))) = true ->
  dfs_step rec owner p b cur_r cur_c path (mv, rs) (dr, dc) = Return (mv', rs') ->
  mv' = mv /\ rs' = rs.
Proof.
  intros Hback H. unfold dfs_step in H.
  destruct (negb (in_bounds (cur_r + dr) (cur_c + dc)
                  && in_bounds (cur_r + 2 * dr) (cur_c + 2 * dc)));
    [inversion H; auto|].
  apply rbind_Return in H as (mid & _ & H).
  apply rbind_Return in H as (land & _ & H).
  destruct (negb (Piece.eqb land Piece.EMPTY)); [inversion H; auto|].
  destruct (is_none (piece_owner mid) || owner_eqb (piece_owner mid) owner);
    [inversion H; auto|].
  rewrite Hback in H. inversion H. auto.
Qed.

Lemma en_forward_jump p pl dr :
  piece_owner p = Some pl ->
  (dr = 1 \/ dr = -1) ->
  negb (is_king p)
  && ((owner_eqb (Some pl) (Some Player.RED) && (0 <? dr))
      || (owner_eqb (Some pl) (Some Player.BLACK) && (dr <? 0))) = false ->
  en_forward p (2 * dr) = true.
Proof.
  intros Hown Hdr H.
  destruct p; cbn in Hown; inversion Hown; subst pl; cbn in H |- *;
    try reflexivity.
  - rewrite orb_false_r in H. apply Z.ltb_ge in H. apply Z.ltb_lt. lia.
  - apply Z.ltb_ge in H. apply Z.ltb_lt. lia.
Qed.

Lemma en_dfs_chain fuel :
  forall (b : Board) cur_r cur_c path results results' pl p,
    wf_board b ->
    0 <= cur_r < 8 -> 0 <= cur_c < 8 ->
    get b cur_r cur_c = Return p ->
    piece_owner p = Some pl ->
    dfs fuel (Some pl) b cur_r cur_c path results = Return results' ->
    exists new,
      results' = results ++ new /\
      Forall (fun m => exists suffix,
                  m = path ++ suffix /\
                  hops_ok 2 p (cur_r, cur_c) suffix = true) new.
Proof.
  induction fuel as [|fuel IH];
    intros b cur_r cur_c path results results' pl p Hwf Hr Hc Hp Hown H;
    cbn [dfs] in H.
  - discriminate.
  - rewrite Hp in H. cbn [rbind] in H.
    apply rbind_Return in H as ([moved res1] & Hfold & H).
    assert (Hinv : exists new,
               res1 = results ++ new /\
               Forall (fun m => exists suffix,
                           m = path ++ suffix /\
                           hops_ok 2 p (cur_r, cur_c) suffix = true) new /\
               (moved = false -> new = [])).
    { revert Hfold.
      apply foldM_inv_In with
        (P := fun acc : bool * list move =>
                exists new,
                  acc.2 = results ++ new /\
                  Forall (fun m => exists suffix,
                              m = path ++ suffix /\
                              hops_ok 2 p (cur_r, cur_c) suffix = true) new /\
                  (acc.1 = false -> new = []));
        [|exists []; rewrite app_nil_r; auto].
      intros [mv rs] [dr dc] [mv' rs'] Hd (new & Hrs & Hall & Hmv) Hstep.
      cbn [fst snd] in Hrs, Hmv. subst rs.
      apply en_directions_unit in Hd as [Hdr Hdc].
      destruct (negb (is_king p)
                && ((owner_eqb (Some pl) (Some Player.RED) && (0 <? dr))
                    || (owner_eqb (Some pl) (Some Player.BLACK) && (dr <? 0))))
        eqn:Hback.
      { destruct (en_dfs_step_backward _ _ _ _ _ _ _ _ _ _ _ _ _ Hback Hstep)
          as [-> ->].
        exists new. auto. }
      apply en_dfs_step_inv in Hstep; try assumption.
      destruct Hstep as [[-> ->]|(Hmid & Hland & Hl & Hopp & Hown' & -> & Hrec)].
      { exists new. auto. }
      pose proof Hland as Hland'. apply en_in_bounds_spec in Hland' as [Hlr Hlc].
      pose proof (jump_board_wf b cur_r cur_c dr dc p Hwf) as Hwfj.
      assert (Hpj : get (jump_board b cur_r cur_c dr dc p)
                        (cur_r + 2 * dr) (cur_c + 2 * dc) = Return p).
      { rewrite en_get_in by assumption. f_equal. unfold jump_board.
        apply en_cell_upd_same; [repeat apply en_upd_wf; exact Hwf|lia|lia]. }
      apply (IH _ _ _ _ _ _ pl p Hwfj Hlr Hlc Hpj Hown) in Hrec
        as (new2 & -> & Hall2).
      exists (new ++ new2). cbn [fst snd].
      split; [rewrite app_assoc; reflexivity|]. split; [|discriminate].
      apply Forall_app. split; [exact Hall|].
      eapply Forall_impl; [exact Hall2|]. cbv beta.
      intros m (suffix & -> & Hsuffix).
      exists ((cur_r + 2 * dr, cur_c + 2 * dc) :: suffix).
      split; [rewrite <- app_assoc; reflexivity|].
      cbn [hops_ok fst snd]. rewrite Hland, Hsuffix.
      replace (cur_r + 2 * dr - cur_r) with (2 * dr) by lia.
      replace (cur_c + 2 * dc - cur_c) with (2 * dc) by lia.
      rewrite (en_forward_jump p pl dr Hown Hdr Hback).
      assert ((Z.abs (2 * dr) =? 2) = true) as -> by (apply Z.eqb_eq; lia).
      assert ((Z.abs (2 * dc) =? 2) = true) as -> by (apply Z.eqb_eq; lia).
      reflexivity. }
    destruct Hinv as (new & -> & Hall & Hmv).
    destruct moved; cbn [negb] in H.
    + inversion H. subst. exists new. auto.
    + rewrite (Hmv eq_refl) in *. rewrite app_nil_r in *.
      destruct (1 <? length path)%nat; inversion H; subst.
      * exists [path]. split; [reflexivity|]. constructor; [|constructor].
        exists []. rewrite app_nil_r. split; reflexivity.
      * exists []. rewrite app_nil_r. split; [reflexivity|constructor].
Qed.

Lemma find_simple_moves_forward (b : Board) r c piece steps m :
  get b r c = Return piece ->
  _find_simple_moves_from b r c = Return steps ->
  In m steps ->
  exists q, m = [(r, c); q] /\ hops_ok 1 piece (r, c) [q] = true.
Proof.
  intros Hp H Hin. unfold _find_simple_moves_from in H.
  rewrite Hp in H. cbn [rbind] in H.
  destruct (Piece.eqb piece Piece.EMPTY) eqn:Hne;
    [inversion H; subst; destruct Hin|].
  pose (tgt := fun m : move =>
          exists q, m = [(r, c); q] /\ hops_ok 1 piece (r, c) [q] = true).
  assert (Hall : Forall tgt steps).
  { revert H. apply foldM_inv_In with (P := Forall tgt); [|constructor].
    intros acc [dr dc] acc' Hd Hacc Hstep.
    destruct (in_bounds (r + dr) (c + dc)) eqn:Hb; cbn [negb] in Hstep;
      [|inversion Hstep; subst; exact Hacc].
    apply rbind_Return in Hstep as (q & _ & Hstep).
    destruct (Piece.eqb q Piece.EMPTY); inversion Hstep; subst; [|exact Hacc].
    apply Forall_app. split; [exact Hacc|]. constructor; [|constructor].
    exists (r + dr, c + dc). split; [reflexivity|].
    cbn [hops_ok fst snd]. rewrite Hb.
    replace (r + dr - r) with dr by lia. replace (c + dc - c) with dc by lia.
    destruct piece; cbn in Hne, Hd |- *; try discriminate;
      repeat destruct Hd as [Hd|Hd]; inversion Hd; reflexivity. }
  rewrite List.Forall_forall in Hall. apply Hall. exact Hin.
Qed.

(** X4. Every sequence returned by [_find_captures_from] or by
    [_find_simple_moves_from] for a piece on the board is a path of that
    piece: it starts on the square asked for, has at least one more
    square, and every square of it lies on the board, one row and one
    column from the one before on a simple move (which has one hop) and
    two rows and two columns on a capture.  A man only goes toward its
    far row on every hop: Red to smaller rows, Black to larger ones. *)
Theorem found_moves_are_diagonal_paths (b : Board) r c piece pl ms m :
  wf_board b ->
  0 <= r < 8 -> 0 <= c < 8 ->
  get b r c = Return piece ->
  piece_owner piece = Some pl ->
  _find_captures_from b r c = Return ms
  \/ _find_simple_moves_from b r c = Return ms ->
  In m ms ->
  exists rest,
    m = (r, c) :: rest /\ rest <> [] /\
    hops_ok (if is_capture m then 2 else 1) piece (r, c) rest = true /\
    (is_capture m = false -> length rest = 1%nat) /\
    (is_capture m = true <-> _find_captures_from b r c = Return ms).
Proof.
  intros Hwf Hr Hc Hp Hown Hsrc Hm.
  assert (Hne : Piece.eqb piece Piece.EMPTY = false).
  { destruct piece; cbn in Hown |- *; congruence. }
  destruct Hsrc as [Hcaps|Hsteps].
  - pose proof (find_captures_are_jumps b r c ms Hcaps) as Hj.
    rewrite List.Forall_forall in Hj. specialize (Hj m Hm).
    destruct (jump_is_capture r c m Hj) as [Hcap _].
    pose proof Hcaps as Hcaps0.
    unfold _find_captures_from in Hcaps. rewrite Hp in Hcaps. cbn [rbind] in Hcaps.
    rewrite Hne, Hown in Hcaps. unfold clone in Hcaps.
    apply (en_dfs_chain _ _ _ _ _ _ _ pl piece Hwf Hr Hc Hp Hown) in Hcaps
      as (new & Hnew & Hall).
    cbn [app] in Hnew. subst new.
    rewrite List.Forall_forall in Hall.
    destruct (Hall m Hm) as (suffix & Hmeq & Hchain).
    destruct Hj as (dr & dc & rest & _ & _ & Heq).
    exists suffix. rewrite Hcap.
    split; [exact Hmeq|]. split.
    { intros ->. rewrite Hmeq in Heq. discriminate. }
    split; [exact Hchain|]. split; [discriminate|]. tauto.
  - destruct (find_simple_moves_forward b r c piece ms m Hp Hsteps Hm)
      as (q & -> & Hq).
    pose proof (find_simple_moves_are_steps b r c ms Hsteps) as Hs.
    rewrite List.Forall_forall in Hs.
    destruct (step_is_not_capture _ (Hs _ Hm)) as [Hcap _].
    exists [q]. rewrite Hcap.
    split; [reflexivity|]. split; [discriminate|].
    split; [exact Hq|]. split; [reflexivity|].
    split; [discriminate|]. intros Hcaps.
    pose proof (find_captures_are_jumps b r c ms Hcaps) as Hj.
    rewrite List.Forall_forall in Hj.
    destruct (jump_is_capture r c _ (Hj _ Hm)) as [Hcap' _]. congruence.
Qed.

Lemma found_moves_are_diagonal_paths_witness :
  exists rest,
    [(5, 2); (3, 4); (1, 6)] = (5, 2) :: rest /\ rest <> [] /\
    hops_ok (if is_capture [(5, 2); (3, 4); (1, 6)] then 2 else 1)
            Piece.RED (5, 2) rest = true /\
    (is_capture [(5, 2); (3, 4); (1, 6)] = false -> length rest = 1%nat) /\
    (is_capture [(5, 2); (3, 4); (1, 6)] = true <->
     _find_captures_from Boards.en_short_and_long 5 2
     = Return [[(5, 2); (3, 0)]; [(5, 2); (3, 4); (1, 6)]]).
Proof.
  apply (found_moves_are_diagonal_paths
           Boards.en_short_and_long 5 2 Piece.RED Player.RED
           [[(5, 2); (3, 0)]; [(5, 2); (3, 4); (1, 6)]]).
  - apply en_wf_board_of.
  - lia.
  - lia.
  - vm_compute. reflexivity.
  - reflexivity.
  - left. vm_compute. reflexivity.
  - right. left. reflexivity.
Defined.

End EnginePaths.

(** ** [apply_move] on arbitrary paths, [Board.get] and [Board.set], the terminal check *)

Section EngineApply.
Import Engine.

Lemma mid_in_bounds a b : 0 <= a < 8 -> 0 <= b < 8 -> 0 <= (a + b) / 2 < 8.
Proof.
  intros Ha Hb. split; [apply Z.div_pos; lia|apply Z.div_lt_upper_bound; lia].
Qed.

Lemma apply_hops_in_bounds hops :
  forall (b : Board) src,
    wf_board b ->
    in_bounds src.1 src.2 = true ->
    Forall (fun q : pos => in_bounds q.1 q.2 = true) hops ->
    exists B' : Board,
      apply_hops b src hops = (Return (List.last hops src), B') /\
      wf_board B' /\ only_emptied b B'.
Proof.
  induction hops as [|dst hops IH]; intros b src Hwf Hsrc Hall.
  - exists b. split; [reflexivity|]. split; [exact Hwf|apply only_emptied_refl].
  - inversion Hall as [|? ? Hdst Hrest]; subst.
    rewrite last_cons_shift. cbn [apply_hops].
    destruct ((Z.abs (dst.1 - src.1) =? 2) && (Z.abs (dst.2 - src.2) =? 2)).
    + apply en_in_bounds_spec in Hsrc as [Hs1 Hs2].
      pose proof Hdst as Hdst'. apply en_in_bounds_spec in Hdst' as [Hd1 Hd2].
      rewrite (en_set_in b _ _ Piece.EMPTY Hwf
                 (mid_in_bounds _ _ Hd1 Hs1) (mid_in_bounds _ _ Hd2 Hs2)).
      destruct (IH (en_upd b (Z.to_nat ((dst.1 + src.1) / 2))
                          (Z.to_nat ((dst.2 + src.2) / 2)) Piece.EMPTY) dst)
        as (B' & Hrun & HwfB' & Hem); [apply en_upd_wf; exact Hwf|exact Hdst|exact Hrest|].
      exists B'. split; [exact Hrun|]. split; [exact HwfB'|].
      eapply only_emptied_trans; [|exact Hem].
      eapply (proj2 (en_set_empty b _ _ _ Hwf
                       (en_set_in b _ _ Piece.EMPTY Hwf
                          (mid_in_bounds _ _ Hd1 Hs1) (mid_in_bounds _ _ Hd2 Hs2)))).
    + apply IH; assumption.
Qed.

(** X5. [apply_move] checks nothing about the move but the squares' range:
    for any path of two or more squares of the board whose first square
    holds a piece, whoever owns it and whatever the distances, directions
    and what stands on the other squares, it returns, and the piece (crowned
    by [promote] for the row it ends on) stands on the last square.  Every
    other square is as before or has been emptied. *)
Theorem apply_move_checks_no_legality (b : Board) src rest piece :
  wf_board b ->
  rest <> [] ->
  Forall (fun q : pos => in_bounds q.1 q.2 = true) (src :: rest) ->
  get b src.1 src.2 = Return piece ->
  piece <> Piece.EMPTY ->
  let fin := List.last rest src in
  exists b' : Board,
    apply_move b (src :: rest) = (Return tt, b') /\
    wf_board b' /\
    get b' fin.1 fin.2 = Return (promote piece fin.1) /\
    forall r c, 0 <= r < 8 -> 0 <= c < 8 -> (r, c) <> fin ->
      get b' r c = get b r c \/ get b' r c = Return Piece.EMPTY.
Proof.
  intros Hwf Hrest Hall Hp Hne fin.
  inversion Hall as [|? ? Hsrc Hhops]; subst.
  destruct src as [sr sc]. cbn [fst snd] in *.
  pose proof Hsrc as Hsrc'. apply en_in_bounds_spec in Hsrc' as [Hr Hc].
  destruct rest as [|h hops]; [congruence|].
  unfold apply_move. rewrite Hp.
  assert (Piece.eqb piece Piece.EMPTY = false) as ->
    by (destruct piece; cbn; congruence).
  rewrite (en_set_in b sr sc Piece.EMPTY Hwf Hr Hc).
  pose proof (en_upd_wf b (Z.to_nat sr) (Z.to_nat sc) Piece.EMPTY Hwf) as Hwf1.
  destruct (apply_hops_in_bounds (h :: hops) _ (sr, sc) Hwf1 Hsrc Hhops)
    as (B' & Hrun & HwfB' & Hem).
  rewrite Hrun. fold fin.
  assert (Hfin : in_bounds fin.1 fin.2 = true).
  { unfold fin. rewrite List.Forall_forall in Hhops. apply Hhops.
    destruct (exists_last (l := h :: hops)) as (l' & a & E); [discriminate|].
    rewrite E. rewrite List.last_last. apply in_or_app. right. left. reflexivity. }
  destruct fin as [fr fc] eqn:Efin. cbn [fst snd] in *.
  apply en_in_bounds_spec in Hfin as [Hfr Hfc].
  rewrite (en_set_in B' fr fc _ HwfB' Hfr Hfc).
  eexists. split; [reflexivity|]. split; [apply en_upd_wf; exact HwfB'|]. split.
  - rewrite en_get_in by (try apply en_upd_wf; assumption).
    f_equal. apply en_cell_upd_same; [exact HwfB'|lia|lia].
  - intros r c Hr' Hc' Hneq.
    rewrite !en_get_in by (try apply en_upd_wf; assumption).
    rewrite en_cell_upd_other
      by (intros E; inversion E; apply Hneq; f_equal; lia).
    assert (Hb1 : only_emptied b (en_upd b (Z.to_nat sr) (Z.to_nat sc) Piece.EMPTY)).
    { apply (en_set_empty b _ sr sc Hwf). apply en_set_in; assumption. }
    destruct (only_emptied_trans _ _ _ Hb1 Hem (Z.to_nat r) (Z.to_nat c)) as [E|E];
      rewrite E; auto.
Qed.

Lemma apply_move_checks_no_legality_witness :
  exists b' : Board,
    apply_move setup_initial [(5, 0); (0, 7)] = (Return tt, b') /\
    wf_board b' /\
    get b' 0 7 = Return (promote Piece.RED 0) /\
    forall r c, 0 <= r < 8 -> 0 <= c < 8 -> (r, c) <> (0, 7) ->
      get b' r c = get setup_initial r c \/ get b' r c = Return Piece.EMPTY.
Proof.
  apply (apply_move_checks_no_legality setup_initial (5, 0) [(0, 7)] Piece.RED).
  - exact en_wf_initial.
  - discriminate.
  - repeat constructor.
  - reflexivity.
  - discriminate.
Defined.

Lemma apply_hops_raises_IndexError hops :
  forall (b : Board) src res (b' : Board),
    wf_board b ->
    apply_hops b src hops = (res, b') ->
    res = Return (List.last hops src) \/ res = Raise IndexError.
Proof.
  induction hops as [|dst hops IH]; intros b src res b' Hwf H.
  - cbn in H. inversion H. auto.
  - rewrite last_cons_shift. cbn [apply_hops] in H.
    destruct ((Z.abs (dst.1 - src.1) =? 2) && (Z.abs (dst.2 - src.2) =? 2)).
    + rewrite (en_set_wf b _ _ Piece.EMPTY Hwf) in H.
      destruct (valid8 _ && valid8 _).
      * apply IH in H; [exact H|apply en_upd_wf; exact Hwf].
      * inversion H. auto.
    + apply IH in H; assumption.
Qed.

(** X6. A failing [apply_move] is not undone.  When the last square of the
    path is out of the range Python accepts as an index (-8 to 7), the call
    raises [IndexError] after the source square has been emptied: no square
    has gained a piece, and the piece that was to move is gone. *)
Theorem apply_move_off_board_loses_the_piece (b : Board) src rest piece :
  wf_board b ->
  rest <> [] ->
  in_bounds src.1 src.2 = true ->
  get b src.1 src.2 = Return piece ->
  piece <> Piece.EMPTY ->
  valid8 (List.last rest src).1 && valid8 (List.last rest src).2 = false ->
  exists b' : Board,
    apply_move b (src :: rest) = (Raise IndexError, b') /\
    wf_board b' /\
    only_emptied b b' /\
    get b' src.1 src.2 = Return Piece.EMPTY.
Proof.
  intros Hwf Hrest Hsrc Hp Hne Hoff.
  destruct src as [sr sc]. cbn [fst snd] in *.
  pose proof Hsrc as Hsrc'. apply en_in_bounds_spec in Hsrc' as [Hr Hc].
  destruct rest as [|h hops]; [congruence|].
  unfold apply_move. rewrite Hp.
  assert (Piece.eqb piece Piece.EMPTY = false) as ->
    by (destruct piece; cbn; congruence).
  rewrite (en_set_in b sr sc Piece.EMPTY Hwf Hr Hc).
  pose proof (en_upd_wf b (Z.to_nat sr) (Z.to_nat sc) Piece.EMPTY Hwf) as Hwf1.
  assert (Hb1 : only_emptied b (en_upd b (Z.to_nat sr) (Z.to_nat sc) Piece.EMPTY)).
  { apply (en_set_empty b _ sr sc Hwf). apply en_set_in; assumption. }
  destruct (apply_hops (en_upd b (Z.to_nat sr) (Z.to_nat sc) Piece.EMPTY)
                       (sr, sc) (h :: hops)) as [res B'] eqn:Hrun.
  destruct (apply_hops_only_empties _ _ _ _ _ Hwf1 Hrun) as (HwfB' & Hem & _).
  assert (Hcell : en_cell B' (Z.to_nat sr) (Z.to_nat sc) = Piece.EMPTY).
  { destruct (Hem (Z.to_nat sr) (Z.to_nat sc)) as [E|E]; [|exact E].
    rewrite E. apply en_cell_upd_same; [exact Hwf|lia|lia]. }
  assert (Hgoal : wf_board B' /\ only_emptied b B' /\
                  get B' sr sc = Return Piece.EMPTY).
  { split; [exact HwfB'|]. split; [eapply only_emptied_trans; eassumption|].
    rewrite en_get_in by assumption. f_equal. exact Hcell. }
  destruct (apply_hops_raises_IndexError _ _ _ _ _ Hwf1 Hrun) as [-> | ->].
  - unfold pos in *.
    destruct (List.last (h :: hops) (sr, sc)) as [fr fc]. cbn [fst snd] in Hoff. rewrite (en_set_wf B' fr fc _ HwfB'). rewrite Hoff.
    exists B'. split; [reflexivity|exact Hgoal].
  - exists B'. split; [reflexivity|exact Hgoal].
Qed.

Lemma apply_move_off_board_loses_the_piece_witness :
  exists b' : Board,
    apply_move setup_initial [(5, 0); (8, 0)] = (Raise IndexError, b') /\
    wf_board b' /\
    only_emptied setup_initial b' /\
    get b' 5 0 = Return Piece.EMPTY.
Proof.
  apply (apply_move_off_board_loses_the_piece
           setup_initial (5, 0) [(8, 0)] Piece.RED).
  - exact en_wf_initial.
  - discriminate.
  - reflexivity.
  - reflexivity.
  - discriminate.
  - reflexivity.
Defined.

(** X7. [Board.get] and [Board.set] of the engine follow Python's list
    indexing on a board of eight rows of eight.  A row or column index
    outside -8..7 raises [IndexError]; an index from -8 to -1 names the
    square counted from the far edge, so that [get] after [set] returns the
    value written on every index pair that names the same square, and what
    was there before on every other square. *)
Theorem board_get_set_wrap_around (b : Board) r c v :
  wf_board b ->
  (valid8 r && valid8 c = false ->
   get b r c = Raise IndexError /\ set b r c v = Raise IndexError) /\
  (valid8 r && valid8 c = true ->
   exists b' : Board,
     set b r c v = Return b' /\ wf_board b' /\
     get b r c = get b (norm8 r) (norm8 c) /\
     forall r' c', valid8 r' = true -> valid8 c' = true ->
       get b' r' c'
       = if pos_eqb (norm_pos (r', c')) (norm_pos (r, c)) then Return v
         else get b r' c').
Proof.
  intros Hwf. split; intros Hv.
  - rewrite en_get_wf, en_set_wf by exact Hwf. rewrite Hv. auto.
  - rewrite en_set_wf by exact Hwf. rewrite Hv.
    apply andb_true_iff in Hv as [Hvr Hvc].
    pose proof (norm8_range r Hvr) as Hnr. pose proof (norm8_range c Hvc) as Hnc.
    eexists. split; [reflexivity|]. split; [apply en_upd_wf; exact Hwf|]. split.
    + rewrite en_get_wf by exact Hwf. rewrite Hvr, Hvc. cbn [andb].
      rewrite en_get_in by assumption. reflexivity.
    + intros r' c' Hvr' Hvc'.
      rewrite !en_get_wf by (try apply en_upd_wf; exact Hwf).
      rewrite Hvr', Hvc'. cbn [andb].
      pose proof (norm8_range r' Hvr') as Hnr'.
      pose proof (norm8_range c' Hvc') as Hnc'.
      destruct (pos_eqb (norm_pos (r', c')) (norm_pos (r, c))) eqn:E.
      * apply pos_eqb_eq in E. unfold norm_pos in E. cbn [fst snd] in E.
        inversion E as [[E1 E2]]. rewrite E1, E2. f_equal.
        apply en_cell_upd_same; [exact Hwf|lia|lia].
      * apply pos_eqb_neq in E. unfold norm_pos in E. cbn [fst snd] in E.
        f_equal. apply en_cell_upd_other.
        intros E'. inversion E' as [[E1 E2]]. apply E. f_equal; lia.
Qed.

Lemma board_get_set_wrap_around_witness :
  (valid8 (-1) && valid8 (-8) = false ->
   get setup_initial (-1) (-8) = Raise IndexError /\
   set setup_initial (-1) (-8) Piece.RED_KING = Raise IndexError) /\
  (valid8 (-1) && valid8 (-8) = true ->
   exists b' : Board,
     set setup_initial (-1) (-8) Piece.RED_KING = Return b' /\ wf_board b' /\
     get setup_initial (-1) (-8) = get setup_initial (norm8 (-1)) (norm8 (-8)) /\
     forall r' c', valid8 r' = true -> valid8 c' = true ->
       get b' r' c'
       = if pos_eqb (norm_pos (r', c')) (norm_pos (-1, -8))
         then Return Piece.RED_KING
         else get setup_initial r' c').
Proof.
  apply (board_get_set_wrap_around setup_initial (-1) (-8) Piece.RED_KING
           en_wf_initial).
Defined.

(** X8. [winner] and [is_game_over] on any grid: whenever [winner] names
    a player, [is_game_over] returns [True]; [winner] never returns
    [None] and [is_game_over] never returns [False], because the branch
    that would do so looks [legal_moves] up on the board first. *)
Theorem winner_implies_game_over (b : Board) :
  (forall w, winner b = Return (Some w) -> is_game_over b = Return true) /\
  winner b <> Return None /\
  is_game_over b <> Return false.
Proof.
  unfold winner, is_game_over. split; [|split].
  - intros w H.
    apply rbind_Return in H as (re & -> & H).
    apply rbind_Return in H as (be & -> & H). cbn [rbind].
    destruct re, be; cbn in H |- *; try reflexivity; discriminate.
  - intros H.
    apply rbind_Return in H as (re & _ & H).
    apply rbind_Return in H as (be & _ & H).
    destruct re, be; cbn in H; discriminate.
  - intros H.
    apply rbind_Return in H as (re & _ & H).
    apply rbind_Return in H as (be & _ & H).
    destruct re, be; cbn in H; discriminate.
Qed.

End EngineApply.

(** ** What the search of [get_valid_moves] records, and what [move_piece] does with it *)

Section Added.
Context {X : Type}.

Lemma jumps_added_refl (d : dict (list X)) Q : jumps_added d d Q.
Proof. intros dest seqs seq H1 H2. left. eauto. Qed.

Lemma jumps_added_trans (a b c : dict (list X)) Q :
  jumps_added a b Q -> jumps_added b c Q -> jumps_added a c Q.
Proof.
  intros Hab Hbc dest seqs seq H1 H2.
  destruct (Hbc dest seqs seq H1 H2) as [(seqs' & H3 & H4)|HQ]; [|auto].
  apply (Hab dest seqs' seq H3 H4).
Qed.

Lemma jumps_added_weaken (a b : dict (list X)) (Q Q' : pos -> X -> Prop) :
  (forall d s, Q d s -> Q' d s) -> jumps_added a b Q -> jumps_added a b Q'.
Proof.
  intros HQ Hab dest seqs seq H1 H2.
  destruct (Hab dest seqs seq H1 H2) as [H|H]; auto.
Qed.

Lemma setdefault_append_added (d : dict (list X)) k x :
  jumps_added d (setdefault_append d k x) (fun dest seq => dest = k /\ seq = x).
Proof.
  induction d as [|[k' xs] d IH]; intros dest seqs seq H1 H2; cbn in H1.
  - destruct H1 as [H1|[]]. inversion H1. subst.
    destruct H2 as [H2|[]]. right. auto.
  - destruct (pos_eqb k' k) eqn:E.
    + apply pos_eqb_eq in E. subst k'. destruct H1 as [H1|H1].
      * inversion H1. subst. apply in_app_or in H2 as [H2|[H2|[]]].
        -- left. exists xs. split; [left; reflexivity|exact H2].
        -- right. auto.
      * left. exists seqs. split; [right; exact H1|exact H2].
    + destruct H1 as [H1|H1].
      * inversion H1. subst. left. exists seqs. split; [left; reflexivity|exact H2].
      * destruct (IH dest seqs seq H1 H2) as [(seqs0 & H3 & H4)|HQ]; [|auto].
        left. exists seqs0. split; [right; exact H3|exact H4].
Qed.
End Added.

Section GameLogicCaptures.
Import GameLogic.

Lemma gl_get_set_eq (b : Board) r c v r' c' :
  wf_board b ->
  get (set b r c v) r' c'
  = if in_bounds r c && pos_eqb (r, c) (r', c') then v else get b r' c'.
Proof.
  intros Hwf. destruct (in_bounds r c) eqn:Hb; cbn [andb].
  - destruct (pos_eqb (r, c) (r', c')) eqn:E.
    + apply pos_eqb_eq in E. inversion E. subst.
      apply gl_get_set_same; assumption.
    + apply pos_eqb_neq in E. apply gl_get_set_other. exact E.
  - unfold set. rewrite Hb. reflexivity.
Qed.

(** What an iteration of the loop of [dfs] that returns has done. *)
Lemma gl_dfs_step_inv
    (rec : Z -> Z -> Board -> list pos -> jumps_t -> result (bool * jumps_t))
    piece sr sc (b : Board) captured found jumps dr dc found' jumps' :
  dfs_step rec piece sr sc b captured (found, jumps) (dr, dc)
    = Return (found', jumps') ->
  (found' = found /\ jumps' = jumps) \/
  (in_bounds (sr + dr) (sc + dc) = true /\
   in_bounds (sr + 2 * dr) (sc + 2 * dc) = true /\
   (exists m, get b (sr + dr) (sc + dc) = Some m /\
              negb (color_eqb (color m) (color piece)) = true) /\
   get b (sr + 2 * dr) (sc + 2 * dc) = None /\
   found' = true /\
   exists more j1,
     rec (sr + 2 * dr) (sc + 2 * dc)
         (remove (remove (set (clone b) (sr + 2 * dr) (sc + 2 * dc)
                              (get (clone b) sr sc)) sr sc)
                 (sr + dr) (sc + dc))
         (captured ++ [(sr + dr, sc + dc)]) jumps = Return (more, j1) /\
     jumps' = if negb more
              then setdefault_append j1 (sr + 2 * dr, sc + 2 * dc)
                     (captured ++ [(sr + dr, sc + dc)])
              else j1).
Proof.
  intros H. unfold dfs_step in H.
  destruct (in_bounds (sr + dr) (sc + dc)) eqn:Hmid; cbn [andb negb] in H;
    [|left; inversion H; auto].
  destruct (in_bounds (sr + 2 * dr) (sc + 2 * dc)) eqn:Hland; cbn [negb] in H;
    [|left; inversion H; auto].
  destruct (get b (sr + dr) (sc + dc)) as [m|] eqn:Hm; [|left; inversion H; auto].
  destruct (get b (sr + 2 * dr) (sc + 2 * dc)) eqn:Hl; [left; inversion H; auto|].
  destruct (negb (color_eqb (color m) (color piece))) eqn:Hcol;
    [|left; inversion H; auto].
  right. apply rbind_Return in H as ([more j1] & Hrec & Hret).
  inversion Hret. subst.
  repeat split; try reflexivity. - eauto. - eauto.
Qed.

Lemma unit_step_odd d x : d = 1 \/ d = -1 -> (x + d - x) mod 2 = 1.
Proof.
  intros H. replace (x + d - x) with d by lia. destruct H as [-> | ->]; reflexivity.
Qed.

Lemma color_eqb_neq (a b : Color) : negb (color_eqb a b) = true -> a <> b.
Proof. destruct a, b; cbn; intros H; congruence. Qed.

Section Jump.
Variables (b : Board) (sr sc dr dc : Z) (piece m : Piece).
Hypothesis Hwf : wf_board b.
Hypothesis Hdr : dr = 1 \/ dr = -1.
Hypothesis Hdc : dc = 1 \/ dc = -1.
Hypothesis Hcur : in_bounds sr sc = true.
Hypothesis Hmid : in_bounds (sr + dr) (sc + dc) = true.
Hypothesis Hland : in_bounds (sr + 2 * dr) (sc + 2 * dc) = true.
Hypothesis Hp : get b sr sc = Some piece.
Hypothesis Hm : get b (sr + dr) (sc + dc) = Some m.
Hypothesis Hl : get b (sr + 2 * dr) (sc + 2 * dc) = None.
Hypothesis Hcol : negb (color_eqb (color m) (color piece)) = true.

Let new_board : Board :=
  remove (remove (set (clone b) (sr + 2 * dr) (sc + 2 * dc) (get (clone b) sr sc))
                 sr sc)
         (sr + dr) (sc + dc).

Lemma gl_new_board_get r c :
  get new_board r c
  = if pos_eqb (sr + dr, sc + dc) (r, c) then None
    else if pos_eqb (sr, sc) (r, c) then None
    else if pos_eqb (sr + 2 * dr, sc + 2 * dc) (r, c) then Some piece
    else get b r c.
Proof.
  unfold new_board, remove, clone.
  rewrite gl_get_set_eq by (repeat apply gl_wf_set; exact Hwf).
  rewrite Hmid. cbn [andb].
  rewrite gl_get_set_eq by (repeat apply gl_wf_set; exact Hwf).
  rewrite Hcur. cbn [andb].
  rewrite gl_get_set_eq by exact Hwf.
  rewrite Hland, Hp. cbn [andb]. reflexivity.
Qed.

Lemma gl_captures_ok_leaf :
  gl_captures_ok b (sr, sc) piece (sr + 2 * dr, sc + 2 * dc) [(sr + dr, sc + dc)].
Proof.
  unfold gl_captures_ok. cbn [fst snd].
  split; [discriminate|]. split; [exact Hland|].
  split; [replace (sr + 2 * dr - sr) with (dr * 2) by lia; apply Z.mod_mul; lia|].
  split; [left; exact Hl|]. split; [repeat constructor; intros []|].
  constructor; [|constructor]. cbn [fst snd].
  split; [exact Hmid|]. split; [apply unit_step_odd; exact Hdr|].
  exists m. split; [exact Hm|]. apply color_eqb_neq. exact Hcol.
Qed.

Lemma gl_captures_ok_jump dest suffix :
  gl_captures_ok new_board (sr + 2 * dr, sc + 2 * dc) piece dest suffix ->
  gl_captures_ok b (sr, sc) piece dest ((sr + dr, sc + dc) :: suffix).
Proof.
  intros (Hne & Hdest & Hpar & Hempty & Hnd & Hall).
  destruct dest as [er ec]. cbn [fst snd] in *.
  unfold gl_captures_ok. cbn [fst snd].
  assert (Hpar' : (er - sr) mod 2 = 0).
  { replace (er - sr) with (er - (sr + 2 * dr) + dr * 2) by lia.
    rewrite Z.mod_add by lia. exact Hpar. }
  split; [discriminate|]. split; [exact Hdest|]. split; [exact Hpar'|].
  rewrite List.Forall_forall in Hall.
  split; [|split].
  - destruct Hempty as [Hempty|Heq].
    + rewrite gl_new_board_get in Hempty.
      destruct (pos_eqb (sr + dr, sc + dc) (er, ec)) eqn:E1.
      { apply pos_eqb_eq in E1. inversion E1. subst er.
        rewrite (unit_step_odd dr sr Hdr) in Hpar'. discriminate. }
      destruct (pos_eqb (sr, sc) (er, ec)) eqn:E2.
      { apply pos_eqb_eq in E2. right. auto. }
      destruct (pos_eqb (sr + 2 * dr, sc + 2 * dc) (er, ec)) eqn:E3;
        [discriminate|]. left. exact Hempty.
    + inversion Heq. subst. left. exact Hl.
  - constructor; [|exact Hnd].
    intros Hin. destruct (Hall _ Hin) as (_ & _ & m' & Hm' & _).
    cbn [fst snd] in Hm'. rewrite gl_new_board_get in Hm'.
    rewrite pos_eqb_refl in Hm'. discriminate.
  - apply List.Forall_forall. intros [qr qc] [Hq|Hq].
    + inversion Hq. subst. cbn [fst snd].
      split; [exact Hmid|]. split; [apply unit_step_odd; exact Hdr|].
      exists m. split; [exact Hm|]. apply color_eqb_neq. exact Hcol.
    + destruct (Hall _ Hq) as (Hqb & Hqpar & m' & Hm' & Hcol').
      cbn [fst snd] in *.
      split; [exact Hqb|].
      assert (Hqpar' : (qr - sr) mod 2 = 1).
      { replace (qr - sr) with (qr - (sr + 2 * dr) + dr * 2) by lia.
        rewrite Z.mod_add by lia. exact Hqpar. }
      split; [exact Hqpar'|].
      exists m'. split; [|exact Hcol'].
      rewrite gl_new_board_get in Hm'.
      destruct (pos_eqb (sr + dr, sc + dc) (qr, qc)); [discriminate|].
      destruct (pos_eqb (sr, sc) (qr, qc)); [discriminate|].
      destruct (pos_eqb (sr + 2 * dr, sc + 2 * dc) (qr, qc)) eqn:E3; [|exact Hm'].
      inversion Hm'. subst m'. congruence.
Qed.

End Jump.

Lemma gl_dfs_added fuel :
  forall sr sc (b : Board) captured jumps found jumps' piece,
    wf_board b ->
    get b sr sc = Some piece ->
    dfs fuel sr sc b captured jumps = Return (found, jumps') ->
    jumps_added jumps jumps'
      (fun dest seq => exists suffix,
           seq = captured ++ suffix /\
           gl_captures_ok b (sr, sc) piece dest suffix).
Proof.
  induction fuel as [|fuel IH];
    intros sr sc b captured jumps found jumps' piece Hwf Hp H; cbn [dfs] in H.
  - discriminate.
  - rewrite Hp in H.
    pose proof (gl_get_in_bounds b sr sc piece Hp) as Hcur.
    set (Q := fun (dest : pos) (seq : list pos) =>
                exists suffix,
                  seq = captured ++ suffix /\
                  gl_captures_ok b (sr, sc) piece dest suffix).
    apply (foldM_inv_In (fun acc : bool * jumps_t => jumps_added jumps acc.2 Q))
      with (a := (false, jumps)) in H; [exact H| |apply jumps_added_refl].
    clear H. intros [fnd j] [dr dc] [fnd' j'] Hd Hj Hstep. cbn [fst snd] in *.
    apply gl_dirs_unit in Hd as [Hdr Hdc].
    apply gl_dfs_step_inv in Hstep.
    destruct Hstep as [[-> ->]|(Hmid & Hland & (m & Hm & Hcol) & Hl & -> & more & j1 & Hrec & ->)];
      [exact Hj|].
    destruct (gl_jump_board b sr sc dr dc piece m Hwf Hdr Hdc Hmid Hland Hp Hm Hl Hcol)
      as (Hwf' & Hp' & _).
    apply (IH _ _ _ _ _ _ _ piece Hwf' Hp') in Hrec.
    assert (Hsub : jumps_added j j1 Q).
    { eapply jumps_added_weaken; [|exact Hrec]. cbv beta.
      intros dest seq (suffix & -> & Hok).
      exists ((sr + dr, sc + dc) :: suffix).
      split; [rewrite <- app_assoc; reflexivity|].
      apply (gl_captures_ok_jump b sr sc dr dc piece m); assumption. }
    apply (jumps_added_trans _ _ _ _ Hj).
    destruct more; cbn [negb]; [exact Hsub|].
    apply (jumps_added_trans _ _ _ _ Hsub).
    eapply jumps_added_weaken; [|apply setdefault_append_added]. cbv beta.
    intros dest seq [-> ->]. exists [(sr + dr, sc + dc)].
    split; [reflexivity|].
    apply (gl_captures_ok_leaf b sr sc dr dc piece m); assumption.
Qed.


Lemma gl_simple_moves_targets (b : Board) r c piece dest caps :
  dict_get (simple_moves b r c piece) dest = Some caps ->
  caps = [] /\ gl_simple_target b (r, c) piece dest.
Proof.
  unfold simple_moves.
  assert (Hgen : forall l acc,
             (forall d, In d l -> In d (dirs_of piece)) ->
             (forall dest caps, dict_get acc dest = Some caps ->
                caps = [] /\ gl_simple_target b (r, c) piece dest) ->
             forall dest caps,
               dict_get
                 (fold_left
                    (fun (simple : dict (list pos)) '(dr, dc) =>
                       let nr := r + dr in let nc := c + dc in
                       if in_bounds nr nc && is_none (get b nr nc)
                       then dict_set simple (nr, nc) []
                       else simple) l acc) dest = Some caps ->
               caps = [] /\ gl_simple_target b (r, c) piece dest).
  { induction l as [|[dr dc] l IH]; intros acc Hsub Hacc; cbn [fold_left].
    - exact Hacc.
    - apply IH; [intros d Hd; apply Hsub; right; exact Hd|].
      cbv zeta.
      destruct (in_bounds (r + dr) (c + dc)) eqn:Hb; cbn [andb]; [|exact Hacc].
      destruct (get b (r + dr) (c + dc)) eqn:Hg; cbn [is_none]; [exact Hacc|].
      intros dest0 caps0 H0.
      destruct (pos_eqb (r + dr, c + dc) dest0) eqn:E.
      + apply pos_eqb_eq in E. subst dest0.
        rewrite dict_get_set_same in H0. inversion H0. split; [reflexivity|].
        unfold gl_simple_target. cbn [fst snd]. split; [exact Hb|].
        split; [exact Hg|]. exists dr, dc. split; [|reflexivity].
        apply Hsub. left. reflexivity.
      + apply pos_eqb_neq in E. rewrite dict_get_set_other in H0 by exact E.
        apply Hacc. exact H0. }
  apply Hgen; [auto|]. intros d cs H. discriminate.
Qed.

(** The two shapes of an answer of [get_valid_moves]. *)
Lemma gl_valid_moves_cases (b : Board) r c piece moves :
  wf_board b ->
  get b r c = Some piece ->
  get_valid_moves b r c = Return moves ->
  (forall dest caps, dict_get moves dest = Some caps ->
     caps = [] /\ gl_simple_target b (r, c) piece dest) \/
  (forall dest caps, dict_get moves dest = Some caps ->
     gl_captures_ok b (r, c) piece dest caps).
Proof.
  intros Hwf Hp H. pose proof H as H0. unfold get_valid_moves in H.
  rewrite Hp in H. apply rbind_Return in H as ([found jumps] & Hdfs & H).
  cbn [snd] in H. destruct jumps as [|j0 jtl]; cbn [is_nil negb] in H.
  - left. inversion H. subst moves. apply gl_simple_moves_targets.
  - right.
    assert (Hne : j0 :: jtl <> []) by discriminate.
    destruct (get_valid_moves_keeps_longest_per_destination
                b r c piece found (j0 :: jtl) Hp Hdfs Hne) as (moves' & Hm' & Hbest).
    rewrite H0 in Hm'. inversion Hm'. subst moves'.
    + intros dest caps Hget.
      destruct (Hbest dest caps Hget) as (seqs & Hseqs & Hin & _).
      apply dict_get_In in Hseqs.
      unfold clone in Hdfs.
      destruct (gl_dfs_added _ _ _ _ _ _ _ _ piece Hwf Hp Hdfs dest seqs caps Hseqs Hin)
        as [(seqs0 & [] & _)|(suffix & Heq & Hok)].
      cbn [app] in Heq. subst suffix. exact Hok.
Qed.


(** X11. For one piece [get_valid_moves] never mixes simple moves and
    captures.  Either every destination is a simple move (no captured
    square, an empty square one step away in a direction of the piece), or
    every destination is a capture: its list of captured squares is not
    empty, has no square twice, names squares of the board that hold pieces
    of the other colour, the destination is on the board and empty unless
    it is the start square, and it is not one step away from the start. *)
Theorem get_valid_moves_simple_or_captures (b : Board) r c piece moves :
  wf_board b ->
  get b r c = Some piece ->
  get_valid_moves b r c = Return moves ->
  (forall dest caps, dict_get moves dest = Some caps ->
     caps = [] /\ gl_simple_target b (r, c) piece dest) \/
  (forall dest caps, dict_get moves dest = Some caps ->
     gl_captures_ok b (r, c) piece dest caps /\
     forall dr dc, In (dr, dc) (dirs_of piece) -> dest <> (r + dr, c + dc)).
Proof.
  intros Hwf Hp H.
  destruct (gl_valid_moves_cases b r c piece moves Hwf Hp H) as [Hs|Hc];
    [left; exact Hs|right].
  intros dest caps Hget. pose proof (Hc dest caps Hget) as Hok.
  split; [exact Hok|].
  intros dr dc Hd ->. apply gl_dirs_unit in Hd as [Hdr _].
  destruct Hok as (_ & _ & Hpar & _). cbn [fst snd] in Hpar.
  rewrite (unit_step_odd dr r Hdr) in Hpar. discriminate.
Qed.

Lemma get_valid_moves_simple_or_captures_witness :
  (forall dest caps,
      dict_get [((4, 1), [(3, 2)]); ((6, 7), [(3, 4); (5, 6)])] dest = Some caps ->
      caps = [] /\ gl_simple_target Boards.short_and_long (2, 3) Boards.red_man dest) \/
  (forall dest caps,
      dict_get [((4, 1), [(3, 2)]); ((6, 7), [(3, 4); (5, 6)])] dest = Some caps ->
      gl_captures_ok Boards.short_and_long (2, 3) Boards.red_man dest caps /\
      forall dr dc, In (dr, dc) (dirs_of Boards.red_man) -> dest <> (2 + dr, 3 + dc)).
Proof.
  apply (get_valid_moves_simple_or_captures Boards.short_and_long 2 3 Boards.red_man).
  - apply gl_wf_board_of.
  - reflexivity.
  - vm_compute. reflexivity.
Defined.

Lemma gl_move_piece_accepted (g g' : Game) s e info :
  move_piece g s e = (Return (true, info), g') ->
  exists p valid captured,
    get (board g) s.1 s.2 = Some p /\ color p = turn g /\
    get_valid_moves (board g) s.1 s.2 = Return valid /\
    dict_get valid e = Some captured /\
    board g'
    = crown_at (remove_all (remove (set (board g) e.1 e.2 (Some p)) s.1 s.2) captured)
               e.1 e.2 (gl_crowned p e.1) /\
    ((info = NoContinue /\ turn g' = other (turn g)) \/
     (info = Continue e /\ turn g' = turn g /\ captured <> [] /\
      exists more,
        get_valid_moves (board g') e.1 e.2 = Return more /\
        existsb (fun v => negb (is_nil v)) (dict_values more) = true)).
Proof.
  destruct s as [sr sc], e as [er ec]. cbn [fst snd]. unfold move_piece. intros H.
  destruct (get (board g) sr sc) as [p|] eqn:Hp; [|inversion H].
  destruct (color_eqb (color p) (turn g)) eqn:Hcol; cbn [negb] in H;
    [|inversion H].
  destruct (get_valid_moves (board g) sr sc) as [valid| |] eqn:Hvalid;
    [|inversion H|inversion H].
  destruct (dict_get valid (er, ec)) as [captured|] eqn:Hget; [|inversion H].
  cbv zeta in H. fold (gl_crowned p er) in H.
  assert (Hc : color p = turn g)
    by (destruct (color p), (turn g); cbn in Hcol; congruence).
  exists p, valid, captured.
  do 4 (split; [first [reflexivity|assumption]|]).
  destruct captured as [|q captured]; cbn [is_nil negb] in H.
  - inversion H. subst. cbn [board turn]. split; [reflexivity|]. left. auto.
  - destruct (get_valid_moves _ er ec) as [more| |] eqn:Hmore;
      try (inversion H; fail).
    destruct (existsb _ _) eqn:Hex; inversion H; subst; cbn [board turn];
      (split; [reflexivity|]); [right|left]; auto.
    repeat split; try discriminate. exists more. auto.
Qed.

Lemma gl_get_remove_all_other caps :
  forall (b : Board) q,
    ~ In q caps -> get (remove_all b caps) q.1 q.2 = get b q.1 q.2.
Proof.
  induction caps as [|[cr cc] caps IH]; intros b [qr qc] Hq; [reflexivity|].
  cbn [remove_all fold_left]. fold (remove_all (remove b cr cc) caps).
  rewrite IH by (intros H; apply Hq; right; exact H). cbn [fst snd].
  unfold remove. apply gl_get_set_other. intros E. apply Hq. left. exact E.
Qed.

Lemma gl_get_remove_all_in caps :
  forall (b : Board) q,
    wf_board b -> In q caps -> get (remove_all b caps) q.1 q.2 = None.
Proof.
  induction caps as [|[cr cc] caps IH]; intros b [qr qc] Hwf Hq; [destruct Hq|].
  cbn [remove_all fold_left]. fold (remove_all (remove b cr cc) caps).
  destruct (in_dec (fun x y : Z * Z => decide (x = y)) (qr, qc) caps) as [Hin|Hnin].
  - apply IH; [apply gl_wf_set; exact Hwf|exact Hin].
  - rewrite gl_get_remove_all_other by exact Hnin.
    destruct Hq as [Hq|Hq]; [|contradiction]. inversion Hq. subst.
    cbn [fst snd]. unfold remove. rewrite gl_get_set_eq by exact Hwf.
    rewrite pos_eqb_refl, andb_true_r.
    destruct (in_bounds qr qc) eqn:Hb; [reflexivity|apply gl_get_out; exact Hb].
Qed.

Lemma gl_count_remove_all clr caps :
  forall b : Board,
    wf_board b ->
    List.NoDup caps ->
    Forall (fun q : pos =>
              in_bounds q.1 q.2 = true /\
              exists m, get b q.1 q.2 = Some m /\ color m <> clr) caps ->
    gl_count clr (remove_all b caps) = gl_count clr b /\
    (gl_count (other clr) (remove_all b caps) + length caps
     = gl_count (other clr) b)%nat.
Proof.
  induction caps as [|[cr cc] caps IH]; intros b Hwf Hnd Hall.
  - cbn [remove_all fold_left length]. split; lia.
  - inversion Hnd as [|? ? Hnin Hnd']; subst.
    inversion Hall as [|? ? (Hb & m & Hm & Hcol) Hall']; subst.
    cbn [fst snd] in *.
    cbn [remove_all fold_left]. fold (remove_all (remove b cr cc) caps).
    destruct (IH (remove b cr cc)) as [I1 I2];
      [apply gl_wf_set; exact Hwf|exact Hnd'|
       |].
    { rewrite List.Forall_forall in Hall' |- *.
      intros [qr qc] Hq. destruct (Hall' _ Hq) as (Hqb & m' & Hm' & Hcol').
      cbn [fst snd] in *. split; [exact Hqb|]. exists m'. split; [|exact Hcol'].
      unfold remove. rewrite gl_get_set_other; [exact Hm'|].
      intros E. inversion E. subst. contradiction. }
    pose proof (gl_count_set b cr cc None clr Hwf Hb) as C1.
    pose proof (gl_count_set b cr cc None (other clr) Hwf Hb) as C2.
    rewrite Hm in C1, C2. fold (remove b cr cc) in C1, C2.
    unfold gl_ind in C1, C2. cbn [gl_has_color] in C1, C2.
    assert (E1 : color_eqb (color m) clr = false)
      by (destruct (color m), clr; cbn; congruence).
    assert (E2 : color_eqb (color m) (other clr) = true)
      by (destruct (color m), clr; cbn; congruence).
    rewrite E1 in C1. rewrite E2 in C2. cbn [length]. split; lia.
Qed.

(** What [valid[end]] tells about the board, for an end square other than
    the start. *)
Lemma gl_valid_end_facts (b : Board) s e p valid captured :
  wf_board b ->
  get b s.1 s.2 = Some p ->
  get_valid_moves b s.1 s.2 = Return valid ->
  dict_get valid e = Some captured ->
  e <> s ->
  in_bounds e.1 e.2 = true /\
  get b e.1 e.2 = None /\
  List.NoDup captured /\
  Forall (fun q : pos =>
            in_bounds q.1 q.2 = true /\ q <> e /\ q <> s /\
            exists m, get b q.1 q.2 = Some m /\ color m <> color p) captured.
Proof.
  intros Hwf Hp Hvalid Hget Hes. destruct s as [sr sc]. cbn [fst snd] in *.
  destruct (gl_valid_moves_cases b sr sc p valid Hwf Hp Hvalid) as [Hs|Hc].
  - destruct (Hs e captured Hget) as (-> & Hb & He & _).
    repeat split; try assumption; constructor.
  - destruct (Hc e captured Hget) as (_ & Hb & Hpar & Hempty & Hnd & Hall).
    cbn [fst snd] in *.
    split; [exact Hb|]. split; [destruct Hempty; [assumption|contradiction]|].
    split; [exact Hnd|].
    eapply Forall_impl; [exact Hall|]. cbv beta.
    intros [qr qc] (Hqb & Hqpar & Hm). cbn [fst snd] in *.
    split; [exact Hqb|]. split; [|split; [|exact Hm]].
    + intros E. subst e. cbn [fst snd] in Hpar. congruence.
    + intros E. inversion E. subst. rewrite Z.sub_diag in Hqpar. discriminate.
Qed.

Lemma gl_crowned_color p er : color (gl_crowned p er) = color p.
Proof.
  unfold gl_crowned. destruct (negb (king p)); [|reflexivity].
  destruct (color p) eqn:E; [destruct (er =? 7)|destruct (er =? 0)]; cbn; auto.
Qed.

(** X13. What an accepted [move_piece] does to the board when the end
    square is not the start square: the end square holds the piece that
    stood on the start square, crowned if it is a man that reached its far
    row; the start square and every captured square are empty; every other
    square is as before.  The turn passes to the other side unless the call
    reports a continuation, which it only does after a capture. *)
Theorem move_piece_effect (g g' : Game) s e info :
  wf_board (board g) ->
  move_piece g s e = (Return (true, info), g') ->
  e <> s ->
  exists p valid captured,
    get (board g) s.1 s.2 = Some p /\ color p = turn g /\
    get_valid_moves (board g) s.1 s.2 = Return valid /\
    dict_get valid e = Some captured /\
    get (board g') e.1 e.2 = Some (gl_crowned p e.1) /\
    get (board g') s.1 s.2 = None /\
    (forall q, In q captured -> get (board g') q.1 q.2 = None) /\
    (forall q, q <> s -> q <> e -> ~ In q captured ->
       get (board g') q.1 q.2 = get (board g) q.1 q.2) /\
    ((info = NoContinue /\ turn g' = other (turn g)) \/
     (info = Continue e /\ turn g' = turn g /\ captured <> [])).
Proof.
  intros Hwf H Hes.
  destruct (gl_move_piece_accepted g g' s e info H)
    as (p & valid & captured & Hp & Hcol & Hvalid & Hget & Hboard & Hturn).
  assert (Hturn' : (info = NoContinue /\ turn g' = other (turn g)) \/
                   (info = Continue e /\ turn g' = turn g /\ captured <> []))
    by (destruct Hturn as [?|(? & ? & ? & _)]; auto).
  clear Hturn. rename Hturn' into Hturn.
  destruct (gl_valid_end_facts (board g) s e p valid captured Hwf Hp Hvalid Hget Hes)
    as (He & Hempty & Hnd & Hall).
  exists p, valid, captured. repeat (split; [assumption|]).
  rewrite List.Forall_forall in Hall.
  assert (Hnin : ~ In e captured).
  { intros Hin. destruct (Hall e Hin) as (_ & Hne & _). congruence. }
  assert (Hsnin : ~ In s captured).
  { intros Hin. destruct (Hall s Hin) as (_ & _ & Hne & _). congruence. }
  pose proof (gl_get_in_bounds _ _ _ _ Hp) as Hs.
  destruct s as [sr sc], e as [er ec]. cbn [fst snd] in *.
  set (B := remove_all (remove (set (board g) er ec (Some p)) sr sc) captured) in *.
  assert (HwfB : wf_board B).
  { apply gl_wf_remove_all, gl_wf_set, gl_wf_set. exact Hwf. }
  assert (HBe : get B er ec = Some p).
  { unfold B. rewrite (gl_get_remove_all_other captured _ (er, ec) Hnin).
    cbn [fst snd]. unfold remove.
    rewrite gl_get_set_other by congruence.
    apply gl_get_set_same; assumption. }
  assert (Hcrown : forall qr qc,
             get (board g') qr qc
             = if pos_eqb (er, ec) (qr, qc) then Some (gl_crowned p er)
               else get B qr qc).
  { intros qr qc. rewrite Hboard. unfold crown_at. rewrite HBe.
    rewrite gl_get_set_eq by exact HwfB. rewrite He. reflexivity. }
  split; [rewrite Hcrown, pos_eqb_refl; reflexivity|]. split; [|split; [|split]].
  - rewrite Hcrown.
    destruct (pos_eqb (er, ec) (sr, sc)) eqn:E;
      [apply pos_eqb_eq in E; congruence|].
    unfold B. rewrite (gl_get_remove_all_other captured _ (sr, sc) Hsnin).
    cbn [fst snd]. unfold remove.
    apply gl_get_set_same; [apply gl_wf_set; exact Hwf|exact Hs].
  - intros [qr qc] Hq. cbn [fst snd]. rewrite Hcrown.
    destruct (pos_eqb (er, ec) (qr, qc)) eqn:E.
    { apply pos_eqb_eq in E. rewrite <- E in Hq. contradiction. }
    apply (gl_get_remove_all_in captured _ (qr, qc)); [|exact Hq].
    apply gl_wf_set, gl_wf_set. exact Hwf.
  - intros [qr qc] Hqs Hqe Hq. cbn [fst snd]. rewrite Hcrown.
    destruct (pos_eqb (er, ec) (qr, qc)) eqn:E.
    { apply pos_eqb_eq in E. congruence. }
    unfold B. rewrite (gl_get_remove_all_other captured _ (qr, qc) Hq).
    cbn [fst snd]. unfold remove.
    rewrite !gl_get_set_other by congruence. reflexivity.
  - exact Hturn.
Qed.

Lemma move_piece_effect_witness :
  let g := Boards.red_to_move Boards.capture_and_step in
  let g' := (move_piece g (2, 3) (4, 5)).2 in
  exists p valid captured,
    get (board g) 2 3 = Some p /\ color p = turn g /\
    get_valid_moves (board g) 2 3 = Return valid /\
    dict_get valid (4, 5) = Some captured /\
    get (board g') 4 5 = Some (gl_crowned p 4) /\
    get (board g') 2 3 = None /\
    (forall q, In q captured -> get (board g') q.1 q.2 = None) /\
    (forall q, q <> (2, 3) -> q <> (4, 5) -> ~ In q captured ->
       get (board g') q.1 q.2 = get (board g) q.1 q.2) /\
    ((NoContinue = NoContinue /\ turn g' = other (turn g)) \/
     (NoContinue = Continue (4, 5) /\ turn g' = turn g /\ captured <> [])).
Proof.
  apply (move_piece_effect (Boards.red_to_move Boards.capture_and_step)
           (move_piece (Boards.red_to_move Boards.capture_and_step) (2, 3) (4, 5)).2
           (2, 3) (4, 5) NoContinue).
  - apply gl_wf_board_of.
  - vm_compute. reflexivity.
  - discriminate.
Defined.

(** X14. Conservation for [move_piece]: when the end square is not the
    start square, the side that moves has as many pieces after an accepted
    move as before, and the other side has lost exactly the captured
    pieces. *)
Theorem move_piece_conserves_pieces_off_the_start (g g' : Game) s e info :
  wf_board (board g) ->
  move_piece g s e = (Return (true, info), g') ->
  e <> s ->
  exists valid captured,
    get_valid_moves (board g) s.1 s.2 = Return valid /\
    dict_get valid e = Some captured /\
    gl_count (turn g) (board g') = gl_count (turn g) (board g) /\
    (gl_count (other (turn g)) (board g') + length captured
     = gl_count (other (turn g)) (board g))%nat.
Proof.
  intros Hwf H Hes.
  destruct (gl_move_piece_accepted g g' s e info H)
    as (p & valid & captured & Hp & Hcol & Hvalid & Hget & Hboard & _).
  destruct (gl_valid_end_facts (board g) s e p valid captured Hwf Hp Hvalid Hget Hes)
    as (He & Hempty & Hnd & Hall).
  exists valid, captured. split; [exact Hvalid|]. split; [exact Hget|].
  pose proof (gl_get_in_bounds _ _ _ _ Hp) as Hs.
  destruct s as [sr sc], e as [er ec]. cbn [fst snd] in *.
  set (b := board g) in *.
  set (b1 := set b er ec (Some p)).
  set (b2 := remove b1 sr sc).
  set (b3 := remove_all b2 captured).
  assert (Hwf1 : wf_board b1) by (apply gl_wf_set; exact Hwf).
  assert (Hwf2 : wf_board b2) by (apply gl_wf_set; exact Hwf1).
  assert (Hwf3 : wf_board b3) by (apply gl_wf_remove_all; exact Hwf2).
  assert (Hb1s : get b1 sr sc = Some p).
  { unfold b1. rewrite gl_get_set_other by congruence. exact Hp. }
  rewrite List.Forall_forall in Hall.
  assert (Hall2 : Forall (fun q : pos =>
                            in_bounds q.1 q.2 = true /\
                            exists m, get b2 q.1 q.2 = Some m /\ color m <> turn g)
                         captured).
  { apply List.Forall_forall. intros [qr qc] Hq.
    destruct (Hall _ Hq) as (Hqb & Hqe & Hqs & m & Hm & Hmc). cbn [fst snd] in *.
    split; [exact Hqb|]. exists m. split; [|congruence].
    unfold b2, b1, remove. rewrite !gl_get_set_other by congruence. exact Hm. }
  destruct (gl_count_remove_all (turn g) captured b2 Hwf2 Hnd Hall2) as [R1 R2].
  fold b3 in R1, R2.
  assert (Hb3e : get b3 er ec = Some p).
  { unfold b3. rewrite (gl_get_remove_all_other captured _ (er, ec)).
    - cbn [fst snd]. unfold b2, remove. rewrite gl_get_set_other by congruence.
      apply gl_get_set_same; assumption.
    - intros Hin. destruct (Hall _ Hin) as (_ & Hne & _). congruence. }
  rewrite Hboard. fold b1 b2 b3. unfold crown_at. rewrite Hb3e.
  assert (I1 : forall x : Piece, color x = turn g ->
                 gl_ind (turn g) (Some x) = 1%nat /\
                 gl_ind (other (turn g)) (Some x) = 0%nat).
  { intros x Hx. unfold gl_ind. cbn [gl_has_color]. rewrite Hx.
    destruct (turn g); cbn; auto. }
  destruct (I1 p Hcol) as [P1 P2].
  destruct (I1 (gl_crowned p er)) as [K1 K2];
    [rewrite gl_crowned_color; exact Hcol|].
  pose proof (gl_count_set b er ec (Some p) (turn g) Hwf He) as A1.
  pose proof (gl_count_set b er ec (Some p) (other (turn g)) Hwf He) as A2.
  pose proof (gl_count_set b1 sr sc None (turn g) Hwf1 Hs) as B1.
  pose proof (gl_count_set b1 sr sc None (other (turn g)) Hwf1 Hs) as B2.
  pose proof (gl_count_set b3 er ec (Some (gl_crowned p er)) (turn g) Hwf3 He) as C1.
  pose proof (gl_count_set b3 er ec (Some (gl_crowned p er)) (other (turn g)) Hwf3 He)
    as C2.
  fold b1 in A1, A2. fold (remove b1 sr sc) in B1, B2. fold b2 in B1, B2.
  rewrite Hempty in A1, A2. rewrite Hb1s in B1, B2. rewrite Hb3e in C1, C2.
  rewrite P1 in *. rewrite P2 in *. rewrite K1 in *. rewrite K2 in *.
  assert (N1 : forall clr, gl_ind clr None = 0%nat) by reflexivity.
  rewrite !N1 in *. split; lia.
Qed.


Lemma move_piece_conserves_pieces_off_the_start_witness :
  let g := Boards.red_to_move Boards.capture_and_step in
  let g' := (move_piece g (2, 3) (4, 5)).2 in
  exists valid captured,
    get_valid_moves (board g) 2 3 = Return valid /\
    dict_get valid (4, 5) = Some captured /\
    gl_count (turn g) (board g') = gl_count (turn g) (board g) /\
    (gl_count (other (turn g)) (board g') + length captured
     = gl_count (other (turn g)) (board g))%nat.
Proof.
  apply (move_piece_conserves_pieces_off_the_start
           (Boards.red_to_move Boards.capture_and_step)
           (move_piece (Boards.red_to_move Boards.capture_and_step) (2, 3) (4, 5)).2
           (2, 3) (4, 5) NoContinue).
  - apply gl_wf_board_of.
  - vm_compute. reflexivity.
  - discriminate.
Defined.

(** X9. [Board.set], [Board.get] and [Board.remove] of [board.py] on a
    board of eight rows of eight: a write on a square of the board is read
    back on that square and changes no other square; a write outside the
    board changes nothing and a read there gives [None], without an
    exception and without Python's wrap-around of negative indices. *)
Theorem board_set_then_get (b : Board) r c v :
  wf_board b ->
  wf_board (set b r c v) /\
  (forall r' c',
      get (set b r c v) r' c'
      = if in_bounds r c && pos_eqb (r, c) (r', c') then v else get b r' c') /\
  (forall r' c',
      get (remove b r c) r' c'
      = if in_bounds r c && pos_eqb (r, c) (r', c') then None else get b r' c') /\
  (in_bounds r c = false -> set b r c v = b /\ get b r c = None).
Proof.
  intros Hwf. split; [apply gl_wf_set; exact Hwf|].
  split; [intros r' c'; apply gl_get_set_eq; exact Hwf|].
  split; [intros r' c'; unfold remove; apply gl_get_set_eq; exact Hwf|].
  intros Hb. split; [unfold set; rewrite Hb; reflexivity|].
  apply gl_get_out. exact Hb.
Qed.

Lemma board_set_then_get_witness :
  wf_board (set Boards.capture_and_step 8 (-1) (Some Boards.red_king)) /\
  (forall r' c',
      get (set Boards.capture_and_step 8 (-1) (Some Boards.red_king)) r' c'
      = if in_bounds 8 (-1) && pos_eqb (8, -1) (r', c') then Some Boards.red_king
        else get Boards.capture_and_step r' c') /\
  (forall r' c',
      get (remove Boards.capture_and_step 8 (-1)) r' c'
      = if in_bounds 8 (-1) && pos_eqb (8, -1) (r', c') then None
        else get Boards.capture_and_step r' c') /\
  (in_bounds 8 (-1) = false ->
   set Boards.capture_and_step 8 (-1) (Some Boards.red_king) = Boards.capture_and_step /\
   get Boards.capture_and_step 8 (-1) = None).
Proof.
  apply (board_set_then_get Boards.capture_and_step 8 (-1) (Some Boards.red_king)).
  apply gl_wf_board_of.
Defined.

Lemma in_range8 r : 0 <= r < 8 -> In r range8.
Proof.
  intros H. unfold range8.
  assert (E : r = 0 \/ r = 1 \/ r = 2 \/ r = 3 \/ r = 4 \/ r = 5 \/ r = 6 \/ r = 7)
    by lia.
  repeat (destruct E as [E|E]; [subst r; cbn; tauto|]). subst r. cbn. tauto.
Qed.

Lemma in_bounds_squares r c : 0 <= r < 8 -> 0 <= c < 8 -> In (r, c) squares.
Proof.
  intros Hr Hc. unfold squares. apply in_flat_map. exists r.
  split; [apply in_range8; exact Hr|].
  apply in_map_iff. exists c. split; [reflexivity|apply in_range8; exact Hc].
Qed.

Lemma gl_all_moves_step_cases b clr moves r c moves' :
  gl_all_moves_step b clr moves (r, c) = Return moves' ->
  (moves' = moves /\
   ~ exists p legal, get b r c = Some p /\ color p = clr /\
                     get_valid_moves b r c = Return legal /\ legal <> []) \/
  (exists p legal, get b r c = Some p /\ color p = clr /\
                   get_valid_moves b r c = Return legal /\ legal <> [] /\
                   moves' = dict_set moves (r, c) legal).
Proof.
  unfold gl_all_moves_step. intros H.
  destruct (get b r c) as [p|] eqn:Hp.
  - destruct (color_eqb (color p) clr) eqn:Hc.
    + apply rbind_Return in H as (legal & Hl & H).
      destruct legal as [|x legal]; cbn [is_nil negb] in H; inversion H; subst.
      * left. split; [reflexivity|].
        intros (p' & legal' & _ & _ & Hl' & Hne). congruence.
      * right. exists p, (x :: legal).
        repeat split; try assumption; try discriminate.
        destruct (color p), clr; cbn in Hc; congruence.
    + left. inversion H. split; [reflexivity|].
      intros (p' & legal' & Hp' & Hc' & _). inversion Hp'. subst.
      destruct (color p'); cbn in Hc; discriminate.
  - left. inversion H. split; [reflexivity|].
    intros (p' & legal' & Hp' & _). discriminate.
Qed.

Lemma gl_all_moves_fold b clr l :
  forall acc all,
    foldM (gl_all_moves_step b clr) l acc = Return all ->
    forall k,
      (~ In k l -> dict_get all k = dict_get acc k) /\
      (forall legal, dict_get all k = Some legal ->
         dict_get acc k = Some legal \/
         (In k l /\ exists p, get b k.1 k.2 = Some p /\ color p = clr /\
                              get_valid_moves b k.1 k.2 = Return legal /\
                              legal <> [])) /\
      (forall p legal, In k l -> get b k.1 k.2 = Some p -> color p = clr ->
         get_valid_moves b k.1 k.2 = Return legal -> legal <> [] ->
         dict_get all k = Some legal).
Proof.
  induction l as [|[r c] l IH]; intros acc all H k; cbn [foldM] in H.
  - inversion H. subst. split; [reflexivity|]. split; [auto|]. intros ? ? [].
  - apply rbind_Return in H as (acc1 & Hstep & H).
    destruct (IH acc1 all H k) as (I1 & I2 & I3).
    apply gl_all_moves_step_cases in Hstep.
    assert (Hacc1 : (r, c) <> k -> dict_get acc1 k = dict_get acc k).
    { intros Hne. destruct Hstep as [[-> _]|(p & legal & _ & _ & _ & _ & ->)];
        [reflexivity|]. apply dict_get_set_other. exact Hne. }
    split; [|split].
    + intros Hnin. rewrite I1 by (intros Hin; apply Hnin; right; exact Hin).
      apply Hacc1. intros E. apply Hnin. left. exact E.
    + intros legal Hget. destruct (I2 legal Hget) as [Hin1|(Hin & Hc)];
        [|right; split; [right; exact Hin|exact Hc]].
      destruct Hstep as [[-> _]|(p & legal0 & Hp & Hcol & Hl & Hne & ->)];
        [left; exact Hin1|].
      destruct (pos_eqb (r, c) k) eqn:E.
      * apply pos_eqb_eq in E. subst k. rewrite dict_get_set_same in Hin1.
        inversion Hin1. subst legal0. right. split; [left; reflexivity|].
        exists p. cbn [fst snd]. auto.
      * apply pos_eqb_neq in E. rewrite dict_get_set_other in Hin1 by exact E.
        left. exact Hin1.
    + intros p legal Hin Hp Hcol Hl Hne.
      destruct (in_dec (fun x y : Z * Z => decide (x = y)) k l) as [Hinl|Hninl];
        [apply (I3 p legal); assumption|].
      destruct Hin as [E|Hin]; [|contradiction]. subst k. cbn [fst snd] in *.
      rewrite I1 by exact Hninl.
      destruct Hstep as [[_ Hno]|(p' & legal' & _ & _ & Hl' & _ & ->)].
      * exfalso. apply Hno. exists p, legal. auto.
      * rewrite dict_get_set_same. congruence.
Qed.

(** X12. [get_all_moves] is [get_valid_moves] piece by piece: a square is
    a key of the result exactly when it holds a piece of the colour whose
    [get_valid_moves] is not empty, and the value is that answer.  Nothing
    in it looks at the other pieces of the colour. *)
Theorem get_all_moves_is_get_valid_moves_per_piece (b : Board) clr all :
  get_all_moves b clr = Return all ->
  forall k legal,
    dict_get all k = Some legal <->
    exists p, get b k.1 k.2 = Some p /\ color p = clr /\
              get_valid_moves b k.1 k.2 = Return legal /\ legal <> [].
Proof.
  intros H k legal.
  assert (H' : foldM (gl_all_moves_step b clr) squares [] = Return all).
  { rewrite <- H. reflexivity. }
  destruct (gl_all_moves_fold b clr squares [] all H' k) as (_ & I2 & I3).
  split.
  - intros Hget. destruct (I2 legal Hget) as [Hnil|[_ Hc]]; [discriminate|exact Hc].
  - intros (p & Hp & Hcol & Hl & Hne). apply (I3 p legal); try assumption.
    apply gl_get_in_bounds in Hp. apply gl_in_bounds_spec in Hp as [Hr Hc].
    destruct k as [r c]. apply in_bounds_squares; assumption.
Qed.

Lemma get_all_moves_is_get_valid_moves_per_piece_witness :
  dict_get [((0, 1), [((1, 0), []); ((1, 2), [])]); ((2, 3), [((4, 5), [(3, 4)])])]
           (0, 1)
    = Some [((1, 0), []); ((1, 2), [])] <->
  exists p, get Boards.capture_and_step 0 1 = Some p /\ color p = RED /\
            get_valid_moves Boards.capture_and_step 0 1
              = Return [((1, 0), []); ((1, 2), [])] /\
            [((1, 0), @nil pos); ((1, 2), [])] <> [].
Proof.
  apply (get_all_moves_is_get_valid_moves_per_piece Boards.capture_and_step RED
           [((0, 1), [((1, 0), []); ((1, 2), [])]); ((2, 3), [((4, 5), [(3, 4)])])]
           ltac:(vm_compute; reflexivity) (0, 1) [((1, 0), []); ((1, 2), [])]).
Defined.

(** X10. On a board of eight rows of eight, [get_valid_moves],
    [get_all_moves] and [move_piece] return for all arguments (the search
    never reads the attributes of an empty square and ends, since each jump
    removes a piece), and [move_piece] leaves a board of eight rows of
    eight. *)
Theorem game_logic_calls_return (g : Game) :
  wf_board (board g) ->
  (forall r c, exists moves, get_valid_moves (board g) r c = Return moves) /\
  (forall clr, exists all, get_all_moves (board g) clr = Return all) /\
  (forall s e, exists ok info g',
      move_piece g s e = (Return (ok, info), g') /\ wf_board (board g')).
Proof.
  intros Hwf. split; [intros r c; apply gl_get_valid_moves_total; exact Hwf|].
  split; [|intros s e; apply gl_move_piece_total; exact Hwf].
  intros clr. unfold get_all_moves. apply foldM_total_In.
  intros moves [r c] _.
  destruct (get (board g) r c) as [p|]; [|eauto].
  destruct (color_eqb (color p) clr); [|eauto].
  destruct (gl_get_valid_moves_total (board g) r c Hwf) as [legal ->].
  cbn [rbind]. destruct (negb (is_nil legal)); eauto.
Qed.

Lemma game_logic_calls_return_witness :
  (forall r c, exists moves,
      get_valid_moves (board Boards.crowning_capture) r c = Return moves) /\
  (forall clr, exists all,
      get_all_moves (board Boards.crowning_capture) clr = Return all) /\
  (forall s e, exists ok info g',
      move_piece Boards.crowning_capture s e = (Return (ok, info), g') /\
      wf_board (board g')).
Proof.
  apply (game_logic_calls_return Boards.crowning_capture). apply gl_wf_board_of.
Defined.

End GameLogicCaptures.

(** ** The window after a capture that must be continued *)

Section Lock.
Import GameLogic UI.

(** A click while a continuation is demanded. *)
Lemma ui_on_click_locked ui p piece x y :
  must_continue ui = true ->
  continue_pos ui = Some p ->
  get (board (game ui)) p.1 p.2 = Some piece ->
  color piece = turn (game ui) ->
  game (on_click ui x y).2 = game ui /\
  must_continue (on_click ui x y).2 = true /\
  continue_pos (on_click ui x y).2 = Some p /\
  move_listbox (on_click ui x y).2 = move_listbox ui.
Proof.
  intros Hmc Hcp Hp Hcol. unfold on_click.
  destruct ((y / CELL <? 0) || (7 <? y / CELL) || (x / CELL <? 0) || (7 <? x / CELL));
    [cbn [snd]; auto|].
  rewrite Hmc, Hcp. cbn [andb same_square].
  destruct (pos_eqb (y / CELL, x / CELL) p) eqn:E; cbn [negb].
  - apply pos_eqb_eq in E. subst p. cbn [fst snd] in Hp. rewrite Hp.
    assert (color_eqb (color piece) (turn (game ui)) = true) as ->
      by (rewrite Hcol; destruct (turn (game ui)); reflexivity).
    cbn [snd game must_continue continue_pos move_listbox]. auto.
  - cbn [snd with_status game must_continue continue_pos move_listbox]. auto.
Qed.

Lemma ui_clicks_locked clicks :
  forall ui p piece,
    must_continue ui = true ->
    continue_pos ui = Some p ->
    get (board (game ui)) p.1 p.2 = Some piece ->
    color piece = turn (game ui) ->
    game (ui_clicks ui clicks) = game ui /\
    must_continue (ui_clicks ui clicks) = true /\
    move_listbox (ui_clicks ui clicks) = move_listbox ui.
Proof.
  induction clicks as [|[x y] clicks IH]; intros ui p piece Hmc Hcp Hp Hcol.
  - cbn. auto.
  - cbn [ui_clicks].
    destruct (ui_on_click_locked ui p piece x y Hmc Hcp Hp Hcol)
      as (Hg & Hmc' & Hcp' & Hl).
    destruct (IH (on_click ui x y).2 p piece Hmc' Hcp') as (I1 & I2 & I3).
    + rewrite Hg. exact Hp.
    + rewrite Hg. exact Hcol.
    + rewrite I1, I3. auto.
Qed.

(** How [on_click] comes to set [must_continue]. *)
Lemma ui_on_click_sets_must_continue ui x y :
  must_continue ui = false ->
  must_continue (on_click ui x y).2 = true ->
  exists start p,
    selected ui = Some start /\
    move_piece (game ui) start p
      = (Return (true, Continue p), game (on_click ui x y).2) /\
    continue_pos (on_click ui x y).2 = Some p.
Proof.
  intros Hmc. unfold on_click.
  destruct ((y / CELL <? 0) || (7 <? y / CELL) || (x / CELL <? 0) || (7 <? x / CELL));
    [cbn [snd]; congruence|].
  rewrite Hmc. cbn [andb].
  match goal with
  | |- context [if ?own then _ else _] => destruct own
  end; [cbn [snd must_continue]; congruence|].
  destruct (selected ui) as [start|]; [|cbn [snd]; congruence].
  destruct (get_valid_moves _ _ _) as [valid| |]; try (cbn [snd]; congruence).
  destruct (dict_get valid _) as [captured|];
    [|cbn [snd with_status must_continue]; congruence].
  unfold on_move_attempt.
  destruct (move_piece (game ui) start (y / CELL, x / CELL)) as [res g'] eqn:Hmove.
  destruct res as [[ok info]| |]; try (cbn [snd must_continue]; congruence).
  destruct ok; [|cbn [snd must_continue]; congruence].
  destruct info as [text|p|].
  - destruct (draw_board _ _); [destruct (winner g')|..];
      cbn [snd must_continue]; congruence.
  - intros _. exists start, p.
    assert (Hp : p = (y / CELL, x / CELL)).
    { destruct (gl_move_piece_accepted _ _ _ _ _ Hmove)
        as (_ & _ & _ & _ & _ & _ & _ & _ & [[Hinfo _]|[Hinfo _]]);
        inversion Hinfo. reflexivity. }
    rewrite <- Hp in Hmove.
    destruct (draw_board _ _); [destruct (winner g')|..];
      cbn [snd game continue_pos]; auto.
  - destruct (draw_board _ _); [destruct (winner g')|..];
      cbn [snd must_continue]; congruence.
Qed.

(** X15. Once a click has set [must_continue], no click on the canvas
    changes the game again.  [on_click] refuses every square but
    [continue_pos], and on [continue_pos] stands the piece of the side to
    move, so that click only selects it: the capture the window asks for
    cannot be played, the turn never passes and no move is added to the
    history. *)
Theorem ui_continuation_can_never_be_played ui x y clicks :
  wf_board (board (game ui)) ->
  must_continue ui = false ->
  must_continue (on_click ui x y).2 = true ->
  let ui1 := (on_click ui x y).2 in
  turn (game ui1) = turn (game ui) /\
  game (ui_clicks ui1 clicks) = game ui1 /\
  must_continue (ui_clicks ui1 clicks) = true /\
  move_listbox (ui_clicks ui1 clicks) = move_listbox ui1.
Proof.
  intros Hwf Hmc Hset ui1.
  destruct (ui_on_click_sets_must_continue ui x y Hmc Hset)
    as (start & p & _ & Hmove & Hcp).
  fold ui1 in Hmove, Hcp, Hset.
  destruct (gl_move_piece_accepted _ _ _ _ _ Hmove)
    as (pc & valid & captured & Hp & Hcol & _ & _ & Hboard & Hturn).
  destruct Hturn as [[Hinfo _]|(_ & Hturn & _ & more & Hmore & Hex)];
    [discriminate|].
  split; [exact Hturn|].
  destruct (get (board (game ui1)) p.1 p.2) as [x1|] eqn:Hx1.
  - apply (ui_clicks_locked clicks ui1 p x1 Hset Hcp Hx1).
    rewrite Hturn, <- Hcol.
    rewrite Hboard in Hx1. unfold crown_at in Hx1.
    match type of Hx1 with
    | context [match get ?B _ _ with _ => _ end] =>
        destruct (get B p.1 p.2) eqn:HB
    end; [|congruence].
    rewrite gl_get_set_same in Hx1.
    + inversion Hx1. apply gl_crowned_color.
    + apply gl_wf_remove_all, gl_wf_set, gl_wf_set. exact Hwf.
    + eapply gl_get_in_bounds. exact HB.
  - unfold get_valid_moves in Hmore. rewrite Hx1 in Hmore.
    inversion Hmore. subst more. discriminate.
Qed.

Lemma ui_continuation_can_never_be_played_witness :
  let ui1 := (on_click ui_ready_to_capture 285 495).2 in
  turn (game ui1) = turn (game ui_ready_to_capture) /\
  game (ui_clicks ui1 [(425, 355); (285, 495); (425, 355)]) = game ui1 /\
  must_continue (ui_clicks ui1 [(425, 355); (285, 495); (425, 355)]) = true /\
  move_listbox (ui_clicks ui1 [(425, 355); (285, 495); (425, 355)])
    = move_listbox ui1.
Proof.
  apply (ui_continuation_can_never_be_played ui_ready_to_capture 285 495
           [(425, 355); (285, 495); (425, 355)]).
  - apply gl_wf_board_of.
  - reflexivity.
  - vm_compute. reflexivity.
Defined.

End Lock.


(** ** Lines over the byte stream *)

Section NetFacts.
Import Text Net.
Local Open Scope string_scope.

Lemma string_app_assoc (a b c : string) : (a ++ b) ++ c = a ++ (b ++ c).
Proof. induction a as [|x a IH]; cbn; [reflexivity|]. rewrite IH. reflexivity. Qed.

Lemma string_app_nil_r (a : string) : a ++ "" = a.
Proof. induction a as [|x a IH]; cbn; [reflexivity|]. rewrite IH. reflexivity. Qed.

Lemma string_length_app (a b : string) :
  String.length (a ++ b) = (String.length a + String.length b)%nat.
Proof. induction a as [|x a IH]; cbn; [reflexivity|]. rewrite IH. reflexivity. Qed.

Lemma all_chars_app f (a b : string) :
  all_chars f (a ++ b) = all_chars f a && all_chars f b.
Proof.
  induction a as [|x a IH]; cbn; [reflexivity|]. rewrite IH, andb_assoc. reflexivity.
Qed.

Lemma split_once_length s line rest :
  split_once s = Some (line, rest) ->
  (String.length line + String.length rest < String.length s)%nat.
Proof.
  revert line rest. induction s as [|a s IH]; intros line rest H; cbn in H.
  - discriminate.
  - destruct (is_newline a).
    + inversion H. subst. cbn. lia.
    + destruct (split_once s) as [[l r]|]; [|discriminate].
      inversion H. subst. specialize (IH l rest eq_refl). cbn. lia.
Qed.

Lemma split_once_none s : split_once s = None <-> no_newline s = true.
Proof.
  unfold no_newline. induction s as [|a s IH]; cbn.
  - tauto.
  - destruct (is_newline a); cbn.
    + split; discriminate.
    + destruct (split_once s) as [[l r]|].
      * split; [discriminate|]. intros H. apply IH in H. discriminate.
      * tauto.
Qed.

Lemma split_once_some s line rest :
  split_once s = Some (line, rest) ->
  s = line ++ String newline rest /\ no_newline line = true.
Proof.
  unfold no_newline. revert line rest.
  induction s as [|a s IH]; intros line rest H; cbn in H.
  - discriminate.
  - destruct (is_newline a) eqn:E.
    + inversion H. subst. cbn. unfold is_newline in E.
      apply Ascii.eqb_eq in E. subst a. auto.
    + destruct (split_once s) as [[l r]|]; [|discriminate].
      inversion H. subst. destruct (IH l rest eq_refl) as [-> Hl].
      cbn. rewrite E, Hl. auto.
Qed.

Lemma split_once_app_some x y line rest :
  split_once x = Some (line, rest) ->
  split_once (x ++ y) = Some (line, rest ++ y).
Proof.
  revert line rest. induction x as [|a x IH]; intros line rest H; cbn in H |- *.
  - discriminate.
  - destruct (is_newline a).
    + inversion H. reflexivity.
    + destruct (split_once x) as [[l r]|]; [|discriminate].
      inversion H. subst. rewrite (IH l rest eq_refl). reflexivity.
Qed.

Lemma split_once_app_none x y :
  split_once x = None ->
  split_once (x ++ y)
  = match split_once y with
    | Some (line, rest) => Some (x ++ line, rest)
    | None => None
    end.
Proof.
  induction x as [|a x IH]; intros H; cbn in H |- *.
  - destruct (split_once y) as [[l r]|]; reflexivity.
  - destruct (is_newline a); [discriminate|].
    destruct (split_once x) as [[l r]|]; [discriminate|].
    rewrite (IH eq_refl). destruct (split_once y) as [[l r]|]; reflexivity.
Qed.

(** More fuel than the buffer is long is enough, and how much more does
    not matter. *)
Lemma drain_fuel_any n :
  forall s d f1 f2,
    (String.length s < n)%nat ->
    (String.length s < f1)%nat -> (String.length s < f2)%nat ->
    drain f1 s d = drain f2 s d.
Proof.
  induction n as [|n IH]; intros s d f1 f2 Hn H1 H2; [lia|].
  destruct f1 as [|f1]; [lia|]. destruct f2 as [|f2]; [lia|].
  cbn [drain]. destruct (split_once s) as [[line rest]|] eqn:E; [|reflexivity].
  pose proof (split_once_length s line rest E) as Hlen.
  apply IH; lia.
Qed.

Lemma drain_fuel fuel s d :
  (String.length s < fuel)%nat -> drain fuel s d = drain_all s d.
Proof.
  intros H. unfold drain_all.
  apply (drain_fuel_any (S (String.length s))); lia.
Qed.

Lemma drain_all_step s d :
  drain_all s d
  = match split_once s with
    | None => Return (d, s)
    | Some (line, rest) =>
        drain_all rest (if is_empty line then d else (d ++ [line])%list)
    end.
Proof.
  unfold drain_all at 1. cbn [drain].
  destruct (split_once s) as [[line rest]|] eqn:E; [|reflexivity].
  apply drain_fuel. pose proof (split_once_length s line rest E). lia.
Qed.

(** Draining returns, with a buffer that holds no newline and lines that
    are not empty and hold no newline. *)
Lemma drain_all_returns n :
  forall s d,
    (String.length s < n)%nat ->
    Forall (fun l => l <> "" /\ no_newline l = true) d ->
    exists d' b,
      drain_all s d = Return (d', b) /\
      no_newline b = true /\
      Forall (fun l => l <> "" /\ no_newline l = true) d'.
Proof.
  induction n as [|n IH]; intros s d Hn Hd; [lia|].
  rewrite drain_all_step.
  destruct (split_once s) as [[line rest]|] eqn:E.
  - pose proof (split_once_length s line rest E) as Hlen.
    destruct (split_once_some s line rest E) as [_ Hline].
    apply IH; [lia|].
    destruct line as [|a line]; cbn [is_empty]; [exact Hd|].
    apply Forall_app. split; [exact Hd|].
    constructor; [|constructor]. split; [discriminate|exact Hline].
  - exists d, s. split; [reflexivity|]. split; [|exact Hd].
    apply split_once_none. exact E.
Qed.

(** Draining a text in two parts. *)
Lemma drain_all_app n :
  forall x y d,
    (String.length x < n)%nat ->
    drain_all (x ++ y) d
    = do r <- drain_all x d; drain_all (r.2 ++ y) r.1.
Proof.
  induction n as [|n IH]; intros x y d Hn; [lia|].
  rewrite (drain_all_step x).
  destruct (split_once x) as [[line rest]|] eqn:E.
  - pose proof (split_once_length x line rest E) as Hlen.
    rewrite (drain_all_step (x ++ y)).
    rewrite (split_once_app_some x y line rest E).
    apply IH. lia.
  - reflexivity.
Qed.

Lemma is_ascii_app a b : is_ascii (a ++ b) = is_ascii a && is_ascii b.
Proof. apply all_chars_app. Qed.

(** The loop over any chunking is one drain of the whole text. *)
Lemma recv_loop_drain_all chunks :
  forall buffer d,
    no_newline buffer = true ->
    Forall (fun c => c <> "") chunks ->
    is_ascii (concat_all chunks) = true ->
    _recv_loop chunks buffer d = drain_all (buffer ++ concat_all chunks) d.
Proof.
  induction chunks as [|c chunks IH]; intros buffer d Hb Hne Hasc.
  - cbn [_recv_loop concat_all]. rewrite string_app_nil_r.
    rewrite drain_all_step.
    apply split_once_none in Hb. rewrite Hb. reflexivity.
  - inversion Hne as [|? ? Hc Hne']; subst.
    cbn [concat_all] in Hasc. rewrite is_ascii_app in Hasc.
    apply andb_true_iff in Hasc as [Hc_asc Hrest].
    cbn [_recv_loop concat_all].
    destruct c as [|a c]; [congruence|]. cbn [is_empty].
    unfold decode. rewrite Hc_asc. cbn [rbind].
    fold (drain_all (buffer ++ String a c) d).
    rewrite <- string_app_assoc.
    rewrite (drain_all_app (S (String.length (buffer ++ String a c)))
               (buffer ++ String a c) (concat_all chunks) d
               (Nat.lt_succ_diag_r _)).
    destruct (drain_all (buffer ++ String a c) d) as [[d' b']| |] eqn:E;
      cbn [rbind fst snd]; try reflexivity.
    apply IH; try assumption.
    clear -E.
    assert (Hgen : forall n s d d' b',
               (String.length s < n)%nat ->
               drain_all s d = Return (d', b') -> no_newline b' = true).
    { induction n as [|n IHn]; intros s d0 d1 b1 Hn H; [lia|].
      rewrite drain_all_step in H.
      destruct (split_once s) as [[line rest]|] eqn:E1.
      - pose proof (split_once_length s line rest E1).
        apply IHn in H; [exact H|lia].
      - inversion H. subst. apply split_once_none. exact E1. }
    eapply Hgen; [|exact E]. apply Nat.lt_succ_diag_r.
Qed.


(** X16. What [_recv_loop] hands to [on_message] does not depend on how
    the stream is cut into [recv] results: two ways of cutting the same
    bytes (below 128) give the same lines and leave the same buffer.  The
    loop returns, no line it hands over is empty or holds a newline, and
    the buffer left holds no newline. *)
Theorem recv_loop_ignores_segmentation chunks1 chunks2 :
  Forall (fun c => c <> "") chunks1 ->
  Forall (fun c => c <> "") chunks2 ->
  concat_all chunks1 = concat_all chunks2 ->
  is_ascii (concat_all chunks1) = true ->
  exists delivered buffer,
    _recv_loop chunks1 "" [] = Return (delivered, buffer) /\
    _recv_loop chunks2 "" [] = Return (delivered, buffer) /\
    no_newline buffer = true /\
    Forall (fun l => l <> "" /\ no_newline l = true) delivered.
Proof.
  intros H1 H2 Heq Hasc.
  rewrite (recv_loop_drain_all chunks1 "" [] eq_refl H1 Hasc).
  rewrite Heq in Hasc.
  rewrite (recv_loop_drain_all chunks2 "" [] eq_refl H2 Hasc).
  rewrite Heq. cbn [append].
  destruct (drain_all_returns (S (String.length (concat_all chunks2)))
              (concat_all chunks2) [] (Nat.lt_succ_diag_r _) (List.Forall_nil _))
    as (d' & b & Hrun & Hb & Hd).
  exists d', b. auto.
Qed.

Lemma recv_loop_ignores_segmentation_witness :
  exists delivered buffer,
    _recv_loop ["MOVE a3"; "-b4" ++ String newline "MS"; "G hi" ++ String newline "x"]
               "" [] = Return (delivered, buffer) /\
    _recv_loop ["MOVE a3-b4" ++ String newline ("MSG hi" ++ String newline "x")]
               "" [] = Return (delivered, buffer) /\
    no_newline buffer = true /\
    Forall (fun l => l <> "" /\ no_newline l = true) delivered.
Proof.
  apply (recv_loop_ignores_segmentation
           ["MOVE a3"; "-b4" ++ String newline "MS"; "G hi" ++ String newline "x"]
           ["MOVE a3-b4" ++ String newline ("MSG hi" ++ String newline "x")]).
  - repeat constructor; discriminate.
  - repeat constructor; discriminate.
  - reflexivity.
  - reflexivity.
Defined.

Lemma split_once_line m rest :
  no_newline m = true ->
  split_once (m ++ String newline rest) = Some (m, rest).
Proof.
  intros Hm. apply split_once_none in Hm.
  rewrite (split_once_app_none m _ Hm). cbn. rewrite string_app_nil_r. reflexivity.
Qed.

Lemma endswith_no_newline m : no_newline m = true -> endswith_newline m = false.
Proof.
  unfold no_newline. induction m as [|a m IH]; cbn; [reflexivity|].
  intros H. apply andb_true_iff in H as [Ha Hm].
  destruct m as [|b m]; [destruct (is_newline a); [discriminate|reflexivity]|].
  apply IH. exact Hm.
Qed.

Lemma send_all_framed msgs :
  Forall (fun m => m <> "" /\ is_ascii m = true /\ no_newline m = true) msgs ->
  send_all msgs = Return (framed msgs).
Proof.
  intros H. unfold send_all, framed.
  assert (Hgen : forall wire,
             foldM (fun wire msg => do bytes <- send msg; Return (wire ++ bytes))
                   msgs wire
             = Return (wire ++ concat_all (map (fun m => m ++ String newline "") msgs))).
  { induction H as [|m msgs (_ & Hasc & Hnl) _ IH]; intros wire; cbn [foldM map concat_all].
    - rewrite string_app_nil_r. reflexivity.
    - unfold send at 1. rewrite (endswith_no_newline m Hnl). cbn [negb].
      unfold encode. rewrite is_ascii_app, Hasc. cbn [andb rbind].
      assert (is_ascii (String newline "") = true) as -> by reflexivity.
      cbn [rbind]. rewrite IH. rewrite string_app_assoc. reflexivity. }
  apply (Hgen "").
Qed.

Lemma drain_all_framed msgs :
  forall d,
    Forall (fun m => m <> "" /\ is_ascii m = true /\ no_newline m = true) msgs ->
    drain_all (framed msgs) d = Return ((d ++ msgs)%list, "").
Proof.
  induction msgs as [|m msgs IH]; intros d H.
  - rewrite app_nil_r. reflexivity.
  - inversion H as [|? ? (Hne & _ & Hnl) H']; subst.
    unfold framed. cbn [map concat_all]. fold (framed msgs).
    rewrite drain_all_step. rewrite string_app_assoc. cbn [append].
    rewrite (split_once_line m (framed msgs) Hnl).
    destruct m as [|a m]; [congruence|]. cbn [is_empty].
    rewrite (IH _ H'). rewrite <- app_assoc. reflexivity.
Qed.

Lemma framed_ascii msgs :
  Forall (fun m => m <> "" /\ is_ascii m = true /\ no_newline m = true) msgs ->
  is_ascii (framed msgs) = true.
Proof.
  induction 1 as [|m msgs (_ & Hasc & _) _ IH]; [reflexivity|].
  unfold framed. cbn [map concat_all]. fold (framed msgs).
  rewrite !is_ascii_app, Hasc, IH. reflexivity.
Qed.

(** X17. Messages given to [send] one after the other, each of them not
    empty, without a newline and made of bytes below 128, are handed to
    [on_message] by the peer's [_recv_loop] one by one, whole and in
    order, however the stream is cut into [recv] results; nothing is left
    in the buffer. *)
Theorem sent_messages_arrive_whole msgs :
  Forall (fun m => m <> "" /\ is_ascii m = true /\ no_newline m = true) msgs ->
  exists wire,
    send_all msgs = Return wire /\
    forall chunks,
      Forall (fun c => c <> "") chunks ->
      concat_all chunks = wire ->
      _recv_loop chunks "" [] = Return (msgs, "").
Proof.
  intros H. exists (framed msgs). split; [apply send_all_framed; exact H|].
  intros chunks Hne Heq.
  rewrite (recv_loop_drain_all chunks "" [] eq_refl Hne)
    by (rewrite Heq; apply framed_ascii; exact H).
  rewrite Heq. cbn [append]. apply (drain_all_framed msgs [] H).
Qed.

Lemma sent_messages_arrive_whole_witness :
  exists wire,
    send_all ["MOVE a3-b4"; "MSG hi"] = Return wire /\
    forall chunks,
      Forall (fun c => c <> "") chunks ->
      concat_all chunks = wire ->
      _recv_loop chunks "" [] = Return (["MOVE a3-b4"; "MSG hi"], "").
Proof.
  apply (sent_messages_arrive_whole ["MOVE a3-b4"; "MSG hi"]).
  repeat constructor; discriminate.
Defined.

End NetFacts.

(** ** The wire format of a move *)

Section WireFacts.
Import Engine Text Net NetGUI.
Local Open Scope string_scope.



Lemma name_char_spec a :
  name_char a = true ->
  Ascii.eqb a "-" = false /\ is_space a = false /\
  (ord a <? 128)%Z = true /\ is_newline a = false.
Proof.
  unfold name_char. rewrite !andb_true_iff, !negb_true_iff. tauto.
Qed.

Lemma all_chars_impl (f g : ascii -> bool) s :
  (forall a, f a = true -> g a = true) ->
  all_chars f s = true -> all_chars g s = true.
Proof.
  intros Hfg. induction s as [|a s IH]; cbn; [reflexivity|].
  rewrite !andb_true_iff. intros [Ha Hs]. auto.
Qed.




Lemma all_chars_join (f : ascii -> bool) names :
  f "-"%char = true ->
  Forall (fun s => all_chars f s = true) names ->
  all_chars f (join "-" names) = true.
Proof.
  intros Hsep H. induction H as [|w names Hw Hrest IH]; [reflexivity|].
  destruct names as [|w' names]; [exact Hw|].
  change (join "-" (w :: w' :: names))
    with (w ++ String "-" (join "-" (w' :: names))).
  rewrite all_chars_app. cbn [all_chars]. rewrite Hw, Hsep, IH. reflexivity.
Qed.



Lemma names_weaken (g : ascii -> bool) names :
  (forall a, name_char a = true -> g a = true) ->
  Forall (fun s => all_chars name_char s = true) names ->
  Forall (fun s => all_chars g s = true) names.
Proof.
  intros Hg H. eapply Forall_impl; [exact H|]. cbv beta.
  intros s Hs. eapply all_chars_impl; [exact Hg|exact Hs].
Qed.



(** The line of a move is one message for the receiving loop. *)
Lemma move_line_is_a_message names :
  names <> [] ->
  Forall (fun s => all_chars name_char s = true) names ->
  let line := "MOVE " ++ join "-" names in
  line <> "" /\ is_ascii line = true /\ no_newline line = true.
Proof.
  intros Hne Hnames line. split; [discriminate|]. split.
  - unfold line, is_ascii. rewrite all_chars_app.
    rewrite all_chars_join; [reflexivity|reflexivity|].
    apply (names_weaken _ names); [|exact Hnames].
    intros a Ha. apply name_char_spec in Ha as (_ & _ & -> & _). reflexivity.
  - unfold line, no_newline. rewrite all_chars_app.
    rewrite all_chars_join; [reflexivity|reflexivity|].
    apply (names_weaken _ names); [|exact Hnames].
    intros a Ha. apply name_char_spec in Ha as (_ & _ & _ & ->). reflexivity.
Qed.

End WireFacts.

(** ** The networked window: clicks and received lines *)

Section Peers.
Import Engine Text Net NetGUI.
Local Open Scope string_scope.



(** A click leaves the game as it was: only the selection and the cache
    can change, and the cache can only be emptied. *)
Lemma on_click_keeps_game (app : App) x y :
  let app' := (on_click app x y).2 in
  board app' = board app /\
  current_player app' = current_player app /\
  local_side app' = local_side app /\
  tcp_conn_interface app' = tcp_conn_interface app /\
  turn_label app' = turn_label app /\
  (valid_moves_cache app' = valid_moves_cache app \/ valid_moves_cache app' = []).
Proof.
  unfold on_click.
  destruct (negb _); [cbn; tauto|].
  destruct (match local_side app with
            | Some side => negb (Player.eqb side (current_player app))
            | None => false
            end); [cbn; tauto|].
  destruct (get (board app) (y / CELL) (x / CELL)) as [piece| |];
    [|cbn; tauto..].
  destruct (selected app) as [sel|].
  - destruct (find_move (valid_moves_cache app) sel (y / CELL, x / CELL))
      as [[m|]| |]; [| |cbn; tauto..].
    + cbn. tauto.
    + destruct (owner_eqb _ _); cbn; tauto.
  - destruct (owner_eqb _ _); cbn; tauto.
Qed.

(** X18. In the networked window no click plays a move.  Whatever the
    state of the window and wherever the click falls, the board, the
    player to move, the side of the window, the connection with all it
    has sent, and the label are what they were; the cache of moves is
    unchanged or emptied.  On a board of eight rows of eight with an
    empty cache, a click on a piece of the player to move, in a window
    that may play, records the square as selected and then raises
    [AttributeError] at the lookup of [legal_moves] on the board. *)
Theorem click_never_plays_a_move (app : App) x y piece :
  let row := y / CELL in
  let col := x / CELL in
  wf_board (board app) ->
  valid_moves_cache app = [] ->
  0 <= row < 8 -> 0 <= col < 8 ->
  (forall side, local_side app = Some side -> side = current_player app) ->
  get (board app) row col = Return piece ->
  piece_owner piece = Some (current_player app) ->
  on_click app x y
  = (Raise AttributeError, with_selection app (Some (row, col)) []) /\
  forall app0 x0 y0,
    let app' := (on_click app0 x0 y0).2 in
    board app' = board app0 /\
    current_player app' = current_player app0 /\
    local_side app' = local_side app0 /\
    tcp_conn_interface app' = tcp_conn_interface app0 /\
    turn_label app' = turn_label app0 /\
    (valid_moves_cache app' = valid_moves_cache app0
     \/ valid_moves_cache app' = []).
Proof.
  intros row col Hwf Hcache Hr Hc Hside Hp Hown.
  split; [|intros app0 x0 y0; apply on_click_keeps_game].
  unfold on_click. fold row col.
  assert ((0 <=? row)%Z && (row <? BOARD_SIZE)%Z
          && (0 <=? col)%Z && (col <? BOARD_SIZE)%Z = true) as ->.
  { unfold BOARD_SIZE. rewrite !andb_true_iff.
    repeat split; first [apply Z.leb_le | apply Z.ltb_lt]; lia. }
  cbn [negb].
  assert (match local_side app with
          | Some side => negb (Player.eqb side (current_player app))
          | None => false
          end = false) as ->.
  { destruct (local_side app) as [side|]; [|reflexivity].
    rewrite (Hside side eq_refl). destruct (current_player app); reflexivity. }
  rewrite Hp, Hown, Hcache.
  assert (Hself : owner_eqb (Some (current_player app)) (Some (current_player app))
                  = true)
    by (destruct (current_player app); reflexivity).
  assert (Hsel : select_square app (row, col)
                 = (Raise AttributeError, with_selection app (Some (row, col)) [])).
  { unfold select_square, board_legal_moves, no_attribute.
    rewrite Hcache. reflexivity. }
  destruct (selected app) as [sel|]; cbn [find_move]; rewrite Hself; exact Hsel.
Qed.

Lemma click_never_plays_a_move_witness :
  on_click net_host_ready 35 385
  = (Raise AttributeError, with_selection net_host_ready (Some (5, 0)) []) /\
  forall app0 x0 y0,
    let app' := (on_click app0 x0 y0).2 in
    board app' = board app0 /\
    current_player app' = current_player app0 /\
    local_side app' = local_side app0 /\
    tcp_conn_interface app' = tcp_conn_interface app0 /\
    turn_label app' = turn_label app0 /\
    (valid_moves_cache app' = valid_moves_cache app0
     \/ valid_moves_cache app' = []).
Proof.
  apply (click_never_plays_a_move net_host_ready 35 385 Piece.RED).
  - exact en_wf_initial.
  - reflexivity.
  - vm_compute. split; [discriminate|reflexivity].
  - vm_compute. split; [discriminate|reflexivity].
  - intros side H. inversion H. reflexivity.
  - reflexivity.
  - reflexivity.
Defined.



End Peers.

(** ** [Board.render] *)

Section Render.
Import Engine.

Lemma range8_in r : In r range8 -> 0 <= r < 8.
Proof. unfold range8. cbn [In]. lia. Qed.

(** X20. [Board.render] draws nothing: on every board of eight rows of
    eight it reads all the squares and then returns the text
    [.join(lines)], the same for every board. *)
Theorem render_returns_one_text (b : Board) :
  wf_board b -> render b = Return ".join(lines)"%string.
Proof.
  intros Hwf. unfold render.
  match goal with
  | |- context [foldM ?f range8 ?init] =>
      destruct (foldM_total_In f range8) with (a := init) as [lines ->];
        [|reflexivity]
  end.
  intros lines r Hr. apply range8_in in Hr.
  match goal with
  | |- context [foldM ?f range8 ?init] =>
      destruct (foldM_total_In f range8) with (a := init) as [row ->];
        [|cbn [rbind]; eauto]
  end.
  intros row c Hc. apply range8_in in Hc.
  rewrite (en_get_in b r c Hwf Hr Hc). cbn [rbind]. eauto.
Qed.

Lemma render_returns_one_text_witness :
  render setup_initial = Return ".join(lines)"%string.
Proof. apply (render_returns_one_text setup_initial en_wf_initial). Defined.

End Render.
